(** * eseries: preferred-number series (E3 ... E192), range enumeration and
    nearest-value search

    A shallow embedding of [eseries.py] and proofs of its properties.

    Numbers.  Python floats are idealised as exact real numbers within the
    range of binary64: no operation rounds, apart from [_round_sig], which
    rounds to significant figures exactly as the source asks, but the range
    is kept.  A product beyond the largest float is an infinity ([nmul]); a
    table entry scaled beyond it makes [erange] raise [OverflowError]; and
    a number beyond it, which in Python can only be an [int], raises
    [OverflowError] where the program converts it to a float
    ([too_large], [overflows]).  Every real the program forms from rational inputs is either rational (table
    entries, powers of ten, targets, candidates, distances) or the product
    of a rational with [scale ** 1.5] (the two ends of the search window).
    Both kinds have a rational square, so a finite bound is kept as its
    signed square ([num]), and values that are added or subtracted are plain
    rationals ([Q]).  Logarithms are kept exact as well: a [lognum] is a
    dyadic fraction of the decimal logarithm of a positive rational, which is
    closed under the sums, differences, halvings, floors and comparisons
    that [erange] performs.

    Exact functions and the program.  The program computes in binary64.
    Lemmas on the exact functions hold for all arguments; those named
    [..._exact] are stated for the exact functions only.  The theorems
    about the program are concrete runs on small integers, or are stated
    for arguments on which binary64 forms the same numbers as exact
    arithmetic ([exact_range], [exact_target], [exact_integer]), or, for
    properties that the rounding of single values cannot disturb, for
    arguments away from both ends of the binary64 range ([float_target],
    [float_range]).  Elsewhere the program can differ from the exact
    functions: a bound such as [0.56 * 10.0] is a rounded product, and a
    standard value beyond [2 ^ 53] and its distance to a target are
    rounded.

    Effects.  Exceptions are values of [result].  The generator [erange] is
    modelled by the list of the values it yields, or by the exception that
    consuming it raises; its callers in the module consume it whole. *)

From Stdlib Require Import ZArith QArith Qabs Qround Qpower Qreduction.
From Stdlib Require Import List Bool Lia Lqa Sorted Permutation.
Import ListNotations.

Local Open Scope Z_scope.

(** ** Exceptions *)

Inductive bound : Type := Start | Stop.

(** ** Exact numbers *)

(** [Fin s] is the finite real [sgn s * sqrt |s|]; the other three are the
    non-finite floats, which only matter to the guards of [erange]. *)
Inductive num : Type :=
| Fin (sq : Q)
| PInf
| NInf
| NaN.

Inductive message : Type :=
| NotFinite (which : bound) (shown : num)
    (* "<which> value <shown> is not finite" *)
| TooSmall (shown : num) (which : bound) (minimum : num)
    (* "<shown> is too small. The <which> value must greater than or equal to <minimum>" *)
| StartAfterStop (start stop : num)
    (* "Start value <start> must be less than stop value <stop>" *)
| NumNot123 (n : Z)
    (* "num <n> is not 1, 2 or 3" *)
| NotIntegral.
    (* "{} does not have integral value." *)

Inductive exn : Type :=
| ValueError (m : message)
| AssertionError
| IndexError
| OverflowError.

Inductive result (A : Type) : Type :=
| Ok (a : A)
| Raise (e : exn).

Arguments Ok {A} a.
Arguments Raise {A} e.

Definition bind {A B : Type} (r : result A) (f : A -> result B) : result B :=
  match r with
  | Ok a => f a
  | Raise e => Raise e
  end.

Notation "'let*' x ':=' e1 'in' e2" := (bind e1 (fun x => e2))
  (at level 10, x name, e1 at level 100, e2 at level 200).

(** ** Arithmetic on exact numbers *)

Definition Qlt_bool (a b : Q) : bool := negb (Qle_bool b a).

Definition of_Q (q : Q) : num := Fin (q * Qabs q).

Definition of_Z (z : Z) : num := of_Q (inject_Z z).

Definition isfinite (x : num) : bool :=
  match x with
  | Fin _ => true
  | _ => false
  end.

(** [x <= y] and [x < y] on floats: false as soon as a NaN takes part. *)
Definition nle (x y : num) : bool :=
  match x, y with
  | NaN, _ | _, NaN => false
  | NInf, _ => true
  | _, PInf => true
  | Fin a, Fin b => Qle_bool a b
  | _, _ => false
  end.

Definition nlt (x y : num) : bool :=
  match x, y with
  | NaN, _ | _, NaN => false
  | PInf, _ => false
  | _, NInf => false
  | Fin a, Fin b => Qlt_bool a b
  | _, _ => true
  end.

(** Binary64 holds magnitudes up to [(2 - 2 ^ -52) * 2 ^ 1023]: an exact
    result of magnitude [2 ^ 1024 - 2 ^ 970] or more is rounded to an
    infinity. *)
Definition overflow_threshold : Q := (2 ^ 1024 - 2 ^ 970)%Q.

Definition overflows (x : Q) : bool := Qle_bool overflow_threshold (Qabs x).

(** A number too large for binary64 is no float: it can only be an [int].
    Python raises [OverflowError] when it converts such an [int] to a
    float, as [math.isfinite] and every operation that mixes it with a
    float do. *)
Definition too_large (x : num) : bool :=
  match x with
  | Fin sq => Qle_bool (overflow_threshold * overflow_threshold) (Qabs sq)
  | _ => false
  end.

(** Products and quotients; the program only forms them from finite
    operands (a finite target and a finite power of the scale).  A product
    too large for binary64 is an infinity; the quotients of the program
    divide by a number above 1. *)
Definition nmul (x y : num) : num :=
  match x, y with
  | Fin a, Fin b =>
      if Qle_bool (overflow_threshold * overflow_threshold) (Qabs (a * b))
      then if Qle_bool 0 (a * b) then PInf else NInf
      else Fin (a * b)
  | _, _ => NaN
  end.

Definition ndiv (x y : num) : num :=
  match x, y with
  | Fin a, Fin b => Fin (a / b)
  | _, _ => NaN
  end.

(** [pow(x, 1.5)] for a rational [x > 0]: its square is [x ^ 3]. *)
Definition pow_1_5 (x : Q) : num := Fin (x ^ 3).

(** [math.pow(10, k)] for an integer [k]. *)
Definition pow10 (k : Z) : Q := (10 ^ k)%Q.

(** ** Exact logarithms *)

(** [LogN k a] is the real number [log10 a / 2 ^ k], for [a > 0]. *)
Record lognum : Type := LogN { lscale : nat; lanti : Q }.

Definition lraise (d : nat) (a : Q) : Q := (a ^ (2 ^ Z.of_nat d))%Q.

(** Bring two logarithms to a common scale. *)
Definition lalign (x y : lognum) : nat * Q * Q :=
  let k := Nat.max (lscale x) (lscale y) in
  (k, lraise (k - lscale x) (lanti x), lraise (k - lscale y) (lanti y)).

Definition lsub (x y : lognum) : lognum :=
  let '(k, a, b) := lalign x y in LogN k (a / b).

Definition ladd (x y : lognum) : lognum :=
  let '(k, a, b) := lalign x y in LogN k (a * b).

Definition lhalf (x : lognum) : lognum := LogN (S (lscale x)) (lanti x).

Definition lle (x y : lognum) : bool :=
  let '(_, a, b) := lalign x y in Qle_bool a b.

Definition llt (x y : lognum) : bool :=
  let '(_, a, b) := lalign x y in Qlt_bool a b.

Definition leq (x y : lognum) : bool :=
  let '(_, a, b) := lalign x y in Qeq_bool a b.

(** An integer as a logarithm. *)
Definition lint (n : Z) : lognum := LogN 0 (10 ^ n)%Q.

(** [log10] of a positive finite number [sqrt s] is [log10 s / 2].
    [math.log10] raises on other arguments; every call in the program is
    behind a positivity guard (the bounds of [erange] are at least
    [_MINIMUM_E_VALUE], table entries are positive, [_round_sig] tests for
    zero first). *)
Definition log10 (x : num) : lognum :=
  match x with
  | Fin s => LogN 1 s
  | _ => LogN 1 1
  end.

(** Number of times [d] can be multiplied by ten without exceeding [n]. *)
Fixpoint ilog10_up (fuel : nat) (n d : Z) : Z :=
  match fuel with
  | O => 0
  | S fuel' => if 10 * d <=? n then 1 + ilog10_up fuel' n (10 * d) else 0
  end.

(** Least [k >= 1] with [d <= n * 10 ^ k]. *)
Fixpoint ilog10_down (fuel : nat) (n d : Z) : Z :=
  match fuel with
  | O => 1
  | S fuel' => if d <=? 10 * n then 1 else 1 + ilog10_down fuel' (10 * n) d
  end.

(** [floor (log10 q)] for a rational [q > 0]. *)
Definition ilog10 (q : Q) : Z :=
  let n := Qnum q in
  let d := Zpos (Qden q) in
  if d <=? n then ilog10_up (S (Z.to_nat (Z.log2 n))) n d
  else - ilog10_down (S (Z.to_nat (Z.log2 d))) n d.

(** [math.floor] of a logarithm. *)
Definition lfloor (x : lognum) : Z := ilog10 (lanti x) / 2 ^ Z.of_nat (lscale x).

(** [x % 1]. *)
Definition lmod1 (x : lognum) : lognum := lsub x (lint (lfloor x)).

(** ** The series registry *)

Definition _MINIMUM_E_VALUE : num := of_Q (10 ^ (-200))%Q.

Inductive ESeries : Type := E3 | E6 | E12 | E24 | E48 | E96 | E192.

(** The numeric identifier of a key (the [IntEnum] value). *)
Definition ESeries_value (k : ESeries) : Z :=
  match k with
  | E3 => 3 | E6 => 6 | E12 => 12 | E24 => 24
  | E48 => 48 | E96 => 96 | E192 => 192
  end.

Definition series_keys : list ESeries := [E3; E6; E12; E24; E48; E96; E192].

Definition series (series_key : ESeries) : list Z :=
  match series_key with
  | E3 => [10; 22; 47]
  | E6 => [10; 15; 22; 33; 47; 68]
  | E12 => [10; 12; 15; 18; 22; 27; 33; 39; 47; 56; 68; 82]
  | E24 => [10; 11; 12; 13; 15; 16; 18; 20; 22; 24; 27; 30; 33; 36; 39; 43;
            47; 51; 56; 62; 68; 75; 82; 91]
  | E48 => [100; 105; 110; 115; 121; 127; 133; 140; 147; 154; 162; 169; 178;
            187; 196; 205; 215; 226; 237; 249; 261; 274; 287; 301; 316; 332;
            348; 365; 383; 402; 422; 442; 464; 487; 511; 536; 562; 590; 619;
            649; 681; 715; 750; 787; 825; 866; 909; 953]
  | E96 => [100; 102; 105; 107; 110; 113; 115; 118; 121; 124; 127; 130; 133;
            137; 140; 143; 147; 150; 154; 158; 162; 165; 169; 174; 178; 182;
            187; 191; 196; 200; 205; 210; 215; 221; 226; 232; 237; 243; 249;
            255; 261; 267; 274; 280; 287; 294; 301; 309; 316; 324; 332; 340;
            348; 357; 365; 374; 383; 392; 402; 412; 422; 432; 442; 453; 464;
            475; 487; 499; 511; 523; 536; 549; 562; 576; 590; 604; 619; 634;
            649; 665; 681; 698; 715; 732; 750; 768; 787; 806; 825; 845; 866;
            887; 909; 931; 953; 976]
  | E192 => [100; 101; 102; 104; 105; 106; 107; 109; 110; 111; 113; 114; 115;
             117; 118; 120; 121; 123; 124; 126; 127; 129; 130; 132; 133; 135;
             137; 138; 140; 142; 143; 145; 147; 149; 150; 152; 154; 156; 158;
             160; 162; 164; 165; 167; 169; 172; 174; 176; 178; 180; 182; 184;
             187; 189; 191; 193; 196; 198; 200; 203; 205; 208; 210; 213; 215;
             218; 221; 223; 226; 229; 232; 234; 237; 240; 243; 246; 249; 252;
             255; 258; 261; 264; 267; 271; 274; 277; 280; 284; 287; 291; 294;
             298; 301; 305; 309; 312; 316; 320; 324; 328; 332; 336; 340; 344;
             348; 352; 357; 361; 365; 370; 374; 379; 383; 388; 392; 397; 402;
             407; 412; 417; 422; 427; 432; 437; 442; 448; 453; 459; 464; 470;
             475; 481; 487; 493; 499; 505; 511; 517; 523; 530; 536; 542; 549;
             556; 562; 569; 576; 583; 590; 597; 604; 612; 619; 626; 634; 642;
             649; 657; 665; 673; 681; 690; 698; 706; 715; 723; 732; 741; 750;
             759; 768; 777; 787; 796; 806; 816; 825; 835; 845; 856; 866; 876;
             887; 898; 909; 920; 931; 942; 953; 965; 976; 988]
  end.

(** ** The logarithmic index *)

(** [LOG10_MANTISSA_E[key]]: [log10(x) % 1] for every table entry. *)
Definition LOG10_MANTISSA_E (series_key : ESeries) : list lognum :=
  map (fun x => lmod1 (log10 (of_Z x))) (series series_key).

(** [zip(series, series[1:])]. *)
Definition adjacent_pairs (l : list Z) : list (Z * Z) := combine l (tl l).

Definition Qmax_list (d : Q) (l : list Q) : Q :=
  fold_left (fun m x => if Qlt_bool m x then x else m) l d.

(** [GEOMETRIC_SCALE_E[key]]: the largest ratio [b / a] of adjacent entries. *)
Definition GEOMETRIC_SCALE_E (series_key : ESeries) : Q :=
  match map (fun ab => (inject_Z (snd ab) / inject_Z (fst ab))%Q)
            (adjacent_pairs (series series_key)) with
  | [] => 0%Q
  | r :: rs => Qred (Qmax_list r rs)
  end.

(** ** Rounding *)

(** [round(x, ndigits)] on an exact value: to the nearest multiple of
    [10 ^ -ndigits], halves to the even neighbour. *)
Definition pyround (x : Q) (ndigits : Z) : Q :=
  let y := (x * 10 ^ ndigits)%Q in
  let f := Qfloor y in
  let r := (y - inject_Z f)%Q in
  let n := if Qlt_bool r (1 # 2) then f
           else if Qlt_bool (1 # 2) r then f + 1
           else if Z.even f then f else f + 1 in
  Qred (inject_Z n / 10 ^ ndigits)%Q.

Definition _round_sig (x : Q) (figures : Z) : Q :=
  if Qeq_bool x 0 then 0%Q
  else pyround x (figures - lfloor (log10 (of_Q (Qabs x))) - 1).

(** ** Bisection *)

(** [bisect_left(a, x)] and [bisect_right(a, x)] of the standard library:
    the loop [while lo < hi: mid = (lo + hi) // 2; ...] that halves the
    interval [lo, hi) on the outcome of one comparison with [a[mid]].
    [test mid] tells whether the search continues right of [mid]; the
    interval shrinks at every turn, so [length a] turns suffice. *)
Fixpoint bisect_loop (fuel : nat) (test : nat -> bool) (lo hi : nat) : nat :=
  match fuel with
  | O => lo
  | S fuel' =>
      if (lo <? hi)%nat then
        let mid := ((lo + hi) / 2)%nat in
        if test mid then bisect_loop fuel' test (mid + 1)%nat hi
        else bisect_loop fuel' test lo mid
      else lo
  end.

(** [if a[mid] < x: lo = mid + 1 else: hi = mid] *)
Definition bisect_left (a : list lognum) (x : lognum) : nat :=
  bisect_loop (length a) (fun mid => llt (nth mid a (lint 0)) x)
    O (length a).

(** [if x < a[mid]: hi = mid else: lo = mid + 1] *)
Definition bisect_right (a : list lognum) (x : lognum) : nat :=
  bisect_loop (length a) (fun mid => negb (llt x (nth mid a (lint 0))))
    O (length a).

(** ** The range enumerator *)

(** [divmod(value, 1)] with the quotient turned into an integer. *)
Definition _decade_mantissa (value : lognum) : Z * lognum :=
  (lfloor value, lmod1 value).

Definition is_integral (f : lognum) : bool := leq f (lint (lfloor f)).

Definition _try_integral (f : lognum) : result Z :=
  if negb (is_integral f) then Raise (ValueError NotIntegral)
  else Ok (lfloor f).

(** [range(a, b)] over integers and over indexes. *)
Definition zrange (a b : Z) : list Z :=
  map (fun i => a + Z.of_nat i) (seq 0 (Z.to_nat (b - a))).

Definition irange (a b : nat) : list nat := seq a (b - a).

(** A loop whose turns yield values or raise: the values of all turns, in
    order, or the first exception. *)
Fixpoint for_each {A B : Type} (body : A -> result (list B)) (l : list A)
  : result (list B) :=
  match l with
  | [] => Ok []
  | a :: l' =>
      let* yielded := body a in
      let* rest := for_each body l' in
      Ok (yielded ++ rest)
  end.

(** The body of the two nested loops of [erange], for one table index.
    When the product is too large for binary64 the turn raises
    [OverflowError]: either [math.pow] raises it, or the product is [inf]
    and [_round_sig] raises it at [floor(log10(inf))]. *)
Definition erange_item (series_values : list Z) (series_decade : Z)
    (start stop : num) (decade : Z) (index : nat) : result (list Q) :=
  let found := nth index series_values 0 in
  let scale_exponent := decade - series_decade in
  let result := (inject_Z found * pow10 scale_exponent)%Q in
  if overflows result then Raise OverflowError
  else
    let rounded_result := _round_sig result (series_decade + 1) in
    Ok (if nle start (of_Q rounded_result) && nle (of_Q rounded_result) stop
        then [rounded_result] else []).

Definition erange_loop (series_values : list Z) (series_log : list lognum)
    (series_decade : Z) (start stop : num)
    (start_decade : Z) (start_index : nat)
    (stop_decade : Z) (stop_index : nat) : result (list Q) :=
  for_each
    (fun decade =>
       let index_begin := if decade =? start_decade then start_index else O in
       let index_end :=
         if decade =? stop_decade then stop_index else length series_log in
       for_each (erange_item series_values series_decade start stop decade)
                (irange index_begin index_end))
    (zrange start_decade (stop_decade + 1)).

(** [erange]: the generator is modelled by the list of the values it yields,
    or by the exception that consuming it raises. *)
Definition erange (series_key : ESeries) (start stop : num)
  : result (list Q) :=
  if too_large start then Raise OverflowError
  else if negb (isfinite start) then
    Raise (ValueError (NotFinite Start start))
  else if too_large stop then Raise OverflowError
  else if negb (isfinite stop) then
    Raise (ValueError (NotFinite Stop stop))
  else if nlt start _MINIMUM_E_VALUE then
    Raise (ValueError (TooSmall stop Start _MINIMUM_E_VALUE))
  else if nlt stop _MINIMUM_E_VALUE then
    Raise (ValueError (TooSmall stop Stop _MINIMUM_E_VALUE))
  else if negb (nle start stop) then
    Raise (ValueError (StartAfterStop start stop))
  else
    let series_values := series series_key in
    let series_log := LOG10_MANTISSA_E series_key in
    let len := length series_log in
    let epsilon :=
      lhalf (lsub (nth (len - 1) series_log (lint 0))
                  (nth (len - 2) series_log (lint 0))) in
    let start_log := lsub (log10 start) epsilon in
    let '(start_decade, start_mantissa) := _decade_mantissa start_log in
    let start_index := bisect_left series_log start_mantissa in
    let '(start_decade, start_index) :=
      if Nat.eqb start_index len
      then (start_decade + 1, O)     (* wrap to next decade *)
      else (start_decade, start_index) in
    let stop_log := ladd (log10 stop) epsilon in
    let '(stop_decade, stop_mantissa) := _decade_mantissa stop_log in
    let stop_index := bisect_right series_log stop_mantissa in
    if Nat.eqb stop_index O then Raise AssertionError
    else
      let* series_decade :=
        _try_integral (log10 (of_Z (nth 0 series_values 0))) in
      erange_loop series_values series_log series_decade start stop
                  start_decade start_index stop_decade stop_index.

(** ** Nearest-value search *)

(** A stable sort by a rational key ([sorted(..., key=...)]). *)
Fixpoint insert_by {A : Type} (key : A -> Q) (x : A) (l : list A) : list A :=
  match l with
  | [] => [x]
  | y :: l' =>
      if Qle_bool (key x) (key y) then x :: y :: l'
      else y :: insert_by key x l'
  end.

Definition sorted_by {A : Type} (key : A -> Q) (l : list A) : list A :=
  fold_right (insert_by key) [] l.

Definition enumerate {A : Type} (l : list A) : list (nat * A) :=
  combine (seq 0 (length l)) l.

Definition _nearest_n (candidates : list Q) (value : Q) (n : Z) : list Q :=
  let abs_deltas := map (fun c => Qabs (c - value)) candidates in
  let indexes := map fst (sorted_by snd (enumerate abs_deltas)) in
  let nearest_three :=
    sorted_by (fun c => c)
              (map (fun i => nth i candidates 0%Q)
                   (firstn (Z.to_nat n) indexes)) in
  nearest_three.

Definition find_nearest_few (series_key : ESeries) (value : Q) (n : Z)
  : result (list Q) :=
  if negb (existsb (Z.eqb n) [1; 2; 3]) then
    Raise (ValueError (NumNot123 n))
  else if overflows value then
    Raise OverflowError   (* an int too large for [value / pow(...)] *)
  else
    let start := ndiv (of_Q value) (pow_1_5 (GEOMETRIC_SCALE_E series_key)) in
    let stop := nmul (of_Q value) (pow_1_5 (GEOMETRIC_SCALE_E series_key)) in
    let* candidates := erange series_key start stop in
    let nearest := _nearest_n candidates value n in
    Ok nearest.

(** [for candidate in candidates: if test(candidate): return candidate]
    followed by [assert False]. *)
Fixpoint first_such (test : Q -> bool) (candidates : list Q) : result Q :=
  match candidates with
  | [] => Raise AssertionError
  | candidate :: rest =>
      if test candidate then Ok candidate else first_such test rest
  end.

Definition find_greater_than_or_equal (series_key : ESeries) (value : Q)
  : result Q :=
  let* candidates := find_nearest_few series_key value 3 in
  first_such (fun candidate => Qle_bool value candidate) candidates.

Definition find_greater_than (series_key : ESeries) (value : Q) : result Q :=
  let* candidates := find_nearest_few series_key value 3 in
  first_such (fun candidate => Qlt_bool value candidate) candidates.

Definition find_less_than_or_equal (series_key : ESeries) (value : Q)
  : result Q :=
  let* candidates := find_nearest_few series_key value 3 in
  first_such (fun candidate => Qle_bool candidate value) (rev candidates).

Definition find_less_than (series_key : ESeries) (value : Q) : result Q :=
  let* candidates := find_nearest_few series_key value 3 in
  first_such (fun candidate => Qlt_bool candidate value) (rev candidates).

Definition find_nearest (series_key : ESeries) (value : Q) : result Q :=
  let* nearest := find_nearest_few series_key value 1 in
  match nearest with
  | c :: _ => Ok c
  | [] => Raise IndexError
  end.

(** ** Names for the intermediate values of [erange] *)

(** The exponent of the first table entry, as [erange] derives it. *)
Definition series_decade (series_key : ESeries) : Z :=
  match series_key with
  | E3 | E6 | E12 | E24 => 1
  | E48 | E96 | E192 => 2
  end.

(** [epsilon]: half the gap between the two largest mantissas. *)
Definition epsilon_of (series_key : ESeries) : lognum :=
  let series_log := LOG10_MANTISSA_E series_key in
  let len := length series_log in
  lhalf (lsub (nth (len - 1) series_log (lint 0))
              (nth (len - 2) series_log (lint 0))).

(** The decade and table index at which the enumeration starts. *)
Definition start_position (series_key : ESeries) (start : num) : Z * nat :=
  let series_log := LOG10_MANTISSA_E series_key in
  let start_log := lsub (log10 start) (epsilon_of series_key) in
  let start_index := bisect_left series_log (lmod1 start_log) in
  if Nat.eqb start_index (length series_log)
  then (lfloor start_log + 1, O)
  else (lfloor start_log, start_index).

(** The decade and the (exclusive) table index at which it stops. *)
Definition stop_position (series_key : ESeries) (stop : num) : Z * nat :=
  let series_log := LOG10_MANTISSA_E series_key in
  let stop_log := ladd (log10 stop) (epsilon_of series_key) in
  (lfloor stop_log, bisect_right series_log (lmod1 stop_log)).

(** The standard value at table index [index] in decade [decade]. *)
Definition entry (series_key : ESeries) (index : nat) : Z :=
  nth index (series series_key) 0.

Definition std_value (series_key : ESeries) (decade : Z) (index : nat) : Q :=
  (inject_Z (entry series_key index)
   * 10 ^ (decade - series_decade series_key))%Q.

(** The value [erange] yields for a table position: the standard value,
    rounded to the precision of the table. *)
Definition yielded (series_key : ESeries) (decade : Z) (index : nat) : Q :=
  _round_sig (inject_Z (entry series_key index)
              * pow10 (decade - series_decade series_key))
             (series_decade series_key + 1).

(** The square of a table entry scaled into [[1, 10)]; half its logarithm is
    the entry's mantissa. *)
Definition mant (series_key : ESeries) (index : nat) : Q :=
  ((inject_Z (entry series_key index) / 10 ^ series_decade series_key) ^ 2)%Q.

(** The guards of [erange] all pass, and its bounds are floats or integers
    that convert to floats. *)
Definition guards_pass (start stop : num) : Prop :=
  isfinite start = true /\ isfinite stop = true
  /\ nlt start _MINIMUM_E_VALUE = false
  /\ nlt stop _MINIMUM_E_VALUE = false
  /\ nle start stop = true
  /\ too_large start = false /\ too_large stop = false.

(** The bounds are valid for the series: [erange] accepts them and
    enumerates the range without an exception. *)
Definition valid_range (series_key : ESeries) (start stop : num) : Prop :=
  exists l, erange series_key start stop = Ok l.

(** The values one turn of the loop of [erange] yields when its product
    does not overflow, and the values of all turns. *)
Definition item_values (series_values : list Z) (series_decade : Z)
    (start stop : num) (decade : Z) (index : nat) : list Q :=
  let found := nth index series_values 0 in
  let scale_exponent := decade - series_decade in
  let result := (inject_Z found * pow10 scale_exponent)%Q in
  let rounded_result := _round_sig result (series_decade + 1) in
  if nle start (of_Q rounded_result) && nle (of_Q rounded_result) stop
  then [rounded_result] else [].

Definition loop_values (series_values : list Z) (series_log : list lognum)
    (series_decade : Z) (start stop : num)
    (start_decade : Z) (start_index : nat)
    (stop_decade : Z) (stop_index : nat) : list Q :=
  flat_map
    (fun decade =>
       let index_begin := if decade =? start_decade then start_index else O in
       let index_end :=
         if decade =? stop_decade then stop_index else length series_log in
       flat_map (item_values series_values series_decade start stop decade)
                (irange index_begin index_end))
    (zrange start_decade (stop_decade + 1)).

(** [start <= v <= stop], as the filter of [erange] tests it. *)
Definition in_range (start stop : num) (v : Q) : Prop :=
  nle start (of_Q v) = true /\ nle (of_Q v) stop = true.

(** The search window of [find_nearest_few]. *)
Definition window_start (series_key : ESeries) (value : Q) : num :=
  ndiv (of_Q value) (pow_1_5 (GEOMETRIC_SCALE_E series_key)).

Definition window_stop (series_key : ESeries) (value : Q) : num :=
  nmul (of_Q value) (pow_1_5 (GEOMETRIC_SCALE_E series_key)).

(** A target whose search window is a valid range: the target lies inside
    the range the series can represent. *)
Definition valid_target (series_key : ESeries) (value : Q) : Prop :=
  valid_range series_key (window_start series_key value)
              (window_stop series_key value).

(** The table position after, and before, a given one; positions run
    through the table and then on to the next decade. *)
Definition next_position (series_key : ESeries) (p : Z * nat) : Z * nat :=
  let '(d, i) := p in
  if Nat.ltb (S i) (length (series series_key)) then (d, S i) else (d + 1, O).

Definition prev_position (series_key : ESeries) (p : Z * nat) : Z * nat :=
  let '(d, i) := p in
  match i with
  | O => (d - 1, Nat.pred (length (series series_key)))
  | S j => (d, j)
  end.

Definition value_at (series_key : ESeries) (p : Z * nat) : Q :=
  std_value series_key (fst p) (snd p).

Definition ratio_facts (series_key : ESeries) : bool :=
  let t := series series_key in
  let s := GEOMETRIC_SCALE_E series_key in
  forallb (fun ab => Qle_bool (inject_Z (snd ab)) (s * inject_Z (fst ab)))
          (adjacent_pairs t)
  && Qle_bool (10 * inject_Z (nth 0 t 0))
              (s * inject_Z (nth (Nat.pred (length t)) t 0))
  && Qlt_bool 1 s.

(** The ordering bounds of the four directional searches, as the
    specification states them: each search returns, and the results
    surround the target. *)
Definition ordering_bounds (series_key : ESeries) (value : Q) : Prop :=
  exists le ge lt gt,
    find_less_than_or_equal series_key value = Ok le
    /\ find_greater_than_or_equal series_key value = Ok ge
    /\ find_less_than series_key value = Ok lt
    /\ find_greater_than series_key value = Ok gt
    /\ (le <= value)%Q /\ (value <= ge)%Q
    /\ (lt < value)%Q /\ (value < gt)%Q.

(** The distance of a candidate to the target, and the (index, distance)
    pairs [_nearest_n] keeps. *)
Definition distance (value c : Q) : Q := Qabs (c - value).

Definition chosen (candidates : list Q) (value : Q) (n : Z) : list (nat * Q) :=
  firstn (Z.to_nat n)
         (sorted_by snd (enumerate (map (distance value) candidates))).

(** Moving a table position by whole decades. *)
Definition shift_position (e : Z) (p : Z * nat) : Z * nat :=
  (fst p + e, snd p).

(** Two facts about the gaps around the table entry at [index], checked
    on the stored tables.  Below: the step up to the next value is no longer
    than the distance down to the value two places before, unless that value
    is too small to share a window with anything above the entry.  Above: the
    step up to the next value is no longer than the two steps after it. *)
Definition gap_below_fact (series_key : ESeries) (index : nat) : bool :=
  let p := (0, index) in
  let c := value_at series_key p in
  let a := value_at series_key
             (prev_position series_key (prev_position series_key p)) in
  let d := value_at series_key (next_position series_key p) in
  let s := GEOMETRIC_SCALE_E series_key in
  Qle_bool (d - c) (c - a) || Qlt_bool (a * a * s ^ 3) (c * c).

Definition gap_above_fact (series_key : ESeries) (index : nat) : bool :=
  let p := (0, index) in
  let l := value_at series_key p in
  let a1 := value_at series_key (next_position series_key p) in
  let a3 := value_at series_key
              (next_position series_key
                 (next_position series_key (next_position series_key p))) in
  Qle_bool (a1 - l) (a3 - a1).

Definition gap_facts (series_key : ESeries) : bool :=
  forallb (fun i => gap_below_fact series_key i && gap_above_fact series_key i)
          (seq 0 (length (series series_key))).

(** [x] is a standard value of the series, in some decade. *)
Definition is_standard (series_key : ESeries) (x : Q) : Prop :=
  exists d i, (i < length (series series_key))%nat
              /\ (x == std_value series_key d i)%Q.

(** One full turn of the table from position [(d, i)]: the rest of decade
    [d], the first [i] entries of the next decade and, when [closed], the
    entry ten times the first one. *)
Definition decade_values (series_key : ESeries) (d : Z) (i : nat)
    (closed : bool) : list Q :=
  map (yielded series_key d) (seq i (length (series series_key) - i))
  ++ map (yielded series_key (d + 1)) (seq 0 i)
  ++ (if closed then [yielded series_key (d + 1) i] else []).

(** A comparison that holds on an initial segment of the indices below [n],
    as the comparisons of a bisection over a sorted list do. *)
Definition monotone_test (test : nat -> bool) (n : nat) : Prop :=
  forall i j, (i <= j)%nat -> (j < n)%nat -> test j = true -> test i = true.

Fixpoint increasing (l : list Z) : bool :=
  match l with
  | a :: (b :: _) as l' => (a <? b) && increasing l'
  | _ => true
  end.

Definition table_facts (series_key : ESeries) : bool :=
  let t := series series_key in
  let sd := series_decade series_key in
  (Z.of_nat (length t) =? ESeries_value series_key)
  && forallb (fun x => (10 ^ sd <=? x) && (x <? 10 ^ (sd + 1))) t
  && increasing t
  && (nth 0 t 0 =? 10 ^ sd).

(** ** A search helper *)

(** [bisect_left] again, over a list of plain numbers. *)
Definition bisect_left_Q (a : list Q) (x : Q) : nat :=
  bisect_loop (length a) (fun mid => Qlt_bool (nth mid a 0%Q) x)
    O (length a).

(** [find_ge(a, x)]: the item at the insertion point of [x], or a bare
    [ValueError] when the insertion point is the end of the list.  [None]
    stands for that exception, which carries no message. *)
Definition find_ge (a : list Q) (x : Q) : option Q :=
  let i := bisect_left_Q a x in
  if negb (Nat.eqb i (length a)) then Some (nth i a 0%Q) else None.

(** ** Lookup by key *)

(** [series(series_key)] and [tolerance(series_key)] look their argument up
    in a dictionary and turn the [KeyError] of a missing key into a
    [ValueError] that shows the key and lists the names of the available
    ones ([series_keys()], the keys of [_E] in insertion order).  The members of [ESeries] are [IntEnum] values: they hash and
    compare as their integers, so a dictionary keyed by them answers to the
    plain integers 3, 6, ... as well.  Keys are modelled as integers; the
    decimal literals of [_TOLERANCE] are taken exactly. *)
Module Keyed.

Inductive lookup (A : Type) : Type :=
| Found (a : A)
| NotFound (key : Z) (available : list ESeries).
    (* ValueError: "E-series <key> not found. Available E-series keys are
       <the names of available, separated by ', '>" *)

Arguments Found {A} a.
Arguments NotFound {A} key available.

(** [d[key]] on a dictionary given by its items, in insertion order. *)
Fixpoint getitem {A : Type} (d : list (Z * A)) (key : Z) : option A :=
  match d with
  | [] => None
  | (k, v) :: d' => if k =? key then Some v else getitem d' key
  end.

Definition _E : list (Z * list Z) :=
  map (fun k => (ESeries_value k, series k)) series_keys.

Definition series (series_key : Z) : lookup (list Z) :=
  match getitem _E series_key with
  | Some v => Found v
  | None => NotFound series_key series_keys
  end.

Definition _TOLERANCE : list (Z * Q) :=
  [(ESeries_value E3, 4 # 10); (ESeries_value E6, 2 # 10);
   (ESeries_value E12, 1 # 10); (ESeries_value E24, 5 # 100);
   (ESeries_value E48, 2 # 100); (ESeries_value E96, 1 # 100);
   (ESeries_value E192, 5 # 1000)]%Q.

Definition tolerance (series_key : Z) : lookup Q :=
  match getitem _TOLERANCE series_key with
  | Some v => Found v
  | None => NotFound series_key series_keys
  end.

End Keyed.

(** ** Names for the decade structure *)

(** The standard value one decade above [y], in lowest terms as [erange]
    yields it. *)
Definition next_decade (y : Q) : Q := Qred (10 * y).

(** A function applied to the value a call returns; an exception passes. *)
Definition result_map {A B : Type} (f : A -> B) (r : result A) : result B :=
  match r with
  | Ok a => Ok (f a)
  | Raise e => Raise e
  end.

(** ** Arguments on which binary64 computes exactly *)

(** The functions above compute with exact numbers, the program with
    binary64 floats.  The two agree wherever every product, rounded value,
    distance and comparison the program forms is exact in binary64; the
    logarithms only choose table positions, and the half-gap [epsilon]
    together with the final filter of [erange] makes that choice
    insensitive to their rounding.  The predicates below name arguments of
    this kind; the properties of the program are stated on them.

    [exact_range]: bounds from the first table entry up to [10 ^ 15].
    Every standard value the enumeration meets between such bounds is an
    integer below [2 ^ 53], so [found * math.pow(10, scale_exponent)], its
    rounding to significant figures and the comparisons with the bounds
    are exact. *)
Definition exact_range (series_key : ESeries) (start stop : Q) : Prop :=
  (10 ^ series_decade series_key <= start)%Q /\ (start <= stop)%Q
  /\ (stop <= 10 ^ 15)%Q.

(** [exact_target]: an integer target from [10 ^ (series_decade + 1)] up to
    [10 ^ 9].  Its search window lies above the first table entry, so the
    candidates and their distances to the target are integers below
    [2 ^ 53], and the two rounded ends of the window separate the same
    standard values as the exact ends [value / scale ** 1.5] and
    [value * scale ** 1.5] do. *)
Definition exact_target (series_key : ESeries) (value : Z) : Prop :=
  10 ^ (series_decade series_key + 1) <= value <= 10 ^ 9.

(** [float_target]: a target from [1e-199] to [1e305].  Its search window
    starts above the minimum [1e-200] and the candidates around it stay
    below the largest binary64 number, both with a factor of at least three
    to spare. *)
Definition float_target (value : Q) : Prop :=
  (10 ^ (-199) <= value)%Q /\ (value <= 10 ^ 305)%Q.

(** [float_range]: a pair of bounds that passes the guards of [erange] and
    stops at [1e306] at the latest, so that no table entry scaled into the
    last decade of the range overflows. *)
Definition float_range (start stop : num) : Prop :=
  guards_pass start stop /\ nle stop (of_Q (10 ^ 306)) = true.

(** An integer of magnitude at most [2 ^ 52]: sums and differences of two
    such numbers are exact in binary64. *)
Definition exact_integer (x : Q) : Prop :=
  exists z, x = inject_Z z /\ Z.abs z <= 2 ^ 52.

(** The nonnegative logarithms: those of numbers from 1 upwards. *)
Definition nonnegative_log (value : lognum) : Prop := (1 <= lanti value)%Q.

(** The exception a search raises when its window starts below the
    minimum: the start-value check of [erange] fails, and its message shows
    the upper end of the window. *)
Definition window_too_small (series_key : ESeries) (value : Q) : exn :=
  ValueError (TooSmall (window_stop series_key value) Start _MINIMUM_E_VALUE).

(** * Properties *)

(** ** Concrete runs *)

(** C1 (as stated in the specification, refuted): [erange(E12, 21, 147)]
    does not yield [22, 27, ..., 100, 120, 147]; 147 is not an E12 value. *)
Lemma C1_erange_E12_21_147_has_no_147 :
  erange E12 (of_Z 21) (of_Z 147)
  <> Ok (map inject_Z [22; 27; 33; 39; 47; 56; 68; 82; 100; 120; 147]).
Proof. vm_compute. discriminate. Qed.

(** C1 (amended): [erange(E12, 21, 147)] yields exactly
    [22, 27, 33, 39, 47, 56, 68, 82, 100, 120], in that order. *)
Theorem C1_erange_E12_21_147 :
  erange E12 (of_Z 21) (of_Z 147)
  = Ok (map inject_Z [22; 27; 33; 39; 47; 56; 68; 82; 100; 120]).
Proof. vm_compute. reflexivity. Qed.

(** C5 (failing run): 13 lies strictly inside the range of E24, yet the three
    nearest values returned for it are 11, 12 and 13: none is strictly
    greater than the target.  11 and 15 are both at distance 2 and the stable
    sort keeps 11, which was enumerated first. *)
Theorem C5_nearest_three_of_13_in_E24 :
  find_nearest_few E24 (inject_Z 13) 3 = Ok (map inject_Z [11; 12; 13])
  /\ forall c, In c (map inject_Z [11; 12; 13]) -> ~ (inject_Z 13 < c)%Q.
Proof.
  split; [vm_compute; reflexivity|].
  intros c Hc. simpl in Hc.
  destruct Hc as [<-|[<-|[<-|[]]]]; unfold Qlt; simpl; lia.
Qed.

(** C8 (failing run): a start value below the minimum is reported with the
    stop value in the place of the offending start value. *)
Theorem C8_too_small_start_names_stop :
  erange E12 (of_Q (10 ^ (-300))%Q) (of_Z 5)
  = Raise (ValueError (TooSmall (of_Z 5) Start _MINIMUM_E_VALUE))
  /\ of_Z 5 <> of_Q (10 ^ (-300))%Q.
Proof. split; [vm_compute; reflexivity | vm_compute; discriminate]. Qed.

(** C9 (failing run): [find_greater_than(E24, 13)] reaches its
    [assert False]: no candidate among the three nearest exceeds 13. *)
Theorem C9_find_greater_than_E24_13_asserts :
  find_greater_than E24 (inject_Z 13) = Raise AssertionError.
Proof. vm_compute. reflexivity. Qed.

(** C3 (failing run): 13 is a positive finite value, and a standard value
    of E24.  [find_less_than_or_equal] and [find_greater_than_or_equal]
    return 13 itself and [find_less_than] returns 12, but
    [find_greater_than] returns nothing: it reaches its [assert False],
    because the three nearest candidates are 11, 12 and 13.  The ordering
    bounds do not hold at 13. *)
Theorem C3_ordering_bounds_fail_at_13 :
  find_less_than_or_equal E24 (inject_Z 13) = Ok (inject_Z 13)
  /\ find_greater_than_or_equal E24 (inject_Z 13) = Ok (inject_Z 13)
  /\ find_less_than E24 (inject_Z 13) = Ok (inject_Z 12)
  /\ find_greater_than E24 (inject_Z 13) = Raise AssertionError
  /\ ~ ordering_bounds E24 (inject_Z 13).
Proof.
  assert (H : find_greater_than E24 (inject_Z 13) = Raise AssertionError)
    by (vm_compute; reflexivity).
  repeat (split; [vm_compute; reflexivity|]).
  intros (le & ge & lt & gt & _ & _ & _ & Hgt & _).
  rewrite H in Hgt. discriminate.
Qed.


(** ** Powers of ten and the integer logarithm *)

Lemma p10_pos k : (0 < 10 ^ k)%Q.
Proof. apply Qpower_0_lt. reflexivity. Qed.

Lemma p10_add a b : (10 ^ (a + b) == 10 ^ a * 10 ^ b)%Q.
Proof. apply Qpower_plus. discriminate. Qed.

Lemma p10_lt a b : a < b -> (10 ^ a < 10 ^ b)%Q.
Proof. intros H. apply Qpower_lt_compat_l; [exact H | reflexivity]. Qed.

Lemma p10_le a b : a <= b -> (10 ^ a <= 10 ^ b)%Q.
Proof. intros H. apply Qpower_le_compat_l; [exact H | discriminate]. Qed.

Lemma p10_lt_inv a b : (10 ^ a < 10 ^ b)%Q -> a < b.
Proof. intros H. apply (Qpower_lt_compat_l_inv 10); [exact H | reflexivity]. Qed.

Lemma p10_inject k : 0 <= k -> (inject_Z (10 ^ k) == 10 ^ k)%Q.
Proof. intros H. apply (Zpower_Qpower 10 k H). Qed.

Lemma p10_succ k : (10 ^ (k + 1) == 10 ^ k * 10)%Q.
Proof. rewrite p10_add. reflexivity. Qed.

Lemma ilog10_up_spec fuel : forall n d,
  0 < d -> d <= n -> n < d * 2 ^ Z.of_nat fuel ->
  0 <= ilog10_up fuel n d
  /\ d * 10 ^ ilog10_up fuel n d <= n
  /\ n < d * 10 ^ (ilog10_up fuel n d + 1).
Proof.
  induction fuel as [|fuel IH]; intros n d Hd Hdn Hfuel.
  - simpl in Hfuel. lia.
  - cbn [ilog10_up]. destruct (Z.leb_spec (10 * d) n) as [Hle|Hgt].
    + assert (Hf : n < 10 * d * 2 ^ Z.of_nat fuel).
      { rewrite Nat2Z.inj_succ, Z.pow_succ_r in Hfuel by lia.
        assert (0 < 2 ^ Z.of_nat fuel) by (apply Z.pow_pos_nonneg; lia). nia. }
      destruct (IH n (10 * d) ltac:(lia) Hle Hf) as (H0 & H1 & H2).
      set (k := ilog10_up fuel n (10 * d)) in *.
      split; [lia|].
      replace (1 + k) with (k + 1) by lia.
      rewrite !Z.pow_add_r by lia.
      rewrite Z.pow_add_r in H2 by lia.
      change (10 ^ 1) with 10 in *. nia.
    + change (10 ^ (0 + 1)) with 10. change (10 ^ 0) with 1. lia.
Qed.

Lemma ilog10_down_spec fuel : forall n d,
  0 < n -> n < d -> d <= 10 * n * 2 ^ Z.of_nat fuel ->
  1 <= ilog10_down fuel n d
  /\ n * 10 ^ (ilog10_down fuel n d - 1) < d
  /\ d <= n * 10 ^ ilog10_down fuel n d.
Proof.
  induction fuel as [|fuel IH]; intros n d Hn Hnd Hfuel.
  - cbn [ilog10_down]. change (10 ^ (1 - 1)) with 1. change (10 ^ 1) with 10.
    change (2 ^ Z.of_nat 0) with 1 in Hfuel. lia.
  - cbn [ilog10_down]. destruct (Z.leb_spec d (10 * n)) as [Hle|Hgt].
    + change (10 ^ (1 - 1)) with 1. change (10 ^ 1) with 10. lia.
    + assert (Hf : d <= 10 * (10 * n) * 2 ^ Z.of_nat fuel).
      { rewrite Nat2Z.inj_succ, Z.pow_succ_r in Hfuel by lia.
        assert (0 < 2 ^ Z.of_nat fuel) by (apply Z.pow_pos_nonneg; lia). nia. }
      destruct (IH (10 * n) d ltac:(lia) Hgt Hf) as (H0 & H1 & H2).
      set (k := ilog10_down fuel (10 * n) d) in *.
      split; [lia|].
      replace (1 + k - 1) with ((k - 1) + 1) by lia.
      replace (1 + k) with (k + 1) by lia.
      rewrite !Z.pow_add_r by lia.
      change (10 ^ 1) with 10. nia.
Qed.

Lemma log2_fuel n : 0 < n -> n < 2 ^ Z.of_nat (S (Z.to_nat (Z.log2 n))).
Proof.
  intros Hn. rewrite Nat2Z.inj_succ, Z2Nat.id by apply Z.log2_nonneg.
  apply Z.log2_spec. exact Hn.
Qed.

(** [ilog10 q] is the decimal order of magnitude of [q]. *)
Lemma ilog10_spec q :
  (0 < q)%Q -> (10 ^ ilog10 q <= q)%Q /\ (q < 10 ^ (ilog10 q + 1))%Q.
Proof.
  destruct q as [n d]. intros Hq.
  assert (Hn : 0 < n) by (unfold Qlt in Hq; simpl in Hq; lia).
  unfold ilog10. cbn [Qnum Qden].
  destruct (Z.leb_spec (Zpos d) n) as [Hle|Hgt].
  - pose proof (log2_fuel n Hn) as Hf.
    assert (Hf' : n < Zpos d * 2 ^ Z.of_nat (S (Z.to_nat (Z.log2 n)))) by nia.
    destruct (ilog10_up_spec _ n (Zpos d) ltac:(lia) Hle Hf')
      as (H0 & H1 & H2).
    set (k := ilog10_up _ n (Zpos d)) in *.
    rewrite <- !p10_inject by lia.
    unfold Qle, Qlt. cbn [Qnum Qden inject_Z]. split; lia.
  - pose proof (log2_fuel (Zpos d) ltac:(lia)) as Hf.
    assert (Hf' : Zpos d <= 10 * n * 2 ^ Z.of_nat (S (Z.to_nat (Z.log2 (Zpos d)))))
      by nia.
    destruct (ilog10_down_spec _ n (Zpos d) Hn Hgt Hf') as (H0 & H1 & H2).
    set (k := ilog10_down _ n (Zpos d)) in *.
    replace (- k + 1) with (- (k - 1)) by lia.
    rewrite !Qpower_opp, <- !p10_inject by lia.
    assert (Hp : 0 < 10 ^ k) by (apply Z.pow_pos_nonneg; lia).
    assert (Hp' : 0 < 10 ^ (k - 1)) by (apply Z.pow_pos_nonneg; lia).
    split.
    + apply Qle_shift_inv_r.
      * unfold Qlt; simpl; lia.
      * unfold Qle. cbn [Qnum Qden inject_Z Qmult]. nia.
    + apply Qlt_shift_inv_l.
      * unfold Qlt; simpl; lia.
      * unfold Qlt. cbn [Qnum Qden inject_Z Qmult]. nia.
Qed.

Lemma ilog10_unique q k :
  (10 ^ k <= q)%Q -> (q < 10 ^ (k + 1))%Q -> ilog10 q = k.
Proof.
  intros Hlo Hhi.
  assert (Hq : (0 < q)%Q) by (eapply Qlt_le_trans; [apply p10_pos | exact Hlo]).
  destruct (ilog10_spec q Hq) as [Jlo Jhi].
  assert (ilog10 q < k + 1).
  { apply p10_lt_inv. eapply Qle_lt_trans; eassumption. }
  assert (k < ilog10 q + 1).
  { apply p10_lt_inv. eapply Qle_lt_trans; eassumption. }
  lia.
Qed.

(** ** Floors of logarithms *)

Lemma two_pow_pos (s : nat) : 0 < 2 ^ Z.of_nat s.
Proof. apply Z.pow_pos_nonneg; lia. Qed.

Lemma lfloor_spec s a :
  (0 < a)%Q ->
  (10 ^ (lfloor (LogN s a) * 2 ^ Z.of_nat s) <= a)%Q
  /\ (a < 10 ^ ((lfloor (LogN s a) + 1) * 2 ^ Z.of_nat s))%Q.
Proof.
  intros Ha. unfold lfloor. cbn [lanti lscale].
  destruct (ilog10_spec a Ha) as [Hlo Hhi].
  pose proof (two_pow_pos s) as HP.
  set (P := 2 ^ Z.of_nat s) in *. set (j := ilog10 a) in *.
  pose proof (Z.div_mod j P ltac:(lia)) as Hdm.
  pose proof (Z.mod_pos_bound j P HP) as Hr.
  split.
  - eapply Qle_trans; [apply p10_le | exact Hlo]. nia.
  - eapply Qlt_le_trans; [exact Hhi | apply p10_le]. nia.
Qed.

Lemma lfloor_unique s a f :
  (10 ^ (f * 2 ^ Z.of_nat s) <= a)%Q ->
  (a < 10 ^ ((f + 1) * 2 ^ Z.of_nat s))%Q ->
  lfloor (LogN s a) = f.
Proof.
  intros Hlo Hhi.
  assert (Ha : (0 < a)%Q) by (eapply Qlt_le_trans; [apply p10_pos | exact Hlo]).
  destruct (ilog10_spec a Ha) as [Jlo Jhi].
  unfold lfloor. cbn [lanti lscale].
  pose proof (two_pow_pos s) as HP.
  set (P := 2 ^ Z.of_nat s) in *. set (j := ilog10 a) in *.
  assert (H1 : f * P < j + 1).
  { apply p10_lt_inv. eapply Qle_lt_trans; eassumption. }
  assert (H2 : j < (f + 1) * P).
  { apply p10_lt_inv. eapply Qle_lt_trans; eassumption. }
  symmetry. apply (Z.div_unique j P f (j - f * P)); lia.
Qed.

(** ** Rounding a table entry at its own precision changes nothing *)

Lemma Qlt_bool_iff a b : Qlt_bool a b = true <-> (a < b)%Q.
Proof.
  unfold Qlt_bool. rewrite negb_true_iff. split.
  - intros H. apply Qnot_le_lt. intros Hle.
    apply Qle_bool_iff in Hle. congruence.
  - intros H. destruct (Qle_bool b a) eqn:E; [|reflexivity].
    apply Qle_bool_iff in E. exfalso. eapply Qlt_not_le; eassumption.
Qed.

Lemma Qle_bool_false a b : Qle_bool a b = false -> (b < a)%Q.
Proof.
  intros H. destruct (Qlt_le_dec b a) as [Hlt|Hle]; [exact Hlt|].
  apply Qle_bool_iff in Hle. congruence.
Qed.

Lemma p10_sq k : (10 ^ (k * 2) == 10 ^ k * 10 ^ k)%Q.
Proof. replace (k * 2) with (k + k) by lia. apply p10_add. Qed.

Lemma entry_bounds sd t e :
  0 <= sd -> 10 ^ sd <= t < 10 ^ (sd + 1) ->
  (10 ^ (sd + e) <= inject_Z t * 10 ^ e)%Q
  /\ (inject_Z t * 10 ^ e < 10 ^ (sd + e + 1))%Q.
Proof.
  intros Hsd [Hlo Hhi].
  pose proof (p10_pos e) as He.
  assert (H1 : (10 ^ (sd + e) == inject_Z (10 ^ sd) * 10 ^ e)%Q).
  { rewrite p10_add, p10_inject by lia. reflexivity. }
  assert (H2 : (10 ^ (sd + e + 1) == inject_Z (10 ^ (sd + 1)) * 10 ^ e)%Q).
  { replace (sd + e + 1) with ((sd + 1) + e) by lia.
    rewrite (p10_add (sd + 1) e), p10_inject by lia. reflexivity. }
  rewrite H1, H2.
  split.
  - apply Qmult_le_compat_r; [|apply Qlt_le_weak; exact He].
    rewrite <- Zle_Qle. exact Hlo.
  - apply Qmult_lt_compat_r; [exact He|].
    rewrite <- Zlt_Qlt. exact Hhi.
Qed.

Lemma pyround_of_int x ndigits z :
  (x * 10 ^ ndigits == inject_Z z)%Q ->
  (pyround x ndigits == inject_Z z / 10 ^ ndigits)%Q.
Proof.
  intros H. unfold pyround. cbv zeta.
  assert (Hf : Qfloor (x * 10 ^ ndigits) = z) by (rewrite H; apply Qfloor_Z).
  rewrite Hf.
  assert (Hr : Qlt_bool (x * 10 ^ ndigits - inject_Z z) (1 # 2) = true).
  { apply Qlt_bool_iff. lra. }
  rewrite Hr. apply Qred_correct.
Qed.

Lemma round_sig_exact sd t e :
  0 <= sd -> 10 ^ sd <= t < 10 ^ (sd + 1) ->
  (_round_sig (inject_Z t * pow10 e) (sd + 1) == inject_Z t * 10 ^ e)%Q.
Proof.
  intros Hsd Ht. unfold pow10.
  destruct (entry_bounds sd t e Hsd Ht) as [Hlo Hhi].
  set (x := (inject_Z t * 10 ^ e)%Q) in *.
  pose proof (p10_pos (sd + e)) as Hp.
  assert (Hx : (0 < x)%Q) by (eapply Qlt_le_trans; eassumption).
  unfold _round_sig.
  destruct (Qeq_bool x 0) eqn:E0.
  { apply Qeq_bool_eq in E0. rewrite E0 in Hx. discriminate. }
  assert (Habs : (Qabs x == x)%Q) by (apply Qabs_pos; lra).
  assert (Hfl : lfloor (log10 (of_Q (Qabs x))) = sd + e).
  { unfold of_Q, log10. apply lfloor_unique.
    - change (2 ^ Z.of_nat 1) with 2. rewrite p10_sq.
      rewrite !Habs. 
      apply Qmult_le_compat_nonneg; split; lra.
    - change (2 ^ Z.of_nat 1) with 2. rewrite p10_sq.
      rewrite !Habs.
      pose proof (p10_pos (sd + e + 1)).
      apply Qle_lt_trans with (x * 10 ^ (sd + e + 1))%Q.
      + apply Qmult_le_l; lra.
      + apply Qmult_lt_compat_r; lra. }
  rewrite Hfl. replace (sd + 1 - (sd + e) - 1) with (- e) by lia.
  assert (Hy : (x * 10 ^ (- e) == inject_Z t)%Q).
  { unfold x. rewrite <- Qmult_assoc, <- p10_add.
    replace (e + - e) with 0 by lia. change (10 ^ 0)%Q with 1%Q. ring. }
  rewrite (pyround_of_int x (- e) t Hy).
  unfold x. rewrite Qpower_opp. field.
  pose proof (p10_pos e). lra.
Qed.

(** ** Facts about the stored tables *)

Lemma table_facts_ok series_key : table_facts series_key = true.
Proof. destruct series_key; vm_compute; reflexivity. Qed.

Lemma series_decade_nonneg series_key : 0 <= series_decade series_key.
Proof. destruct series_key; simpl; lia. Qed.

Lemma series_length series_key :
  Z.of_nat (length (series series_key)) = ESeries_value series_key.
Proof.
  pose proof (table_facts_ok series_key) as H. unfold table_facts in H.
  repeat (apply andb_prop in H; destruct H as [H ?]).
  apply Z.eqb_eq. exact H.
Qed.

Lemma series_bounds series_key t :
  In t (series series_key) ->
  10 ^ series_decade series_key <= t < 10 ^ (series_decade series_key + 1).
Proof.
  intros Hin.
  pose proof (table_facts_ok series_key) as H. unfold table_facts in H.
  repeat (apply andb_prop in H; destruct H as [H ?]).
  match goal with
  | Hb : forallb _ _ = true |- _ =>
      rewrite forallb_forall in Hb; specialize (Hb t Hin);
      apply andb_prop in Hb; destruct Hb as [Hlo Hhi]
  end.
  apply Z.leb_le in Hlo. apply Z.ltb_lt in Hhi. lia.
Qed.

Lemma increasing_sorted l : increasing l = true -> StronglySorted Z.lt l.
Proof.
  intros H. apply Sorted_StronglySorted; [intros a b c; lia|].
  induction l as [|a [|b l'] IH]; auto.
  cbn [increasing] in H. apply andb_prop in H. destruct H as [Hab H].
  constructor; [apply IH; exact H|].
  constructor. apply Z.ltb_lt. exact Hab.
Qed.

Lemma series_sorted series_key : StronglySorted Z.lt (series series_key).
Proof.
  pose proof (table_facts_ok series_key) as H. unfold table_facts in H.
  repeat (apply andb_prop in H; destruct H as [H ?]).
  apply increasing_sorted. assumption.
Qed.

Lemma sorted_nth_lt l : StronglySorted Z.lt l ->
  forall i j, (i < j < length l)%nat -> nth i l 0 < nth j l 0.
Proof.
  induction 1 as [|a l Hs IH Hall]; intros i j Hij; [simpl in Hij; lia|].
  destruct j as [|j]; [lia|]. destruct i as [|i]; cbn [nth].
  - rewrite Forall_forall in Hall. apply Hall. apply nth_In.
    simpl in Hij. lia.
  - apply IH. simpl in Hij. lia.
Qed.

Lemma series_first series_key :
  nth 0 (series series_key) 0 = 10 ^ series_decade series_key.
Proof.
  pose proof (table_facts_ok series_key) as H. unfold table_facts in H.
  repeat (apply andb_prop in H; destruct H as [H ?]).
  apply Z.eqb_eq. assumption.
Qed.

Lemma try_integral_first series_key :
  _try_integral (log10 (of_Z (nth 0 (series series_key) 0)))
  = Ok (series_decade series_key).
Proof. destruct series_key; vm_compute; reflexivity. Qed.

Lemma mantissa_length series_key :
  length (LOG10_MANTISSA_E series_key) = length (series series_key).
Proof. unfold LOG10_MANTISSA_E. apply length_map. Qed.

(** ** The shape of the mantissa table *)

Lemma lfloor_log10_of_Q x j :
  (10 ^ j <= x)%Q -> (x < 10 ^ (j + 1))%Q -> lfloor (log10 (of_Q x)) = j.
Proof.
  intros Hlo Hhi.
  pose proof (p10_pos j) as Hp. pose proof (p10_pos (j + 1)) as Hp'.
  assert (Habs : (Qabs x == x)%Q) by (apply Qabs_pos; lra).
  unfold of_Q, log10. apply lfloor_unique.
  - change (2 ^ Z.of_nat 1) with 2. rewrite p10_sq, Habs.
    apply Qmult_le_compat_nonneg; split; lra.
  - change (2 ^ Z.of_nat 1) with 2. rewrite p10_sq, Habs.
    apply Qle_lt_trans with (x * 10 ^ (j + 1))%Q.
    + apply Qmult_le_l; lra.
    + apply Qmult_lt_compat_r; lra.
Qed.

Lemma Z_bounds_Q sd t :
  0 <= sd -> 10 ^ sd <= t < 10 ^ (sd + 1) ->
  (10 ^ sd <= inject_Z t)%Q /\ (inject_Z t < 10 ^ (sd + 1))%Q.
Proof.
  intros Hsd Ht. destruct (entry_bounds sd t 0 Hsd Ht) as [H1 H2].
  replace (sd + 0) with sd in * by lia.
  change (10 ^ 0)%Q with 1%Q in *. rewrite Qmult_1_r in H1, H2. split; assumption.
Qed.

(** The mantissa of a table entry [t] is the logarithm [log10 (t / 10^sd)],
    kept as half the logarithm of the square. *)
Lemma entry_log sd t :
  0 <= sd -> 10 ^ sd <= t < 10 ^ (sd + 1) ->
  lmod1 (log10 (of_Z t))
  = LogN 1 ((inject_Z t * Qabs (inject_Z t)) ^ 1 / (10 ^ sd) ^ 2)%Q.
Proof.
  intros Hsd Ht. destruct (Z_bounds_Q sd t Hsd Ht) as [Hlo Hhi].
  unfold lmod1, of_Z. rewrite (lfloor_log10_of_Q _ sd Hlo Hhi).
  reflexivity.
Qed.

Lemma entry_anti sd t :
  0 <= sd -> 10 ^ sd <= t < 10 ^ (sd + 1) ->
  ((inject_Z t * Qabs (inject_Z t)) ^ 1 / (10 ^ sd) ^ 2
   == (inject_Z t / 10 ^ sd) ^ 2)%Q.
Proof.
  intros Hsd Ht. destruct (Z_bounds_Q sd t Hsd Ht) as [Hlo Hhi].
  pose proof (p10_pos sd) as Hp.
  assert (Habs : (Qabs (inject_Z t) == inject_Z t)%Q) by (apply Qabs_pos; lra).
  rewrite Habs. simpl Qpower. field. lra.
Qed.

Lemma mantissa_nth series_key i :
  (i < length (series series_key))%nat ->
  nth i (LOG10_MANTISSA_E series_key) (lint 0)
  = LogN 1 ((inject_Z (nth i (series series_key) 0%Z)
             * Qabs (inject_Z (nth i (series series_key) 0%Z))) ^ 1
            / (10 ^ series_decade series_key) ^ 2)%Q.
Proof.
  intros Hi. unfold LOG10_MANTISSA_E.
  rewrite (nth_indep _ (lint 0) (lmod1 (log10 (of_Z 0))))
    by (rewrite length_map; exact Hi).
  rewrite (map_nth (fun x => lmod1 (log10 (of_Z x)))).
  apply entry_log; [apply series_decade_nonneg|].
  apply series_bounds. apply nth_In. exact Hi.
Qed.

Lemma epsilon_facts series_key :
  exists E, epsilon_of series_key = LogN 2 E /\ (1 <= E)%Q.
Proof.
  destruct series_key; eexists;
    (split; [vm_compute; reflexivity | vm_compute; discriminate]).
Qed.

(** ** Unfolding [erange] once its guards pass *)

Lemma guards_pass_inv start stop :
  guards_pass start stop ->
  exists S T, start = Fin S /\ stop = Fin T
              /\ (0 < S)%Q /\ (0 < T)%Q /\ (S <= T)%Q.
Proof.
  intros (H1 & H2 & H3 & H4 & H5 & _).
  destruct start as [S| | |]; try discriminate.
  destruct stop as [T| | |]; try discriminate.
  exists S, T. cbn [nlt nle _MINIMUM_E_VALUE of_Q] in *.
  assert (Hm : (0 < 10 ^ (-200) * Qabs (10 ^ (-200)))%Q) by reflexivity.
  set (m := (10 ^ (-200) * Qabs (10 ^ (-200)))%Q) in *.
  apply Qle_bool_iff in H5.
  assert (~ (S < m)%Q) by (rewrite <- Qlt_bool_iff; congruence).
  assert (~ (T < m)%Q) by (rewrite <- Qlt_bool_iff; congruence).
  repeat split; try reflexivity; try assumption; lra.
Qed.

Lemma erange_unfold series_key start stop :
  guards_pass start stop ->
  erange series_key start stop
  = if Nat.eqb (snd (stop_position series_key stop)) O
    then Raise AssertionError
    else erange_loop (series series_key) (LOG10_MANTISSA_E series_key)
           (series_decade series_key) start stop
           (fst (start_position series_key start))
           (snd (start_position series_key start))
           (fst (stop_position series_key stop))
           (snd (stop_position series_key stop)).
Proof.
  intros (H1 & H2 & H3 & H4 & H5 & H6 & H7).
  unfold erange. rewrite H6, H7, H1, H2, H3, H4, H5. cbn [negb].
  unfold _decade_mantissa, start_position, stop_position, epsilon_of.
  cbv beta iota zeta.
  destruct (Nat.eqb (bisect_left _ _) _); cbn [fst snd];
    (destruct (Nat.eqb (bisect_right _ _) _); [reflexivity|]);
    rewrite try_integral_first; reflexivity.
Qed.

(** Whenever [erange] returns, its guards have passed. *)
Lemma erange_Ok_guards series_key start stop l :
  erange series_key start stop = Ok l -> guards_pass start stop.
Proof.
  unfold erange, guards_pass.
  destruct (too_large start); [discriminate|].
  destruct (isfinite start); cbn [negb]; [|discriminate].
  destruct (too_large stop); [discriminate|].
  destruct (isfinite stop); cbn [negb]; [|discriminate].
  destruct (nlt start _MINIMUM_E_VALUE); [discriminate|].
  destruct (nlt stop _MINIMUM_E_VALUE); [discriminate|].
  destruct (nle start stop); cbn [negb]; [|discriminate].
  intros _. repeat split; reflexivity.
Qed.

Lemma valid_range_guards series_key start stop :
  valid_range series_key start stop -> guards_pass start stop.
Proof. intros [l Hl]. apply (erange_Ok_guards _ _ _ _ Hl). Qed.

Lemma valid_range_inv {series_key} start stop :
  valid_range series_key start stop ->
  exists S T, start = Fin S /\ stop = Fin T
              /\ (0 < S)%Q /\ (0 < T)%Q /\ (S <= T)%Q.
Proof. intros Hv. apply guards_pass_inv, (valid_range_guards _ _ _ Hv). Qed.

(** ** The loop, with and without overflow *)

Lemma for_each_values {A B : Type} (body : A -> result (list B))
    (g : A -> list B) (l : list A) :
  (forall a, In a l -> body a = Ok (g a)) ->
  for_each body l = Ok (flat_map g l).
Proof.
  induction l as [|a l IH]; intros H; cbn [for_each flat_map]; [reflexivity|].
  rewrite (H a (or_introl eq_refl)). cbn [bind].
  rewrite IH by (intros b Hb; apply H; right; exact Hb). reflexivity.
Qed.

Lemma for_each_Ok {A B : Type} (body : A -> result (list B))
    (g : A -> list B) (l : list A) r :
  (forall a y, In a l -> body a = Ok y -> y = g a) ->
  for_each body l = Ok r -> r = flat_map g l.
Proof.
  revert r. induction l as [|a l IH]; intros r H; cbn [for_each flat_map].
  - intros E. injection E as <-. reflexivity.
  - destruct (body a) as [y|e] eqn:Ea; cbn [bind]; [|discriminate].
    destruct (for_each body l) as [rest|e] eqn:El; cbn [bind]; [|discriminate].
    intros E. injection E as <-.
    rewrite (H a y (or_introl eq_refl) Ea). f_equal.
    apply IH; [|reflexivity]. intros b z Hb. apply H. right. exact Hb.
Qed.

Lemma erange_item_Ok sv sd start stop decade index y :
  erange_item sv sd start stop decade index = Ok y ->
  y = item_values sv sd start stop decade index.
Proof.
  unfold erange_item, item_values. cbv zeta.
  destruct (overflows _); [discriminate|]. intros E. injection E as <-.
  reflexivity.
Qed.

Lemma erange_item_values sv sd start stop decade index :
  overflows (inject_Z (nth index sv 0) * pow10 (decade - sd)) = false ->
  erange_item sv sd start stop decade index
  = Ok (item_values sv sd start stop decade index).
Proof.
  intros H. unfold erange_item, item_values. cbv zeta. rewrite H. reflexivity.
Qed.

Lemma erange_loop_Ok sv sl sd start stop d0 i0 d1 i1 l :
  erange_loop sv sl sd start stop d0 i0 d1 i1 = Ok l ->
  l = loop_values sv sl sd start stop d0 i0 d1 i1.
Proof.
  unfold erange_loop, loop_values. apply for_each_Ok.
  intros decade y _. cbv zeta. apply for_each_Ok.
  intros index z _. apply erange_item_Ok.
Qed.

Lemma erange_loop_values sv sl sd start stop d0 i0 d1 i1 :
  (forall decade index, decade <= d1 ->
     overflows (inject_Z (nth index sv 0) * pow10 (decade - sd)) = false) ->
  erange_loop sv sl sd start stop d0 i0 d1 i1
  = Ok (loop_values sv sl sd start stop d0 i0 d1 i1).
Proof.
  intros H. unfold erange_loop, loop_values. apply for_each_values.
  intros decade Hd. cbv zeta. apply for_each_values.
  intros index _. apply erange_item_values, H.
  unfold zrange in Hd. apply in_map_iff in Hd.
  destruct Hd as (k & <- & Hk). apply in_seq in Hk. lia.
Qed.

(** The mantissa tables are increasing, as bisection requires. *)
Lemma mantissa_table_increasing series_key i j :
  (i < j < length (series series_key))%nat ->
  llt (nth i (LOG10_MANTISSA_E series_key) (lint 0))
      (nth j (LOG10_MANTISSA_E series_key) (lint 0)) = true.
Proof.
  intros Hij.
  rewrite (mantissa_nth series_key i), (mantissa_nth series_key j) by lia.
  change (llt (LogN 1 ?a) (LogN 1 ?b)) with (Qlt_bool (a ^ 1) (b ^ 1)).
  apply Qlt_bool_iff.
  pose proof (series_decade_nonneg series_key) as Hsd.
  rewrite !entry_anti by (try exact Hsd; apply series_bounds, nth_In; lia).
  set (sd := series_decade series_key) in *.
  pose proof (p10_pos sd) as Hp.
  assert (Hlt : nth i (series series_key) 0 < nth j (series series_key) 0)
    by (apply sorted_nth_lt; [apply series_sorted | lia]).
  destruct (Z_bounds_Q sd (nth i (series series_key) 0) Hsd) as [Hlo _];
    [apply series_bounds, nth_In; lia|].
  rewrite Zlt_Qlt in Hlt.
  set (a := inject_Z (nth i (series series_key) 0)) in *.
  set (b := inject_Z (nth j (series series_key) 0)) in *.
  assert (H1 : (0 < a / 10 ^ sd)%Q) by (apply Qlt_shift_div_l; lra).
  assert (H2 : (a / 10 ^ sd < b / 10 ^ sd)%Q).
  { unfold Qdiv. apply Qmult_lt_compat_r; [|exact Hlt].
    apply Qinv_lt_0_compat, Hp. }
  simpl Qpower. nra.
Qed.

(** ** The stop index is never zero *)

Lemma bisect_mid lo hi : (lo < hi)%nat -> (lo <= (lo + hi) / 2 < hi)%nat.
Proof.
  intros H. pose proof (Nat.div_mod_eq (lo + hi) 2) as E.
  pose proof (Nat.mod_upper_bound (lo + hi) 2 ltac:(lia)) as B. lia.
Qed.

Lemma bisect_loop_range fuel test :
  forall lo hi, (lo <= hi)%nat ->
  (lo <= bisect_loop fuel test lo hi <= hi)%nat.
Proof.
  induction fuel as [|fuel IH]; intros lo hi Hle; cbn [bisect_loop]; [lia|].
  destruct (Nat.ltb_spec lo hi) as [Hlt|Hge]; [|lia].
  pose proof (bisect_mid lo hi Hlt) as Hmid. cbv zeta.
  destruct (test ((lo + hi) / 2)%nat).
  - specialize (IH ((lo + hi) / 2 + 1)%nat hi ltac:(lia)). lia.
  - specialize (IH lo ((lo + hi) / 2)%nat ltac:(lia)). lia.
Qed.

(** The loop invariant of the bisection: the comparison holds left of [lo]
    and fails from [hi] on; at the end both meet in the result. *)
Lemma bisect_loop_spec fuel test n :
  monotone_test test n ->
  forall lo hi, (hi - lo <= fuel)%nat -> (lo <= hi <= n)%nat ->
  (forall j, (j < lo)%nat -> test j = true) ->
  (forall j, (hi <= j < n)%nat -> test j = false) ->
  (forall j, (j < bisect_loop fuel test lo hi)%nat -> test j = true)
  /\ (forall j, (bisect_loop fuel test lo hi <= j < n)%nat -> test j = false).
Proof.
  intros Hmono. induction fuel as [|fuel IH]; intros lo hi Hfuel Hle Hlo Hhi;
    cbn [bisect_loop].
  - split; [exact Hlo|]. intros j Hj. apply Hhi. lia.
  - destruct (Nat.ltb_spec lo hi) as [Hlt|Hge].
    + pose proof (bisect_mid lo hi Hlt) as Hmid. cbv zeta.
      destruct (test ((lo + hi) / 2)%nat) eqn:E.
      * apply IH; [lia | lia | | exact Hhi].
        intros j Hj. apply (Hmono j ((lo + hi) / 2)%nat); [lia | lia | exact E].
      * apply IH; [lia | lia | exact Hlo |].
        intros j Hj. destruct (test j) eqn:Ej; [|reflexivity].
        rewrite (Hmono ((lo + hi) / 2)%nat j) in E; [discriminate|lia|lia|exact Ej].
    + split; [exact Hlo|]. intros j Hj. apply Hhi. lia.
Qed.

Lemma bisect_left_le a x : (bisect_left a x <= length a)%nat.
Proof. apply bisect_loop_range. lia. Qed.

Lemma bisect_right_le a x : (bisect_right a x <= length a)%nat.
Proof. apply bisect_loop_range. lia. Qed.

(** In a list whose comparisons with [x] are monotone, [bisect_left] returns
    the number of entries below [x]. *)
Lemma bisect_left_spec a x :
  monotone_test (fun mid => llt (nth mid a (lint 0)) x) (length a) ->
  (forall j, (j < bisect_left a x)%nat -> llt (nth j a (lint 0)) x = true)
  /\ (forall j, (bisect_left a x <= j < length a)%nat ->
                llt (nth j a (lint 0)) x = false).
Proof.
  intros Hmono. unfold bisect_left.
  apply (bisect_loop_spec _ _ _ Hmono); [lia | lia | intros; lia | intros; lia].
Qed.

(** ... and [bisect_right] the number of entries not above [x]. *)
Lemma bisect_right_spec a x :
  monotone_test (fun mid => negb (llt x (nth mid a (lint 0)))) (length a) ->
  (forall j, (j < bisect_right a x)%nat -> llt x (nth j a (lint 0)) = false)
  /\ (forall j, (bisect_right a x <= j < length a)%nat ->
                llt x (nth j a (lint 0)) = true).
Proof.
  intros Hmono. unfold bisect_right.
  destruct (bisect_loop_spec (length a) _ _ Hmono O (length a))
    as [Ht Hf]; [lia | lia | intros; lia | intros; lia |].
  split; intros j Hj.
  - apply Ht in Hj. destruct (llt x _); [discriminate | reflexivity].
  - apply Hf in Hj. destruct (llt x _); [reflexivity | discriminate].
Qed.

Lemma mant_bounds series_key i :
  (i < length (series series_key))%nat ->
  (1 <= mant series_key i)%Q /\ (mant series_key i < 100)%Q.
Proof.
  intros Hi. unfold mant, entry.
  pose proof (series_decade_nonneg series_key) as Hsd.
  set (sd := series_decade series_key) in *.
  destruct (Z_bounds_Q sd (nth i (series series_key) 0) Hsd) as [Hlo Hhi];
    [apply series_bounds, nth_In, Hi|].
  pose proof (p10_pos sd) as Hp. rewrite p10_succ in Hhi.
  set (t := inject_Z (nth i (series series_key) 0)) in *.
  assert (H1 : (1 <= t / 10 ^ sd)%Q) by (apply Qle_shift_div_l; lra).
  assert (H2 : (t / 10 ^ sd < 10)%Q) by (apply Qlt_shift_div_r; lra).
  simpl Qpower. split; nra.
Qed.

Lemma mant_mono series_key i j :
  (i <= j < length (series series_key))%nat ->
  (mant series_key i <= mant series_key j)%Q.
Proof.
  intros Hij. unfold mant, entry.
  pose proof (series_decade_nonneg series_key) as Hsd.
  set (sd := series_decade series_key) in *.
  pose proof (p10_pos sd) as Hp.
  assert (Hle : nth i (series series_key) 0 <= nth j (series series_key) 0).
  { destruct (Nat.eq_dec i j) as [->|Hne]; [lia|].
    apply Z.lt_le_incl, sorted_nth_lt; [apply series_sorted | lia]. }
  destruct (Z_bounds_Q sd (nth i (series series_key) 0) Hsd) as [Hlo _];
    [apply series_bounds, nth_In; lia|].
  rewrite Zle_Qle in Hle.
  set (a := inject_Z (nth i (series series_key) 0)) in *.
  set (b := inject_Z (nth j (series series_key) 0)) in *.
  assert (H1 : (0 < a / 10 ^ sd)%Q) by (apply Qlt_shift_div_l; lra).
  assert (H2 : (a / 10 ^ sd <= b / 10 ^ sd)%Q).
  { unfold Qdiv. apply Qmult_le_compat_r; [exact Hle|].
    apply Qlt_le_weak, Qinv_lt_0_compat, Hp. }
  simpl Qpower. nra.
Qed.

(** The square of a standard value: its mantissa square times [100 ^ d]. *)
Lemma std_value_sq series_key d i :
  (std_value series_key d i * std_value series_key d i
   == mant series_key i * 10 ^ (d * 2))%Q.
Proof.
  unfold std_value, mant.
  pose proof (p10_pos (series_decade series_key)) as Hp.
  replace (d * 2) with (d + d) by lia.
  replace d with ((d - series_decade series_key) + series_decade series_key)
    at 3 4 by lia.
  rewrite !p10_add. simpl Qpower. field. lra.
Qed.

Lemma mantissa_nth_mant series_key i :
  (i < length (series series_key))%nat ->
  exists m, nth i (LOG10_MANTISSA_E series_key) (lint 0) = LogN 1 m
            /\ (m == mant series_key i)%Q.
Proof.
  intros Hi. eexists. split; [apply mantissa_nth; exact Hi|].
  unfold mant, entry. apply entry_anti; [apply series_decade_nonneg|].
  apply series_bounds, nth_In, Hi.
Qed.

Lemma llt_1_2 m M : llt (LogN 1 m) (LogN 2 M) = Qlt_bool (m ^ 2) (M ^ 1).
Proof. reflexivity. Qed.

Lemma llt_2_1 M m : llt (LogN 2 M) (LogN 1 m) = Qlt_bool (M ^ 1) (m ^ 2).
Proof. reflexivity. Qed.

(** The comparisons [erange] makes with a mantissa table are monotone. *)
Lemma mantissa_left_monotone series_key M :
  monotone_test
    (fun mid => llt (nth mid (LOG10_MANTISSA_E series_key) (lint 0)) (LogN 2 M))
    (length (LOG10_MANTISSA_E series_key)).
Proof.
  intros i j Hij Hj. rewrite mantissa_length in Hj.
  destruct (mantissa_nth_mant series_key i ltac:(lia)) as (mi & -> & Hmi).
  destruct (mantissa_nth_mant series_key j ltac:(lia)) as (mj & -> & Hmj).
  rewrite !llt_1_2. intros H. apply Qlt_bool_iff in H. apply Qlt_bool_iff.
  simpl Qpower in *. rewrite Hmi. rewrite Hmj in H.
  pose proof (mant_mono series_key i j ltac:(lia)) as Hmono.
  destruct (mant_bounds series_key i ltac:(lia)) as [H1 _].
  nra.
Qed.

Lemma mantissa_right_monotone series_key M :
  monotone_test
    (fun mid =>
       negb (llt (LogN 2 M) (nth mid (LOG10_MANTISSA_E series_key) (lint 0))))
    (length (LOG10_MANTISSA_E series_key)).
Proof.
  intros i j Hij Hj. rewrite mantissa_length in Hj.
  destruct (mantissa_nth_mant series_key i ltac:(lia)) as (mi & -> & Hmi).
  destruct (mantissa_nth_mant series_key j ltac:(lia)) as (mj & -> & Hmj).
  rewrite !llt_2_1. intros H.
  destruct (Qlt_bool (M ^ 1) (mi ^ 2)) eqn:E; [|reflexivity].
  apply Qlt_bool_iff in E.
  destruct (Qlt_bool (M ^ 1) (mj ^ 2)) eqn:F; [discriminate|].
  exfalso. assert (Hlt : (M ^ 1 < mj ^ 2)%Q).
  { simpl Qpower in *. rewrite Hmi in E. rewrite Hmj.
    pose proof (mant_mono series_key i j ltac:(lia)) as Hmono.
    destruct (mant_bounds series_key i ltac:(lia)) as [H1 _].
    nra. }
  apply Qlt_bool_iff in Hlt. congruence.
Qed.

Lemma p10_pow4 f : ((10 ^ f) ^ 4 == 10 ^ (f * 4))%Q.
Proof. symmetry. apply Qpower_mult. Qed.

Lemma series_nonempty series_key : (3 <= length (series series_key))%nat.
Proof.
  pose proof (series_length series_key) as H.
  destruct series_key; simpl in H |- *; lia.
Qed.

(** The mantissa of [log10(stop) + epsilon], as an antilogarithm. *)
Lemma stop_mantissa_shape series_key T :
  (0 < T)%Q ->
  exists M, lmod1 (ladd (log10 (Fin T)) (epsilon_of series_key)) = LogN 2 M
            /\ (1 <= M)%Q.
Proof.
  intros HT. destruct (epsilon_facts series_key) as (E & -> & HE).
  assert (Hadd : ladd (log10 (Fin T)) (LogN 2 E) = LogN 2 (T ^ 2 * E ^ 1)%Q)
    by reflexivity.
  rewrite Hadd. set (A := (T ^ 2 * E ^ 1)%Q).
  assert (HA : (0 < A)%Q).
  { unfold A. simpl Qpower. nra. }
  destruct (lfloor_spec 2 A HA) as [Hlo _].
  set (f := lfloor (LogN 2 A)) in *.
  exists (A ^ 1 / (10 ^ f) ^ 4)%Q. split; [reflexivity|].
  change (2 ^ Z.of_nat 2) with 4 in Hlo.
  rewrite p10_pow4. pose proof (p10_pos (f * 4)) as Hp.
  apply Qle_shift_div_l; [exact Hp|]. simpl (A ^ 1)%Q. lra.
Qed.

Lemma first_mantissa series_key :
  exists m, nth 0 (LOG10_MANTISSA_E series_key) (lint 0) = LogN 1 m
            /\ (m == 1)%Q.
Proof.
  pose proof (series_nonempty series_key) as Hlen.
  eexists. split; [apply mantissa_nth; lia|].
  rewrite entry_anti.
  - rewrite series_first, p10_inject by apply series_decade_nonneg.
    pose proof (p10_pos (series_decade series_key)).
    simpl Qpower. field. lra.
  - apply series_decade_nonneg.
  - apply series_bounds. apply nth_In. lia.
Qed.

Lemma stop_index_nonzero series_key T :
  (0 < T)%Q -> snd (stop_position series_key (Fin T)) <> O.
Proof.
  intros HT. unfold stop_position. cbn [snd].
  destruct (stop_mantissa_shape series_key T HT) as (M & -> & HM).
  destruct (first_mantissa series_key) as (m & Hm & Hm1).
  destruct (bisect_right_spec _ _ (mantissa_right_monotone series_key M))
    as [_ Hf].
  pose proof (series_nonempty series_key) as Hlen.
  rewrite <- mantissa_length in Hlen.
  intros H0. specialize (Hf O). rewrite H0 in Hf.
  specialize (Hf ltac:(lia)). rewrite Hm, llt_2_1 in Hf.
  apply Qlt_bool_iff in Hf. simpl Qpower in Hf. rewrite Hm1 in Hf. lra.
Qed.

(** With valid bounds [erange] raises nothing. *)
Lemma for_each_raise {A B : Type} (body : A -> result (list B))
    (l : list A) e :
  for_each body l = Raise e -> exists a, In a l /\ body a = Raise e.
Proof.
  induction l as [|a l IH]; cbn [for_each]; [discriminate|].
  destruct (body a) as [y|e'] eqn:Ea; cbn [bind].
  - destruct (for_each body l) as [rest|e'] eqn:El; cbn [bind]; [discriminate|].
    intros E. injection E as ->. destruct (IH eq_refl) as (b & Hb & Eb).
    exists b. split; [right; exact Hb | exact Eb].
  - intros E. injection E as ->. exists a. split; [left; reflexivity | exact Ea].
Qed.

(** The only exception the loop raises is [OverflowError]. *)
Lemma erange_loop_raise sv sl sd start stop d0 i0 d1 i1 e :
  erange_loop sv sl sd start stop d0 i0 d1 i1 = Raise e -> e = OverflowError.
Proof.
  unfold erange_loop. intros E.
  apply for_each_raise in E. destruct E as (decade & _ & E). cbv zeta in E.
  apply for_each_raise in E. destruct E as (index & _ & E).
  unfold erange_item in E. cbv zeta in E.
  destruct (overflows _); [|discriminate]. injection E as <-. reflexivity.
Qed.

Lemma erange_valid series_key start stop :
  valid_range series_key start stop ->
  erange series_key start stop
  = Ok (loop_values (series series_key) (LOG10_MANTISSA_E series_key)
          (series_decade series_key) start stop
          (fst (start_position series_key start))
          (snd (start_position series_key start))
          (fst (stop_position series_key stop))
          (snd (stop_position series_key stop))).
Proof.
  intros [l Hl]. rewrite Hl. f_equal.
  rewrite (erange_unfold _ _ _ (erange_Ok_guards _ _ _ _ Hl)) in Hl.
  destruct (Nat.eqb (snd (stop_position series_key stop)) O);
    [discriminate|].
  apply erange_loop_Ok, Hl.
Qed.

(** ** No overflow below [1e306] *)

Lemma epsilon_below_1 series_key :
  exists E, epsilon_of series_key = LogN 2 E /\ (1 <= E)%Q /\ (E < 10 ^ 4)%Q.
Proof.
  destruct series_key; eexists;
    (split; [vm_compute; reflexivity|]);
    (split; [vm_compute; discriminate | vm_compute; reflexivity]).
Qed.

(** A stop value of at most [1e306] ends the enumeration in decade 306. *)
Lemma stop_decade_below series_key T :
  (0 < T)%Q -> (T <= 10 ^ 612)%Q ->
  fst (stop_position series_key (Fin T)) <= 306.
Proof.
  intros HT Hle. unfold stop_position. cbn [fst].
  destruct (epsilon_below_1 series_key) as (E & HE & HE1 & HE4).
  fold (epsilon_of series_key). rewrite HE.
  change (ladd (log10 (Fin T)) (LogN 2 E)) with (LogN 2 (T ^ 2 * E ^ 1)).
  set (B := (T ^ 2 * E ^ 1)%Q).
  assert (HB : (0 < B)%Q) by (unfold B; simpl Qpower; nra).
  destruct (lfloor_spec 2 B HB) as [Hlo _].
  change (2 ^ Z.of_nat 2) with 4 in Hlo.
  set (g := lfloor (LogN 2 B)) in *.
  assert (HBhi : (B < 10 ^ 1228)%Q).
  { assert (H2 : (10 ^ 612 * 10 ^ 612 * 10 ^ 4 == 10 ^ 1228)%Q)
      by (rewrite <- !p10_add; reflexivity).
    pose proof (p10_pos 612) as Hp. pose proof (p10_pos 4) as Hp4.
    rewrite <- H2. unfold B. simpl (T ^ 2)%Q. simpl (E ^ 1)%Q.
    set (P := (10 ^ 612)%Q) in *. set (F := (10 ^ 4)%Q) in *.
    assert (H1 : (T * T <= P * P)%Q) by nra.
    assert (H3 : (T * T * E <= P * P * E)%Q)
      by (apply Qmult_le_compat_r; lra).
    assert (H5 : (P * P * E < P * P * F)%Q)
      by (apply Qmult_lt_l; [nra | exact HE4]).
    lra. }
  assert (H4 : g * 4 < 1228) by (apply p10_lt_inv; lra).
  lia.
Qed.

(** Up to decade 306 no scaled table entry is too large for binary64. *)
Lemma product_below series_key decade index :
  decade <= 306 ->
  overflows (inject_Z (nth index (series series_key) 0%Z)
             * pow10 (decade - series_decade series_key)) = false.
Proof.
  intros Hd. unfold overflows, pow10.
  pose proof (series_decade_nonneg series_key) as Hsd.
  set (sd := series_decade series_key) in *.
  assert (Hx : (0 <= inject_Z (nth index (series series_key) 0%Z)
                     * 10 ^ (decade - sd)
                < 10 ^ 307)%Q).
  { destruct (Nat.lt_ge_cases index (length (series series_key))) as [Hi|Hi].
    - destruct (entry_bounds sd (nth index (series series_key) 0%Z)
                  (decade - sd) Hsd) as [Hlo Hhi];
        [apply series_bounds, nth_In, Hi|].
      replace (sd + (decade - sd) + 1) with (decade + 1) in Hhi by lia.
      replace (sd + (decade - sd)) with decade in Hlo by lia.
      pose proof (p10_pos decade) as Hp.
      pose proof (p10_le (decade + 1) 307 ltac:(lia)) as Hq.
      split; lra.
    - rewrite nth_overflow by exact Hi.
      pose proof (p10_pos 307) as Hp.
      assert (E : (inject_Z 0 * 10 ^ (decade - sd) == 0)%Q) by ring.
      rewrite E. split; lra. }
  set (x := (inject_Z (nth index (series series_key) 0%Z)
             * 10 ^ (decade - sd))%Q) in *.
  destruct (Qle_bool overflow_threshold (Qabs x)) eqn:E; [|reflexivity].
  apply Qle_bool_iff in E. rewrite Qabs_pos in E by lra.
  assert (Ht : (10 ^ 307 < overflow_threshold)%Q) by (vm_compute; reflexivity).
  lra.
Qed.

Lemma not_too_large_abs sq :
  (Qabs sq <= 10 ^ 612)%Q -> too_large (Fin sq) = false.
Proof.
  intros H1. cbn [too_large].
  destruct (Qle_bool _ _) eqn:E; [|reflexivity].
  apply Qle_bool_iff in E.
  assert (Ht : (10 ^ 612 < overflow_threshold * overflow_threshold)%Q)
    by (vm_compute; reflexivity).
  lra.
Qed.

Lemma not_too_large sq :
  (0 <= sq)%Q -> (sq <= 10 ^ 612)%Q -> too_large (Fin sq) = false.
Proof.
  intros H0 H1. apply not_too_large_abs. rewrite Qabs_pos by exact H0.
  exact H1.
Qed.

Lemma p10_306_sq : (10 ^ 306 * Qabs (10 ^ 306) == 10 ^ 612)%Q.
Proof.
  rewrite Qabs_pos by (apply Qlt_le_weak, p10_pos).
  rewrite <- p10_add. reflexivity.
Qed.

(** The five checks of [erange], for bounds that stop at [1e306] at the
    latest. *)
Lemma guards_pass_intro start stop :
  isfinite start = true -> isfinite stop = true ->
  nlt start _MINIMUM_E_VALUE = false -> nlt stop _MINIMUM_E_VALUE = false ->
  nle start stop = true -> nle stop (of_Q (10 ^ 306)) = true ->
  guards_pass start stop.
Proof.
  intros H1 H2 H3 H4 H5 H6.
  destruct start as [S| | |]; try discriminate.
  destruct stop as [T| | |]; try discriminate.
  pose proof H5 as H5'. pose proof H3 as H3'.
  cbn [nlt nle _MINIMUM_E_VALUE of_Q] in H3', H5', H6.
  apply Qle_bool_iff in H5', H6. rewrite p10_306_sq in H6.
  assert (Hm : (0 < 10 ^ (-200) * Qabs (10 ^ (-200)))%Q) by reflexivity.
  set (m := (10 ^ (-200) * Qabs (10 ^ (-200)))%Q) in *.
  assert (HS : ~ (S < m)%Q).
  { intros Hc. apply Qlt_bool_iff in Hc. rewrite Hc in H3'. discriminate. }
  repeat split; try assumption; apply not_too_large; lra.
Qed.

(** Bounds that pass the guards and stop at [1e306] at the latest are
    valid for every series. *)
Lemma valid_range_below series_key start stop :
  guards_pass start stop -> nle stop (of_Q (10 ^ 306)) = true ->
  valid_range series_key start stop.
Proof.
  intros Hg Hle. unfold valid_range. rewrite (erange_unfold _ _ _ Hg).
  destruct (guards_pass_inv _ _ Hg) as (S & T & -> & -> & HS & HT & HST).
  pose proof (stop_index_nonzero series_key T HT) as Hnz.
  destruct (Nat.eqb_spec (snd (stop_position series_key (Fin T))) O);
    [contradiction|].
  eexists. apply erange_loop_values. intros decade index Hd.
  apply product_below.
  assert (HT612 : (T <= 10 ^ 612)%Q).
  { unfold of_Q in Hle. cbn [nle] in Hle. apply Qle_bool_iff in Hle.
    rewrite p10_306_sq in Hle. exact Hle. }
  pose proof (stop_decade_below series_key T HT HT612). lia.
Qed.

(** ** The enumeration is strictly increasing and stays in range *)

Lemma sorted_app (l1 l2 : list Q) :
  StronglySorted Qlt l1 -> StronglySorted Qlt l2 ->
  (forall x y, In x l1 -> In y l2 -> (x < y)%Q) ->
  StronglySorted Qlt (l1 ++ l2).
Proof.
  induction 1 as [|a l1 Hs IH Hall]; intros H2 Hx; [exact H2|].
  cbn [app]. constructor.
  - apply IH; [exact H2|]. intros x y Hin. apply Hx. right. exact Hin.
  - apply Forall_app. split; [exact Hall|].
    apply Forall_forall. intros y Hy. apply Hx; [left; reflexivity | exact Hy].
Qed.

Lemma flat_map_sorted {I : Type} (lt : I -> I -> Prop) (f : I -> list Q) l :
  StronglySorted lt l ->
  (forall i, In i l -> StronglySorted Qlt (f i)) ->
  (forall i j x y, lt i j -> In i l -> In j l ->
                   In x (f i) -> In y (f j) -> (x < y)%Q) ->
  StronglySorted Qlt (flat_map f l).
Proof.
  induction 1 as [|a l Hs IH Hall]; intros Hf Hx; [constructor|].
  cbn [flat_map]. apply sorted_app.
  - apply Hf. left. reflexivity.
  - apply IH.
    + intros i Hi. apply Hf. right. exact Hi.
    + intros i j x y Hij Hi Hj. apply Hx; [exact Hij | right | right]; assumption.
  - intros x y Hxa Hy. apply in_flat_map in Hy. destruct Hy as (j & Hj & Hy).
    rewrite Forall_forall in Hall.
    apply (Hx a j x y); auto; [left | right]; auto.
Qed.

Lemma seq_sorted n : forall a, StronglySorted lt (seq a n).
Proof.
  induction n as [|n IH]; intros a; cbn [seq]; constructor; [apply IH|].
  apply Forall_forall. intros x Hx. apply in_seq in Hx. lia.
Qed.

Lemma in_zrange a b d : In d (zrange a b) <-> a <= d < b.
Proof.
  unfold zrange. rewrite in_map_iff. split.
  - intros (i & <- & Hi). apply in_seq in Hi. lia.
  - intros Hd. exists (Z.to_nat (d - a)). split; [lia|]. apply in_seq. lia.
Qed.

Lemma zrange_sorted a b : StronglySorted Z.lt (zrange a b).
Proof.
  unfold zrange. generalize (Z.to_nat (b - a)) as n. intros n.
  generalize 0%nat as s. induction n as [|n IH]; intros s; cbn [seq map].
  - constructor.
  - constructor; [apply IH|]. apply Forall_forall. intros x Hx.
    apply in_map_iff in Hx. destruct Hx as (i & <- & Hi).
    apply in_seq in Hi. lia.
Qed.

Lemma in_irange a b i : In i (irange a b) <-> (a <= i < b)%nat.
Proof. unfold irange. rewrite in_seq. lia. Qed.

(** What one step of the inner loop can yield. *)
Lemma item_values_elem series_key start stop decade index x :
  (index < length (series series_key))%nat ->
  In x (item_values (series series_key) (series_decade series_key)
                    start stop decade index) ->
  (x == std_value series_key decade index)%Q /\ in_range start stop x.
Proof.
  intros Hi. unfold item_values. cbv zeta.
  destruct (nle start _ && nle _ stop) eqn:E; [|intros []].
  intros [<-|[]]. apply andb_prop in E. split; [|exact E].
  apply round_sig_exact; [apply series_decade_nonneg|].
  apply series_bounds. apply nth_In. exact Hi.
Qed.

Lemma item_values_sorted sv sd start stop decade index :
  StronglySorted Qlt (item_values sv sd start stop decade index).
Proof.
  unfold item_values. cbv zeta.
  destruct (nle start _ && nle _ stop); repeat constructor.
Qed.

Lemma item_values_in_range sv sd start stop decade index x :
  In x (item_values sv sd start stop decade index) -> in_range start stop x.
Proof.
  unfold item_values. cbv zeta.
  destruct (nle start _ && nle _ stop) eqn:E; [|intros []].
  intros [<-|[]]. apply andb_prop in E. exact E.
Qed.

(** Standard values grow with the table index, then with the decade. *)
Lemma entries_same_decade series_key d i j :
  (i < j < length (series series_key))%nat ->
  (std_value series_key d i < std_value series_key d j)%Q.
Proof.
  intros Hij. unfold std_value, entry.
  apply Qmult_lt_compat_r; [apply p10_pos|].
  rewrite <- Zlt_Qlt. apply sorted_nth_lt; [apply series_sorted | exact Hij].
Qed.

Lemma entries_next_decade series_key d d' i j :
  d < d' ->
  (i < length (series series_key))%nat ->
  (j < length (series series_key))%nat ->
  (std_value series_key d i < std_value series_key d' j)%Q.
Proof.
  intros Hd Hi Hj. unfold std_value, entry.
  pose proof (series_decade_nonneg series_key) as Hsd.
  set (sd := series_decade series_key) in *.
  destruct (entry_bounds sd (nth i (series series_key) 0) (d - sd) Hsd)
    as [_ Hhi]; [apply series_bounds, nth_In, Hi|].
  destruct (entry_bounds sd (nth j (series series_key) 0) (d' - sd) Hsd)
    as [Hlo _]; [apply series_bounds, nth_In, Hj|].
  eapply Qlt_le_trans; [exact Hhi|].
  eapply Qle_trans; [|exact Hlo]. apply p10_le. lia.
Qed.

Lemma loop_values_sorted series_key start stop d0 i0 d1 i1 :
  (i1 <= length (series series_key))%nat ->
  StronglySorted Qlt
    (loop_values (series series_key) (LOG10_MANTISSA_E series_key)
                 (series_decade series_key) start stop d0 i0 d1 i1).
Proof.
  intros Hi1. unfold loop_values. rewrite mantissa_length.
  set (len := length (series series_key)) in *.
  assert (Hend : forall d : Z, ((if (d =? d1)%Z then i1 else len) <= len)%nat).
  { intros d. destruct (d =? d1); lia. }
  apply (flat_map_sorted Z.lt); [apply zrange_sorted| |].
  - intros d _. apply (flat_map_sorted lt); [apply seq_sorted| |].
    + intros i _. apply item_values_sorted.
    + intros i j x y Hij Hi Hj Hx Hy.
      apply in_irange in Hi, Hj. specialize (Hend d).
      apply item_values_elem in Hx; [|fold len; lia].
      apply item_values_elem in Hy; [|fold len; lia].
      destruct Hx as [Hx _]. destruct Hy as [Hy _]. rewrite Hx, Hy.
      apply entries_same_decade. fold len. lia.
  - intros d d' x y Hd _ _ Hx Hy.
    apply in_flat_map in Hx. destruct Hx as (i & Hi & Hx).
    apply in_flat_map in Hy. destruct Hy as (j & Hj & Hy).
    apply in_irange in Hi, Hj.
    pose proof (Hend d). pose proof (Hend d').
    apply item_values_elem in Hx; [|fold len; lia].
    apply item_values_elem in Hy; [|fold len; lia].
    destruct Hx as [Hx _]. destruct Hy as [Hy _]. rewrite Hx, Hy.
    apply entries_next_decade; [exact Hd | fold len; lia | fold len; lia].
Qed.

Lemma loop_values_in_range sv sl sd start stop d0 i0 d1 i1 :
  Forall (in_range start stop)
         (loop_values sv sl sd start stop d0 i0 d1 i1).
Proof.
  apply Forall_forall. intros x Hx. unfold loop_values in Hx.
  apply in_flat_map in Hx. destruct Hx as (d & _ & Hx).
  apply in_flat_map in Hx. destruct Hx as (i & _ & Hx).
  eapply item_values_in_range. exact Hx.
Qed.

Lemma stop_index_le series_key stop :
  (snd (stop_position series_key stop) <= length (series series_key))%nat.
Proof.
  unfold stop_position. cbn [snd]. rewrite <- mantissa_length.
  apply bisect_right_le.
Qed.

Lemma erange_increasing series_key start stop :
  valid_range series_key start stop ->
  exists l, erange series_key start stop = Ok l
            /\ StronglySorted Qlt l
            /\ Forall (in_range start stop) l.
Proof.
  intros Hv. eexists. split; [apply erange_valid; exact Hv|]. split.
  - apply loop_values_sorted. apply stop_index_le.
  - apply loop_values_in_range.
Qed.

Lemma erange_sorted series_key start stop l :
  valid_range series_key start stop ->
  erange series_key start stop = Ok l -> StronglySorted Qlt l.
Proof.
  intros Hv He.
  destruct (erange_increasing series_key start stop Hv) as (l' & Hl' & Hs & _).
  rewrite He in Hl'. injection Hl' as <-. exact Hs.
Qed.

(** ** Every standard value of the range is enumerated *)

Lemma yielded_value series_key d i :
  (i < length (series series_key))%nat ->
  (yielded series_key d i == std_value series_key d i)%Q.
Proof.
  intros Hi. unfold yielded, std_value, entry.
  apply round_sig_exact; [apply series_decade_nonneg|].
  apply series_bounds, nth_In, Hi.
Qed.

Lemma item_values_yielded series_key start stop d i :
  item_values (series series_key) (series_decade series_key) start stop d i
  = if nle start (of_Q (yielded series_key d i))
       && nle (of_Q (yielded series_key d i)) stop
    then [yielded series_key d i] else [].
Proof. reflexivity. Qed.

Lemma std_value_bounds series_key d i :
  (i < length (series series_key))%nat ->
  (10 ^ d <= std_value series_key d i)%Q
  /\ (std_value series_key d i < 10 ^ (d + 1))%Q.
Proof.
  intros Hi. unfold std_value, entry.
  pose proof (series_decade_nonneg series_key) as Hsd.
  set (sd := series_decade series_key) in *.
  destruct (entry_bounds sd (nth i (series series_key) 0) (d - sd) Hsd)
    as [Hlo Hhi]; [apply series_bounds, nth_In, Hi|].
  replace (sd + (d - sd)) with d in * by lia. split; assumption.
Qed.

Lemma std_value_pos series_key d i :
  (i < length (series series_key))%nat -> (0 < std_value series_key d i)%Q.
Proof.
  intros Hi. destruct (std_value_bounds series_key d i Hi) as [Hlo _].
  pose proof (p10_pos d). lra.
Qed.

Lemma Qsq_le a b : (0 <= a)%Q -> (a <= b)%Q -> (a * a <= b * b)%Q.
Proof. intros. nra. Qed.

Lemma Qsq_lt a b : (0 <= a)%Q -> (a < b)%Q -> (a * a < b * b)%Q.
Proof. intros. nra. Qed.

Lemma p10_quad k : (10 ^ (k * 2) * 10 ^ (k * 2) == 10 ^ (k * 4))%Q.
Proof. rewrite <- p10_add. replace (k * 2 + k * 2) with (k * 4) by lia. reflexivity. Qed.

(** The fourth power of a standard value, bracketed by powers of ten. *)
Lemma std_value_quad series_key d i :
  (i < length (series series_key))%nat ->
  let X := (std_value series_key d i * std_value series_key d i)%Q in
  (X * X == mant series_key i * mant series_key i * 10 ^ (d * 4))%Q
  /\ (10 ^ (d * 4) <= X * X)%Q
  /\ (X * X < 10 ^ ((d + 1) * 4))%Q.
Proof.
  intros Hi X. destruct (mant_bounds series_key i Hi) as [Hm1 Hm2].
  assert (HX : (X == mant series_key i * 10 ^ (d * 2))%Q)
    by apply std_value_sq.
  pose proof (p10_pos (d * 2)) as Hp.
  pose proof (p10_quad d) as Hq.
  assert (Hq' : (10 ^ ((d + 1) * 4) == 10000 * 10 ^ (d * 4))%Q).
  { replace ((d + 1) * 4) with (4 + d * 4) by lia. rewrite p10_add.
    reflexivity. }
  set (m := mant series_key i) in *. set (p := (10 ^ (d * 2))%Q) in *.
  rewrite Hq', <- Hq, HX. repeat split.
  - ring.
  - assert ((p <= m * p)%Q) by nra. nra.
  - assert ((m * p < 100 * p)%Q) by nra.
    assert ((m * p * (m * p) < 100 * p * (100 * p))%Q)
      by (apply Qsq_lt; nra).
    nra.
Qed.

(** The mantissa of [log10(start) - epsilon], with its decade. *)
Lemma start_log_shape series_key S :
  (0 < S)%Q ->
  exists A f M,
    lsub (log10 (Fin S)) (epsilon_of series_key) = LogN 2 A
    /\ lfloor (LogN 2 A) = f
    /\ lmod1 (LogN 2 A) = LogN 2 M
    /\ (0 < A)%Q /\ (A <= S * S)%Q
    /\ (10 ^ (f * 4) <= A)%Q /\ (A < 10 ^ ((f + 1) * 4))%Q
    /\ (M * 10 ^ (f * 4) == A)%Q.
Proof.
  intros HS. destruct (epsilon_facts series_key) as (E & -> & HE).
  exists (S ^ 2 / E ^ 1)%Q. set (A := (S ^ 2 / E ^ 1)%Q).
  assert (HA : (0 < A)%Q).
  { unfold A. simpl Qpower. apply Qlt_shift_div_l; nra. }
  destruct (lfloor_spec 2 A HA) as [Hlo Hhi].
  change (2 ^ Z.of_nat 2) with 4 in Hlo, Hhi.
  exists (lfloor (LogN 2 A)), (A ^ 1 / (10 ^ lfloor (LogN 2 A)) ^ 4)%Q.
  set (f := lfloor (LogN 2 A)) in *.
  pose proof (p10_pos (f * 4)) as Hp.
  repeat split; try reflexivity; try assumption.
  - unfold A. simpl Qpower. apply Qle_shift_div_r; nra.
  - rewrite p10_pow4. simpl (A ^ 1)%Q. field. lra.
Qed.

Lemma stop_log_shape series_key T :
  (0 < T)%Q ->
  exists B g N,
    ladd (log10 (Fin T)) (epsilon_of series_key) = LogN 2 B
    /\ lfloor (LogN 2 B) = g
    /\ lmod1 (LogN 2 B) = LogN 2 N
    /\ (T * T <= B)%Q
    /\ (10 ^ (g * 4) <= B)%Q /\ (B < 10 ^ ((g + 1) * 4))%Q
    /\ (N * 10 ^ (g * 4) == B)%Q.
Proof.
  intros HT. destruct (epsilon_facts series_key) as (E & -> & HE).
  exists (T ^ 2 * E ^ 1)%Q. set (B := (T ^ 2 * E ^ 1)%Q).
  assert (HB : (0 < B)%Q) by (unfold B; simpl Qpower; nra).
  destruct (lfloor_spec 2 B HB) as [Hlo Hhi].
  change (2 ^ Z.of_nat 2) with 4 in Hlo, Hhi.
  exists (lfloor (LogN 2 B)), (B ^ 1 / (10 ^ lfloor (LogN 2 B)) ^ 4)%Q.
  set (g := lfloor (LogN 2 B)) in *.
  pose proof (p10_pos (g * 4)) as Hp.
  repeat split; try reflexivity; try assumption.
  - unfold B. simpl Qpower. nra.
  - rewrite p10_pow4. simpl (B ^ 1)%Q. field. lra.
Qed.

(** The enumeration starts at or before any standard value above [start]. *)
Lemma start_position_before series_key S d i :
  (0 < S)%Q -> (i < length (series series_key))%nat ->
  (S <= std_value series_key d i * std_value series_key d i)%Q ->
  fst (start_position series_key (Fin S)) < d
  \/ (fst (start_position series_key (Fin S)) = d
      /\ (snd (start_position series_key (Fin S)) <= i)%nat).
Proof.
  intros HS Hi Hx.
  destruct (start_log_shape series_key S HS)
    as (A & f & M & Hlog & Hf & Hmod & HA & HAS & Hlo & Hhi & HM).
  destruct (std_value_quad series_key d i Hi) as (HXX & HXlo & HXhi).
  destruct (mantissa_nth_mant series_key i Hi) as (m & Hnth & Hm).
  destruct (mant_bounds series_key i Hi) as [Hm1 _].
  pose proof (std_value_pos series_key d i Hi) as Hpos.
  set (x := std_value series_key d i) in *.
  assert (HAX : (A <= x * x * (x * x))%Q).
  { eapply Qle_trans; [exact HAS|]. apply Qsq_le; lra. }
  assert (Hfd : f < d + 1).
  { apply Z.mul_lt_mono_pos_r with 4; [lia|]. apply p10_lt_inv. lra. }
  pose proof (p10_pos (f * 4)) as Hpf. pose proof (p10_pos (d * 4)) as Hpd.
  unfold start_position. cbv zeta. rewrite Hlog, Hf, Hmod.
  rewrite mantissa_length.
  destruct (Nat.eqb_spec (bisect_left (LOG10_MANTISSA_E series_key) (LogN 2 M))
                         (length (series series_key))) as [Hwrap|Hnowrap];
    cbn [fst snd].
  - (* wrapped to the next decade *)
    rewrite <- mantissa_length in Hwrap, Hi.
    destruct (bisect_left_spec _ _ (mantissa_left_monotone series_key M))
      as [Ht _].
    pose proof (Ht i ltac:(lia)) as Hlt.
    rewrite Hnth, llt_1_2 in Hlt. apply Qlt_bool_iff in Hlt.
    simpl Qpower in Hlt. rewrite Hm in Hlt.
    set (mi := mant series_key i) in *.
    assert (Hff : f < d).
    { apply Z.mul_lt_mono_pos_r with 4; [lia|]. apply p10_lt_inv.
      assert ((mi * mi * 10 ^ (f * 4) < mi * mi * 10 ^ (d * 4))%Q) by nra.
      assert ((0 < mi * mi)%Q) by nra.
      apply Qmult_lt_l with (mi * mi)%Q; assumption. }
    destruct (Z.eq_dec (f + 1) d) as [Heq|Hne]; [right; split; lia | left; lia].
  - destruct (Z.eq_dec f d) as [Heq|Hne]; [right | left; lia].
    split; [exact Heq|]. clear Hf. subst f.
    destruct (bisect_left_spec _ _ (mantissa_left_monotone series_key M))
      as [Ht _].
    apply Nat.nlt_ge. intros Hbelow. apply Ht in Hbelow.
    rewrite Hnth, llt_1_2 in Hbelow. rename Hbelow into E.
    apply Qlt_bool_iff in E. simpl Qpower in E. rewrite Hm in E.
    set (mi := mant series_key i) in *. exfalso.
    assert ((mi * mi * 10 ^ (d * 4) < M * 10 ^ (d * 4))%Q)
      by (apply Qmult_lt_compat_r; assumption).
    lra.
Qed.

(** The enumeration stops after any standard value below [stop]. *)
Lemma stop_position_after series_key T d i :
  (0 < T)%Q -> (i < length (series series_key))%nat ->
  (std_value series_key d i * std_value series_key d i <= T)%Q ->
  d < fst (stop_position series_key (Fin T))
  \/ (d = fst (stop_position series_key (Fin T))
      /\ (i < snd (stop_position series_key (Fin T)))%nat).
Proof.
  intros HT Hi Hx.
  destruct (stop_log_shape series_key T HT)
    as (B & g & N & Hlog & Hg & Hmod & HTB & Hlo & Hhi & HN).
  destruct (std_value_quad series_key d i Hi) as (HXX & HXlo & HXhi).
  pose proof (std_value_pos series_key d i Hi) as Hpos.
  set (x := std_value series_key d i) in *.
  assert (HXB : (x * x * (x * x) <= B)%Q).
  { eapply Qle_trans; [|exact HTB]. apply Qsq_le; nra. }
  assert (Hdg : d < g + 1).
  { apply Z.mul_lt_mono_pos_r with 4; [lia|]. apply p10_lt_inv. lra. }
  pose proof (p10_pos (g * 4)) as Hpg.
  unfold stop_position. cbv zeta. rewrite Hlog, Hg, Hmod. cbn [fst snd].
  destruct (Z.eq_dec d g) as [Heq|Hne]; [right | left; lia].
  split; [exact Heq|]. clear Hg. subst g.
  destruct (bisect_right_spec _ _ (mantissa_right_monotone series_key N))
    as [_ Hf].
  apply Nat.nle_gt. intros Habove.
  destruct (mantissa_nth_mant series_key i Hi) as (m & Hnth & Hm).
  specialize (Hf i). rewrite mantissa_length in Hf.
  specialize (Hf ltac:(lia)). rewrite Hnth, llt_2_1 in Hf.
  apply Qlt_bool_iff in Hf. simpl Qpower in Hf. rewrite Hm in Hf.
  set (mi := mant series_key i) in *.
  assert ((N * 10 ^ (d * 4) < mi * mi * 10 ^ (d * 4))%Q)
    by (apply Qmult_lt_compat_r; assumption).
  lra.
Qed.

Lemma nle_of_Q_compat a x y :
  (x == y)%Q -> nle a (of_Q x) = nle a (of_Q y).
Proof.
  intros H. destruct a; try reflexivity. cbn [nle of_Q]. rewrite H. reflexivity.
Qed.

Lemma nle_of_Q_compat_l b x y :
  (x == y)%Q -> nle (of_Q x) b = nle (of_Q y) b.
Proof.
  intros H. destruct b; try reflexivity. cbn [nle of_Q]. rewrite H. reflexivity.
Qed.

Lemma in_range_compat start stop x y :
  (x == y)%Q -> in_range start stop x -> in_range start stop y.
Proof.
  intros H [H1 H2]. split.
  - rewrite <- (nle_of_Q_compat start x y H). exact H1.
  - rewrite <- (nle_of_Q_compat_l stop x y H). exact H2.
Qed.

Lemma in_range_Fin S T x :
  (0 < x)%Q ->
  in_range (Fin S) (Fin T) x <-> (S <= x * x)%Q /\ (x * x <= T)%Q.
Proof.
  intros Hx. unfold in_range. cbn [nle of_Q].
  rewrite !Qle_bool_iff. rewrite (Qabs_pos x) by lra. reflexivity.
Qed.

Lemma loop_values_complete series_key start stop d0 i0 d1 i1 d i :
  d0 < d \/ (d0 = d /\ (i0 <= i)%nat) ->
  d < d1 \/ (d = d1 /\ (i < i1)%nat) ->
  (i < length (series series_key))%nat ->
  in_range start stop (yielded series_key d i) ->
  In (yielded series_key d i)
     (loop_values (series series_key) (LOG10_MANTISSA_E series_key)
                  (series_decade series_key) start stop d0 i0 d1 i1).
Proof.
  intros H0 H1 Hi [Hr1 Hr2]. unfold loop_values.
  apply in_flat_map. exists d. split; [apply in_zrange; lia|].
  apply in_flat_map. exists i. split.
  - apply in_irange. rewrite mantissa_length.
    destruct (Z.eqb_spec d d0), (Z.eqb_spec d d1); lia.
  - rewrite item_values_yielded, Hr1, Hr2. left. reflexivity.
Qed.

Lemma loop_values_sound series_key start stop d0 i0 d1 i1 x :
  (i1 <= length (series series_key))%nat ->
  In x (loop_values (series series_key) (LOG10_MANTISSA_E series_key)
                    (series_decade series_key) start stop d0 i0 d1 i1) ->
  exists d i, (i < length (series series_key))%nat
              /\ x = yielded series_key d i
              /\ in_range start stop x.
Proof.
  intros Hi1 Hx. unfold loop_values in Hx.
  apply in_flat_map in Hx. destruct Hx as (d & _ & Hx).
  apply in_flat_map in Hx. destruct Hx as (i & Hi & Hx).
  apply in_irange in Hi. rewrite mantissa_length in Hi.
  exists d, i. split; [destruct (d =? d1); lia|].
  rewrite item_values_yielded in Hx.
  destruct (nle start _ && nle _ stop) eqn:E; [|destruct Hx].
  destruct Hx as [<-|[]]. apply andb_prop in E. split; [reflexivity | exact E].
Qed.

(** [erange] enumerates exactly the standard values of the range. *)
Lemma erange_complete series_key start stop d i :
  valid_range series_key start stop ->
  (i < length (series series_key))%nat ->
  in_range start stop (std_value series_key d i) ->
  exists l, erange series_key start stop = Ok l
            /\ In (yielded series_key d i) l.
Proof.
  intros Hv Hi Hr. eexists. split; [apply erange_valid; exact Hv|].
  destruct (valid_range_inv _ _ Hv) as (S & T & -> & -> & HS & HT & HST).
  pose proof (std_value_pos series_key d i Hi) as Hpos.
  pose proof (proj1 (in_range_Fin S T _ Hpos) Hr) as [HSx HxT].
  apply loop_values_complete.
  - pose proof (start_position_before series_key S d i HS Hi HSx). lia.
  - pose proof (stop_position_after series_key T d i HT Hi HxT). lia.
  - exact Hi.
  - apply (in_range_compat _ _ (std_value series_key d i)); [|exact Hr].
    symmetry. apply yielded_value. exact Hi.
Qed.

Lemma erange_sound series_key start stop l x :
  valid_range series_key start stop ->
  erange series_key start stop = Ok l -> In x l ->
  exists d i, (i < length (series series_key))%nat
              /\ x = yielded series_key d i
              /\ in_range start stop x.
Proof.
  intros Hv He Hx. rewrite (erange_valid _ _ _ Hv) in He.
  injection He as <-. eapply loop_values_sound; [apply stop_index_le | exact Hx].
Qed.

(** ** Neighbouring standard values are within the geometric scale *)

Lemma ratio_facts_ok series_key : ratio_facts series_key = true.
Proof. destruct series_key; vm_compute; reflexivity. Qed.

Lemma scale_gt_1 series_key : (1 < GEOMETRIC_SCALE_E series_key)%Q.
Proof.
  pose proof (ratio_facts_ok series_key) as H. unfold ratio_facts in H.
  apply andb_prop in H. destruct H as [_ H]. apply Qlt_bool_iff. exact H.
Qed.

Lemma adjacent_pairs_nth l i :
  (S i < length l)%nat ->
  In (nth i l 0, nth (S i) l 0) (adjacent_pairs l).
Proof.
  unfold adjacent_pairs. revert i.
  induction l as [|a [|b l] IH]; intros i Hi; try (simpl in Hi; lia).
  destruct i as [|i]; [left; reflexivity|].
  right. apply (IH i). simpl in Hi |- *. lia.
Qed.

Lemma ratio_in_table series_key i :
  (S i < length (series series_key))%nat ->
  (inject_Z (entry series_key (S i))
   <= GEOMETRIC_SCALE_E series_key * inject_Z (entry series_key i))%Q.
Proof.
  intros Hi. pose proof (ratio_facts_ok series_key) as H.
  unfold ratio_facts in H.
  apply andb_prop in H. destruct H as [H _].
  apply andb_prop in H. destruct H as [H _].
  rewrite forallb_forall in H.
  specialize (H _ (adjacent_pairs_nth _ i Hi)).
  apply Qle_bool_iff in H. exact H.
Qed.

Lemma ratio_wrap series_key :
  (10 * inject_Z (entry series_key O)
   <= GEOMETRIC_SCALE_E series_key
      * inject_Z (entry series_key (Nat.pred (length (series series_key)))))%Q.
Proof.
  pose proof (ratio_facts_ok series_key) as H. unfold ratio_facts in H.
  apply andb_prop in H. destruct H as [H _].
  apply andb_prop in H. destruct H as [_ H].
  apply Qle_bool_iff in H. exact H.
Qed.

Lemma std_value_next_decade series_key d i :
  (std_value series_key (d + 1) i == 10 * std_value series_key d i)%Q.
Proof.
  unfold std_value.
  replace (d + 1 - series_decade series_key)
    with ((d - series_decade series_key) + 1) by lia.
  rewrite p10_succ. ring.
Qed.

Lemma next_position_spec series_key d i :
  (i < length (series series_key))%nat ->
  let p := next_position series_key (d, i) in
  (snd p < length (series series_key))%nat
  /\ (std_value series_key d i < value_at series_key p)%Q
  /\ (value_at series_key p
      <= GEOMETRIC_SCALE_E series_key * std_value series_key d i)%Q.
Proof.
  intros Hi. unfold next_position, value_at.
  pose proof (series_nonempty series_key) as Hlen.
  pose proof (p10_pos (d - series_decade series_key)) as Hp.
  destruct (Nat.ltb_spec (S i) (length (series series_key))) as [Hlt|Hge];
    cbn [fst snd].
  - split; [exact Hlt|]. split.
    + apply entries_same_decade. lia.
    + pose proof (ratio_in_table series_key i Hlt) as Hr.
      unfold std_value. 
      rewrite Qmult_assoc. apply Qmult_le_compat_r; [exact Hr | lra].
  - assert (Hi' : i = Nat.pred (length (series series_key))) by lia.
    split; [lia|]. split.
    + apply entries_next_decade; lia.
    + pose proof (ratio_wrap series_key) as Hr. rewrite <- Hi' in Hr.
      rewrite std_value_next_decade. unfold std_value.
      rewrite !Qmult_assoc. apply Qmult_le_compat_r; [exact Hr | lra].
Qed.

Lemma prev_position_spec series_key d i :
  (i < length (series series_key))%nat ->
  let p := prev_position series_key (d, i) in
  (snd p < length (series series_key))%nat
  /\ (value_at series_key p < std_value series_key d i)%Q
  /\ (std_value series_key d i
      <= GEOMETRIC_SCALE_E series_key * value_at series_key p)%Q.
Proof.
  intros Hi. unfold prev_position, value_at.
  pose proof (series_nonempty series_key) as Hlen.
  pose proof (p10_pos (d - series_decade series_key)) as Hp.
  destruct i as [|j]; cbn [fst snd].
  - split; [lia|]. split.
    + apply entries_next_decade; lia.
    + pose proof (ratio_wrap series_key) as Hr.
      replace d with ((d - 1) + 1) at 1 by lia.
      rewrite std_value_next_decade. unfold std_value.
      pose proof (p10_pos (d - 1 - series_decade series_key)) as Hp'.
      rewrite !Qmult_assoc. apply Qmult_le_compat_r; [exact Hr | lra].
  - split; [lia|]. split.
    + apply entries_same_decade. lia.
    + pose proof (ratio_in_table series_key j Hi) as Hr.
      unfold std_value.
      rewrite Qmult_assoc. apply Qmult_le_compat_r; [exact Hr | lra].
Qed.

(** ** Three standard values in every search window *)

Lemma greatest_index (P : nat -> bool) n :
  P O = true ->
  exists i, (i <= n)%nat /\ P i = true /\ ((i < n)%nat -> P (S i) = false).
Proof.
  intros H0. induction n as [|n (i & Hi & HP & Hnext)].
  - exists O. split; [lia|]. split; [exact H0 | lia].
  - destruct (P (S n)) eqn:E.
    + exists (S n). split; [lia|]. split; [exact E | lia].
    + exists i. split; [lia|]. split; [exact HP|].
      intros Hlt. destruct (Nat.eq_dec i n) as [->|Hne]; [exact E|].
      apply Hnext. lia.
Qed.

Lemma std_value_first series_key d : (std_value series_key d O == 10 ^ d)%Q.
Proof.
  unfold std_value, entry.
  rewrite series_first, p10_inject, <- p10_add by apply series_decade_nonneg.
  replace (series_decade series_key + (d - series_decade series_key))
    with d by lia.
  reflexivity.
Qed.

(** The greatest standard value not above a positive [v]. *)
Lemma floor_position series_key v :
  (0 < v)%Q ->
  exists d i, (i < length (series series_key))%nat
              /\ (std_value series_key d i <= v)%Q
              /\ (v < value_at series_key (next_position series_key (d, i)))%Q.
Proof.
  intros Hv. destruct (ilog10_spec v Hv) as [Hlo Hhi].
  set (d := ilog10 v) in *.
  pose proof (series_nonempty series_key) as Hlen.
  destruct (greatest_index (fun i => Qle_bool (std_value series_key d i) v)
              (Nat.pred (length (series series_key))))
    as (i & Hi & HP & Hnext).
  { apply Qle_bool_iff. rewrite std_value_first. exact Hlo. }
  exists d, i. split; [lia|]. split; [apply Qle_bool_iff; exact HP|].
  unfold next_position, value_at.
  destruct (Nat.ltb_spec (S i) (length (series series_key))) as [Hlt|Hge];
    cbn [fst snd].
  - specialize (Hnext ltac:(lia)). apply Qlt_bool_iff.
    unfold Qlt_bool. rewrite Hnext. reflexivity.
  - rewrite std_value_first. exact Hhi.
Qed.

(** A finite upper end of the search window is the exact product. *)
Lemma window_stop_finite series_key v :
  isfinite (window_stop series_key v) = true ->
  window_stop series_key v
  = Fin (v * Qabs v * GEOMETRIC_SCALE_E series_key ^ 3).
Proof.
  unfold window_stop, pow_1_5, of_Q. cbn [nmul].
  destruct (Qle_bool _ _); [|reflexivity].
  destruct (Qle_bool _ _); discriminate.
Qed.

Lemma valid_target_finite series_key v :
  valid_target series_key v -> isfinite (window_stop series_key v) = true.
Proof. intros Hv. apply (valid_range_guards _ _ _ Hv). Qed.

Lemma in_window series_key v x :
  isfinite (window_stop series_key v) = true ->
  (0 < v)%Q -> (0 < x)%Q ->
  in_range (window_start series_key v) (window_stop series_key v) x
  <-> (v * v <= x * x * GEOMETRIC_SCALE_E series_key ^ 3)%Q
      /\ (x * x <= v * v * GEOMETRIC_SCALE_E series_key ^ 3)%Q.
Proof.
  intros Hfin Hv Hx. rewrite (window_stop_finite _ _ Hfin).
  unfold window_start, pow_1_5, of_Q.
  cbn [ndiv]. rewrite (in_range_Fin _ _ x Hx).
  rewrite (Qabs_pos v) by lra.
  pose proof (scale_gt_1 series_key) as Hs.
  set (s := GEOMETRIC_SCALE_E series_key) in *.
  assert (Hs3 : (0 < s ^ 3)%Q) by (simpl Qpower; nra).
  split; intros [H1 H2]; (split; [|exact H2]).
  - assert (Hd : (v * v == v * v / s ^ 3 * s ^ 3)%Q) by (field; lra).
    rewrite Hd. apply Qmult_le_compat_r; lra.
  - apply Qle_shift_div_r; assumption.
Qed.

Lemma valid_target_pos series_key v : valid_target series_key v -> (0 < v)%Q.
Proof.
  intros Hv. destruct (valid_range_inv _ _ Hv) as (S & T & HS & _ & HSpos & _).
  unfold window_start, pow_1_5, of_Q in HS. cbn [ndiv] in HS.
  injection HS as <-.
  pose proof (scale_gt_1 series_key) as Hs.
  set (s := GEOMETRIC_SCALE_E series_key) in *.
  assert (Hs3 : (0 < s * (s * s))%Q) by nra.
  assert (Hvv : (0 < v * Qabs v)%Q).
  { destruct (Qlt_le_dec 0 (v * Qabs v)) as [H|H]; [exact H|].
    exfalso. assert ((v * Qabs v / (s * (s * s)) <= 0)%Q); [|lra].
    apply Qle_shift_div_r; lra. }
  pose proof (Qabs_nonneg v). nra.
Qed.

(** Any search window holds three distinct standard values. *)
Lemma three_in_window series_key v :
  isfinite (window_stop series_key v) = true ->
  (0 < v)%Q ->
  exists p1 p2 p3,
    (snd p1 < length (series series_key))%nat
    /\ (snd p2 < length (series series_key))%nat
    /\ (snd p3 < length (series series_key))%nat
    /\ (value_at series_key p1 < value_at series_key p2)%Q
    /\ (value_at series_key p2 < value_at series_key p3)%Q
    /\ in_range (window_start series_key v) (window_stop series_key v)
                (value_at series_key p1)
    /\ in_range (window_start series_key v) (window_stop series_key v)
                (value_at series_key p2)
    /\ in_range (window_start series_key v) (window_stop series_key v)
                (value_at series_key p3).
Proof.
  intros Hfin Hv.
  destruct (floor_position series_key v Hv) as (d & i & Hi & Hlv & Hvu).
  destruct (next_position_spec series_key d i Hi) as (Hui & Hlu & Hus).
  pose proof (std_value_pos series_key d i Hi) as Hl0.
  pose proof (scale_gt_1 series_key) as Hs.
  set (pu := next_position series_key (d, i)) in *.
  destruct pu as [du iu] eqn:Epu. unfold value_at in *. cbn [fst snd] in *.
  destruct (prev_position_spec series_key d i Hi) as (Hpi & Hpl & Hps).
  destruct (next_position_spec series_key du iu Hui) as (Hni & Hun & Hns).
  set (pp := prev_position series_key (d, i)) in *.
  set (pn := next_position series_key (du, iu)) in *.
  unfold value_at in *.
  pose proof (std_value_pos series_key (fst pp) (snd pp) Hpi) as Hp0.
  set (l := std_value series_key d i) in *.
  set (u := std_value series_key du iu) in *.
  set (p := std_value series_key (fst pp) (snd pp)) in *.
  set (n := std_value series_key (fst pn) (snd pn)) in *.
  set (s := GEOMETRIC_SCALE_E series_key) in *.
  assert (Hll : (l * l <= v * v)%Q) by (apply Qsq_le; lra).
  assert (Hvv : (v * v < u * u)%Q) by (apply Qsq_lt; lra).
  assert (Huu : (u * u <= s * l * (s * l))%Q) by (apply Qsq_le; lra).
  assert (Hs2 : (1 < s * s)%Q) by nra.
  assert (Hs3 : (1 < s * (s * s))%Q) by nra.
  assert (Hl2 : (0 < l * l)%Q) by nra.
  assert (Hv2 : (0 < v * v)%Q) by nra.
  assert (Hu2 : (0 < u * u)%Q) by nra.
  assert (Hinl : in_range (window_start series_key v) (window_stop series_key v) l).
  { apply in_window; [exact Hfin | exact Hv | exact Hl0|]. fold s. simpl Qpower.
    split; [|nra].
    assert ((s * l * (s * l) <= l * l * (s * s * s))%Q) by nra. lra. }
  assert (Hinu : in_range (window_start series_key v) (window_stop series_key v) u).
  { apply in_window; [exact Hfin | exact Hv | lra|]. fold s. simpl Qpower.
    split; [nra|].
    assert ((s * l * (s * l) <= v * v * (s * s * s))%Q) by nra. lra. }
  destruct (Qlt_le_dec (l * l * s) (v * v)) as [Hfar|Hnear].
  - (* the floor is far below v: take the value after the ceiling *)
    assert (Hinn : in_range (window_start series_key v)
                            (window_stop series_key v) n).
    { apply in_window; [exact Hfin | exact Hv | lra|]. fold s. simpl Qpower.
      assert (Hnn : (n * n <= s * u * (s * u))%Q) by (apply Qsq_le; lra).
      split; [nra|].
      assert ((s * u * (s * u) <= s * s * (s * l * (s * l)))%Q) by nra.
      assert ((s * s * (s * l * (s * l)) == s * s * s * (l * l * s))%Q) by ring.
      assert ((s * s * s * (l * l * s) < s * s * s * (v * v))%Q) by nra.
      lra. }
    exists (d, i), (du, iu), pn. cbn [fst snd]. fold l u n.
    repeat (split; [assumption|]). assumption.
  - (* the floor is near v: take the value before it *)
    assert (Hinp : in_range (window_start series_key v)
                            (window_stop series_key v) p).
    { apply in_window; [exact Hfin | exact Hv | exact Hp0|]. fold s. simpl Qpower.
      assert (Hpp : (l * l <= s * p * (s * p))%Q) by (apply Qsq_le; lra).
      assert (Hpl2 : (p * p < l * l)%Q) by (apply Qsq_lt; lra).
      split; [|nra].
      assert ((l * l * s <= s * p * (s * p) * s)%Q) by nra.
      lra. }
    exists pp, (d, i), (du, iu). cbn [fst snd]. fold l u p.
    repeat (split; [assumption|]). assumption.
Qed.

(** ** Choosing the nearest candidates *)

Lemma insert_by_length {A : Type} (key : A -> Q) x l :
  length (insert_by key x l) = S (length l).
Proof.
  induction l as [|y l IH]; [reflexivity|]. cbn [insert_by].
  destruct (Qle_bool (key x) (key y)); cbn [length]; [reflexivity|].
  rewrite IH. reflexivity.
Qed.

Lemma sorted_by_length {A : Type} (key : A -> Q) l :
  length (sorted_by key l) = length l.
Proof.
  induction l as [|x l IH]; [reflexivity|].
  cbn [sorted_by fold_right]. fold (sorted_by key l).
  rewrite insert_by_length, IH. reflexivity.
Qed.

Lemma enumerate_length {A : Type} (l : list A) :
  length (enumerate l) = length l.
Proof. unfold enumerate. rewrite length_combine, length_seq. lia. Qed.

Lemma nearest_n_length candidates value n :
  length (_nearest_n candidates value n)
  = Nat.min (Z.to_nat n) (length candidates).
Proof.
  unfold _nearest_n.
  rewrite sorted_by_length, length_map, length_firstn, length_map.
  rewrite sorted_by_length, enumerate_length, length_map. reflexivity.
Qed.

Lemma insert_by_HdRel {A : Type} (key : A -> Q) x y l :
  HdRel (fun a b => (key a <= key b)%Q) y l -> (key y <= key x)%Q ->
  HdRel (fun a b => (key a <= key b)%Q) y (insert_by key x l).
Proof.
  intros Hhd Hyx. destruct l as [|z l]; cbn [insert_by].
  - constructor. exact Hyx.
  - destruct (Qle_bool (key x) (key z)); constructor; [exact Hyx|].
    inversion Hhd; assumption.
Qed.

Lemma insert_by_sorted {A : Type} (key : A -> Q) x l :
  Sorted (fun a b => (key a <= key b)%Q) l ->
  Sorted (fun a b => (key a <= key b)%Q) (insert_by key x l).
Proof.
  induction 1 as [|y l Hs IH Hhd]; cbn [insert_by].
  - repeat constructor.
  - destruct (Qle_bool (key x) (key y)) eqn:E.
    + apply Qle_bool_iff in E. repeat constructor; assumption.
    + constructor; [exact IH|]. apply insert_by_HdRel; [exact Hhd|].
      apply Qlt_le_weak, Qlt_bool_iff. unfold Qlt_bool. rewrite E. reflexivity.
Qed.

Lemma sorted_by_sorted {A : Type} (key : A -> Q) l :
  Sorted (fun a b => (key a <= key b)%Q) (sorted_by key l).
Proof.
  induction l as [|x l IH]; [constructor|].
  cbn [sorted_by fold_right]. fold (sorted_by key l).
  apply insert_by_sorted. exact IH.
Qed.

Lemma nearest_n_sorted candidates value n :
  Sorted Qle (_nearest_n candidates value n).
Proof. unfold _nearest_n. apply (sorted_by_sorted (fun c => c)). Qed.

Lemma count_valid_iff n : existsb (Z.eqb n) [1; 2; 3] = true <-> In n [1; 2; 3].
Proof.
  rewrite existsb_exists. split.
  - intros (x & Hx & E). apply Z.eqb_eq in E. subst. exact Hx.
  - intros H. exists n. split; [exact H | apply Z.eqb_refl].
Qed.

Lemma find_nearest_few_count series_key value n :
  In n [1; 2; 3] ->
  find_nearest_few series_key value n
  = if overflows value then Raise OverflowError
    else let* candidates :=
           erange series_key (window_start series_key value)
                  (window_stop series_key value) in
         Ok (_nearest_n candidates value n).
Proof.
  intros Hn. unfold find_nearest_few.
  rewrite (proj2 (count_valid_iff n) Hn). reflexivity.
Qed.

(** A target whose window has a finite upper end is a float. *)
Lemma finite_window_target series_key value :
  isfinite (window_stop series_key value) = true -> overflows value = false.
Proof.
  intros Hfin. unfold overflows.
  destruct (Qle_bool overflow_threshold (Qabs value)) eqn:E; [|reflexivity].
  exfalso. apply Qle_bool_iff in E.
  unfold window_stop, pow_1_5, of_Q in Hfin. cbn [nmul] in Hfin.
  destruct (Qle_bool (overflow_threshold * overflow_threshold)
              (Qabs (value * Qabs value * GEOMETRIC_SCALE_E series_key ^ 3)))
    eqn:F.
  { destruct (Qle_bool 0 _) in Hfin; cbn [isfinite] in Hfin; discriminate. }
  apply Qle_bool_false in F.
  pose proof (scale_gt_1 series_key) as Hs.
  set (s := GEOMETRIC_SCALE_E series_key) in *.
  assert (Hs3 : (1 <= s ^ 3)%Q) by (simpl Qpower; nra).
  pose proof (Qabs_nonneg value) as Ha.
  assert (Ht : (0 < overflow_threshold)%Q) by reflexivity.
  rewrite !Qabs_Qmult, (Qabs_pos (Qabs value)), (Qabs_pos (s ^ 3)) in F
    by lra.
  set (t := overflow_threshold) in *. set (a := Qabs value) in *.
  set (c := (s ^ 3)%Q) in *.
  assert ((t * t <= a * a)%Q) by nra.
  assert ((a * a * 1 <= a * a * c)%Q) by (apply Qmult_le_l; nra).
  lra.
Qed.

Lemma find_nearest_few_unfold series_key value n :
  In n [1; 2; 3] ->
  isfinite (window_stop series_key value) = true ->
  find_nearest_few series_key value n
  = let* candidates :=
      erange series_key (window_start series_key value)
             (window_stop series_key value) in
    Ok (_nearest_n candidates value n).
Proof.
  intros Hn Hfin. rewrite (find_nearest_few_count _ _ _ Hn).
  rewrite (finite_window_target _ _ Hfin). reflexivity.
Qed.

Lemma find_nearest_few_bad_count series_key value n :
  ~ In n [1; 2; 3] ->
  find_nearest_few series_key value n = Raise (ValueError (NumNot123 n)).
Proof.
  intros Hn. unfold find_nearest_few.
  destruct (existsb (Z.eqb n) [1; 2; 3]) eqn:E; [|reflexivity].
  apply count_valid_iff in E. contradiction.
Qed.

Lemma yielded_lt series_key p q :
  (snd p < length (series series_key))%nat ->
  (snd q < length (series series_key))%nat ->
  (value_at series_key p < value_at series_key q)%Q ->
  yielded series_key (fst p) (snd p) <> yielded series_key (fst q) (snd q).
Proof.
  intros Hp Hq Hlt Heq. unfold value_at in Hlt.
  rewrite <- (yielded_value _ _ _ Hp), <- (yielded_value _ _ _ Hq), Heq in Hlt.
  apply (Qlt_irrefl _ Hlt).
Qed.

(** With a valid window there are at least three candidates. *)
Lemma candidates_at_least_three series_key value :
  valid_target series_key value ->
  exists l, erange series_key (window_start series_key value)
                   (window_stop series_key value) = Ok l
            /\ (3 <= length l)%nat.
Proof.
  intros Hv. pose proof (valid_target_pos _ _ Hv) as Hpos.
  destruct (three_in_window series_key value (valid_target_finite _ _ Hv) Hpos)
    as (p1 & p2 & p3 & H1 & H2 & H3 & H12 & H23 & R1 & R2 & R3).
  destruct (erange_complete series_key _ _ (fst p1) (snd p1) Hv H1 R1)
    as (l & Hl & In1).
  destruct (erange_complete series_key _ _ (fst p2) (snd p2) Hv H2 R2)
    as (l2 & Hl2 & In2).
  destruct (erange_complete series_key _ _ (fst p3) (snd p3) Hv H3 R3)
    as (l3 & Hl3 & In3).
  rewrite Hl in Hl2, Hl3. injection Hl2 as <-. injection Hl3 as <-.
  exists l. split; [exact Hl|].
  set (a := yielded series_key (fst p1) (snd p1)) in *.
  set (b := yielded series_key (fst p2) (snd p2)) in *.
  set (c := yielded series_key (fst p3) (snd p3)) in *.
  assert (Hab : a <> b) by (apply yielded_lt; assumption).
  assert (Hbc : b <> c) by (apply yielded_lt; assumption).
  assert (Hac : a <> c).
  { apply yielded_lt; try assumption. eapply Qlt_trans; eassumption. }
  change 3%nat with (length [a; b; c]). apply NoDup_incl_length.
  - repeat constructor; simpl; intuition congruence.
  - intros x [<-|[<-|[<-|[]]]]; assumption.
Qed.

Lemma erange_not_bad_count series_key start stop n :
  erange series_key start stop <> Raise (ValueError (NumNot123 n)).
Proof.
  unfold erange.
  destruct (too_large start); [discriminate|].
  destruct (negb (isfinite start)); [discriminate|].
  destruct (too_large stop); [discriminate|].
  destruct (negb (isfinite stop)); [discriminate|].
  destruct (nlt start _MINIMUM_E_VALUE); [discriminate|].
  destruct (nlt stop _MINIMUM_E_VALUE); [discriminate|].
  destruct (negb (nle start stop)); [discriminate|].
  cbv zeta. unfold _decade_mantissa.
  destruct (Nat.eqb (bisect_left _ _) _);
    (destruct (Nat.eqb (bisect_right _ _) _); [discriminate|]);
    rewrite try_integral_first; cbn [bind]; intros E;
    apply erange_loop_raise in E; discriminate.
Qed.

(** In exact arithmetic, [find_nearest_few] raises the invalid-count error exactly when the
    count is not 1, 2 or 3; and for a target whose window is a valid range
    and a count of 1, 2 or 3 it returns exactly that many values, sorted
    ascending. *)
Lemma find_nearest_few_cardinality_exact series_key value n :
  (find_nearest_few series_key value n = Raise (ValueError (NumNot123 n))
   <-> ~ In n [1; 2; 3])
  /\ (valid_target series_key value -> In n [1; 2; 3] ->
      exists l, find_nearest_few series_key value n = Ok l
                /\ length l = Z.to_nat n /\ Sorted Qle l).
Proof.
  split.
  - split; [|apply find_nearest_few_bad_count].
    intros Hraise Hn. rewrite (find_nearest_few_count _ _ _ Hn) in Hraise.
    destruct (overflows value); [discriminate|].
    destruct (erange series_key (window_start series_key value)
                     (window_stop series_key value)) as [c|e] eqn:E;
      cbn [bind] in Hraise; [discriminate|].
    injection Hraise as ->. apply (erange_not_bad_count _ _ _ _ E).
  - intros Hv Hn.
    destruct (candidates_at_least_three series_key value Hv) as (c & Hc & Hlen).
    exists (_nearest_n c value n).
    rewrite (find_nearest_few_unfold _ _ _ Hn (valid_target_finite _ _ Hv)), Hc.
    cbn [bind].
    split; [reflexivity|]. split; [|apply nearest_n_sorted].
    rewrite nearest_n_length.
    simpl in Hn. destruct Hn as [<-|[<-|[<-|[]]]]; simpl Z.to_nat; lia.
Qed.

(** ** The nearest candidate and ties *)

Lemma insert_by_In {A : Type} (key : A -> Q) x y l :
  In y (insert_by key x l) -> y = x \/ In y l.
Proof.
  induction l as [|z l IH]; cbn [insert_by].
  - intros [<-|[]]. left. reflexivity.
  - destruct (Qle_bool (key x) (key z)).
    + intros [<-|H]; [left; reflexivity | right; exact H].
    + intros [<-|H]; [right; left; reflexivity|].
      destruct (IH H) as [->|H']; [left; reflexivity | right; right; exact H'].
Qed.

Lemma sorted_by_In {A : Type} (key : A -> Q) y l :
  In y (sorted_by key l) -> In y l.
Proof.
  induction l as [|x l IH]; [intros []|].
  cbn [sorted_by fold_right]. fold (sorted_by key l). intros H.
  destruct (insert_by_In key x y _ H) as [->|H'];
    [left; reflexivity | right; apply IH; exact H'].
Qed.

(** The stable sort puts first the earliest element of least key. *)
Lemma sorted_by_head {A : Type} (key : A -> Q) l1 e l2 :
  (forall y, In y l1 -> (key e < key y)%Q) ->
  (forall y, In y l2 -> (key e <= key y)%Q) ->
  sorted_by key (l1 ++ e :: l2) = e :: sorted_by key (l1 ++ l2).
Proof.
  intros H1 H2. induction l1 as [|a l1 IH]; cbn [app].
  - cbn [sorted_by fold_right]. fold (sorted_by key l2).
    pose proof (sorted_by_In key) as Hin.
    destruct (sorted_by key l2) as [|y L] eqn:E; [reflexivity|].
    cbn [insert_by].
    assert (Hy : (key e <= key y)%Q).
    { apply H2, (Hin y). rewrite E. left. reflexivity. }
    apply Qle_bool_iff in Hy. rewrite Hy. reflexivity.
  - cbn [sorted_by fold_right]. fold (sorted_by key (l1 ++ e :: l2)).
    fold (sorted_by key (l1 ++ l2)).
    rewrite IH by (intros y Hy; apply H1; right; exact Hy).
    cbn [insert_by].
    assert (Ha : Qle_bool (key a) (key e) = false).
    { pose proof (H1 a (or_introl eq_refl)) as Hlt.
      apply Qlt_bool_iff in Hlt. unfold Qlt_bool in Hlt.
      apply negb_true_iff in Hlt. exact Hlt. }
    rewrite Ha. reflexivity.
Qed.

Lemma combine_seq_app {A : Type} (l1 l2 : list A) s :
  combine (seq s (length (l1 ++ l2))) (l1 ++ l2)
  = combine (seq s (length l1)) l1
    ++ combine (seq (s + length l1) (length l2)) l2.
Proof.
  revert s. induction l1 as [|a l1 IH]; intros s; cbn [app length seq combine].
  - rewrite Nat.add_0_r. reflexivity.
  - rewrite IH. replace (S s + length l1)%nat with (s + S (length l1))%nat by lia.
    reflexivity.
Qed.

(** With a count of one, [_nearest_n] returns the earliest candidate of
    least distance. *)
Lemma nearest_one candidates1 x candidates2 value :
  (forall y, In y candidates1 -> (Qabs (x - value) < Qabs (y - value))%Q) ->
  (forall y, In y candidates2 -> (Qabs (x - value) <= Qabs (y - value))%Q) ->
  _nearest_n (candidates1 ++ x :: candidates2) value 1 = [x].
Proof.
  intros H1 H2. unfold _nearest_n, enumerate.
  set (delta := fun c : Q => Qabs (c - value)).
  rewrite map_app. cbn [map].
  rewrite (combine_seq_app (map delta candidates1)
                           (delta x :: map delta candidates2) 0).
  cbn [length seq combine]. rewrite length_map.
  rewrite (sorted_by_head snd).
  - change (Z.to_nat 1) with 1%nat.
    cbn [map firstn Nat.add fst sorted_by fold_right insert_by].
    rewrite app_nth2 by lia. rewrite Nat.sub_diag. reflexivity.
  - intros [j dy] Hy. apply in_combine_r in Hy. cbn [snd].
    apply in_map_iff in Hy. destruct Hy as (y & <- & Hy). apply H1. exact Hy.
  - intros [j dy] Hy. apply in_combine_r in Hy. cbn [snd].
    apply in_map_iff in Hy. destruct Hy as (y & <- & Hy). apply H2. exact Hy.
Qed.

(** Standard values are ordered as their positions are. *)
Lemma std_value_le_lex series_key d i d' i' :
  d < d' \/ (d = d' /\ (i <= i')%nat) ->
  (i < length (series series_key))%nat ->
  (i' < length (series series_key))%nat ->
  (std_value series_key d i <= std_value series_key d' i')%Q.
Proof.
  intros [Hd|[<- Hi']] Hi Hj.
  - apply Qlt_le_weak, entries_next_decade; assumption.
  - destruct (Nat.eq_dec i i') as [<-|Hne]; [apply Qle_refl|].
    apply Qlt_le_weak, entries_same_decade. lia.
Qed.

Lemma std_value_lt_lex series_key d i d' i' :
  (i < length (series series_key))%nat ->
  (i' < length (series series_key))%nat ->
  (std_value series_key d i < std_value series_key d' i')%Q ->
  d < d' \/ (d = d' /\ (i < i')%nat).
Proof.
  intros Hi Hj Hlt.
  destruct (Z.lt_trichotomy d d') as [H|[H|H]]; [left; exact H| |].
  - destruct (Nat.lt_ge_cases i i') as [Hii|Hii]; [right; split; assumption|].
    exfalso. apply (Qlt_not_le _ _ Hlt).
    apply std_value_le_lex; [right; split; [symmetry; exact H | exact Hii] | | ];
      assumption.
  - exfalso. apply (Qlt_not_le _ _ Hlt).
    apply std_value_le_lex; [left; exact H | | ]; assumption.
Qed.

(** No standard value lies strictly between a value and the next one. *)
Lemma next_position_adjacent series_key d i d' i' :
  (i < length (series series_key))%nat ->
  (i' < length (series series_key))%nat ->
  (std_value series_key d i < std_value series_key d' i')%Q ->
  (value_at series_key (next_position series_key (d, i))
   <= std_value series_key d' i')%Q.
Proof.
  intros Hi Hj Hlt.
  pose proof (std_value_lt_lex _ _ _ _ _ Hi Hj Hlt) as Hlex.
  unfold next_position, value_at.
  destruct (Nat.ltb_spec (S i) (length (series series_key))) as [Hs|Hs];
    cbn [fst snd]; apply std_value_le_lex; try assumption; lia.
Qed.

(** The two standard values around a target lie in its window. *)
Lemma bracket_in_window series_key v l u :
  isfinite (window_stop series_key v) = true ->
  (0 < l)%Q -> (l <= v)%Q -> (v < u)%Q ->
  (u <= GEOMETRIC_SCALE_E series_key * l)%Q ->
  in_range (window_start series_key v) (window_stop series_key v) l
  /\ in_range (window_start series_key v) (window_stop series_key v) u.
Proof.
  intros Hfin Hl0 Hlv Hvu Hus.
  pose proof (scale_gt_1 series_key) as Hs.
  set (s := GEOMETRIC_SCALE_E series_key) in *.
  assert (Hv : (0 < v)%Q) by lra.
  assert (Hll : (l * l <= v * v)%Q) by (apply Qsq_le; lra).
  assert (Hvv : (v * v < u * u)%Q) by (apply Qsq_lt; lra).
  assert (Huu : (u * u <= s * l * (s * l))%Q) by (apply Qsq_le; lra).
  assert (Hs2 : (1 < s * s)%Q) by nra.
  assert (Hs3 : (1 < s * (s * s))%Q) by nra.
  assert (Hl2 : (0 < l * l)%Q) by nra.
  assert (Hv2 : (0 < v * v)%Q) by nra.
  split.
  - apply in_window; [exact Hfin | exact Hv | exact Hl0|]. fold s. simpl Qpower.
    split; [|nra].
    assert ((s * l * (s * l) <= l * l * (s * s * s))%Q) by nra. lra.
  - apply in_window; [exact Hfin | exact Hv | lra|]. fold s. simpl Qpower.
    split; [nra|].
    assert ((s * l * (s * l) <= v * v * (s * s * s))%Q) by nra. lra.
Qed.

Lemma sorted_app_inv (l1 l2 : list Q) :
  StronglySorted Qlt (l1 ++ l2) ->
  StronglySorted Qlt l2
  /\ forall x y, In x l1 -> In y l2 -> (x < y)%Q.
Proof.
  induction l1 as [|a l1 IH]; cbn [app]; intros Hs.
  - split; [exact Hs | intros x y []].
  - inversion Hs as [|? ? Hs' Hall]; subst.
    destruct (IH Hs') as [H2 Hx]. split; [exact H2|].
    intros x y [<-|Hin] Hy; [|apply Hx; assumption].
    rewrite Forall_forall in Hall. apply Hall, in_or_app. right. exact Hy.
Qed.

(** In exact arithmetic, when the target is exactly half-way between a standard value and
    the next one, [find_nearest] returns the lower of the two: candidates
    are enumerated in ascending order and the sort by distance is stable. *)
Lemma find_nearest_tie_goes_down_exact series_key value d i :
  valid_target series_key value ->
  (i < length (series series_key))%nat ->
  let lower := std_value series_key d i in
  let upper := value_at series_key (next_position series_key (d, i)) in
  (lower < value)%Q -> (value < upper)%Q ->
  (value - lower == upper - value)%Q ->
  exists r, find_nearest series_key value = Ok r /\ (r == lower)%Q.
Proof.
  intros Hv Hi lower upper Hlo Hhi Htie.
  destruct (next_position_spec series_key d i Hi) as (Hui & Hlu & Hus).
  fold upper lower in Hlu, Hus.
  pose proof (std_value_pos series_key d i Hi) as Hl0. fold lower in Hl0.
  destruct (bracket_in_window series_key value lower upper (valid_target_finite _ _ Hv) Hl0
              ltac:(lra) Hhi Hus) as [Rl Ru].
  destruct (erange_complete series_key _ _ d i Hv Hi Rl) as (c & Hc & Inl).
  exists (yielded series_key d i).
  pose proof (yielded_value series_key d i Hi) as Hyl. fold lower in Hyl.
  split; [|exact Hyl].
  pose proof (erange_sorted _ _ _ _ Hv Hc) as Hsorted.
  destruct (in_split _ _ Inl) as (c1 & c2 & ->).
  unfold find_nearest.
  rewrite (find_nearest_few_unfold _ _ 1)
    by (first [exact (valid_target_finite _ _ Hv) | simpl; auto]).
  rewrite Hc. cbn [bind].
  rewrite nearest_one; [reflexivity| |].
  - (* candidates enumerated before the lower value are farther away *)
    intros y Hy.
    assert (Hylt : (y < yielded series_key d i)%Q).
    { apply (proj2 (sorted_app_inv _ _ Hsorted)); [exact Hy|].
      left. reflexivity. }
    rewrite Hyl in *. rewrite Qabs_neg by lra. rewrite Qabs_neg by lra. lra.
  - (* the ones after it are at least as far as the upper value *)
    intros y Hy.
    assert (Hygt : (yielded series_key d i < y)%Q).
    { destruct (sorted_app_inv _ _ Hsorted) as [Hs2 _].
      inversion Hs2 as [|? ? Hs Hall]; subst.
      rewrite Forall_forall in Hall. apply Hall. exact Hy. }
    destruct (erange_sound series_key _ _ _ y Hv Hc) as (d' & i' & Hi' & Ey & _).
    { apply in_or_app. right. right. exact Hy. }
    pose proof (yielded_value series_key d' i' Hi') as Hyv. rewrite <- Ey in Hyv.
    assert (Hup : (upper <= y)%Q).
    { rewrite Hyv. apply next_position_adjacent; try assumption.
      fold lower. rewrite <- Hyv, <- Hyl. exact Hygt. }
    rewrite Hyl. rewrite Qabs_neg by lra. rewrite Qabs_pos by lra. lra.
Qed.

(** ** The directional searches *)

(** [1e-200] is a positive finite value, but its search window starts
    below the minimum and the searches raise the invalid-range error
    instead of returning. *)
Lemma no_bounds_at_minimum : ~ ordering_bounds E12 (10 ^ (-200))%Q.
Proof.
  intros (le & ge & lt & gt & Hle & _).
  vm_compute in Hle. discriminate.
Qed.

Lemma first_such_test test candidates r :
  first_such test candidates = Ok r -> test r = true /\ In r candidates.
Proof.
  induction candidates as [|c l IH]; cbn [first_such]; [discriminate|].
  destruct (test c) eqn:E.
  - intros H. injection H as <-. split; [exact E | left; reflexivity].
  - intros H. destruct (IH H) as [Ht Hin]. split; [exact Ht | right; exact Hin].
Qed.

Lemma first_such_found test candidates x :
  In x candidates -> test x = true ->
  exists r, first_such test candidates = Ok r.
Proof.
  induction candidates as [|c l IH]; [intros []|].
  intros Hin Hx. cbn [first_such]. destruct (test c) eqn:E.
  - eexists. reflexivity.
  - destruct Hin as [->|Hin]; [congruence | apply IH; assumption].
Qed.

(** ** Which candidates are among the nearest *)

Lemma insert_by_perm {A : Type} (key : A -> Q) x l :
  Permutation (x :: l) (insert_by key x l).
Proof.
  induction l as [|y l IH]; cbn [insert_by]; [reflexivity|].
  destruct (Qle_bool (key x) (key y)); [reflexivity|].
  rewrite perm_swap. apply perm_skip. exact IH.
Qed.

Lemma sorted_by_perm {A : Type} (key : A -> Q) l :
  Permutation l (sorted_by key l).
Proof.
  induction l as [|x l IH]; [reflexivity|].
  cbn [sorted_by fold_right]. fold (sorted_by key l).
  rewrite <- insert_by_perm. apply perm_skip. exact IH.
Qed.

Lemma strongly_sorted_cross {A : Type} (R : A -> A -> Prop) l1 l2 :
  StronglySorted R (l1 ++ l2) ->
  forall x y, In x l1 -> In y l2 -> R x y.
Proof.
  induction l1 as [|a l1 IH]; cbn [app]; intros Hs x y Hx Hy; [destruct Hx|].
  inversion Hs as [|? ? Hs' Hall]; subst.
  destruct Hx as [<-|Hx]; [|apply IH; assumption].
  rewrite Forall_forall in Hall. apply Hall, in_or_app. right. exact Hy.
Qed.

(** In a list sorted by key, whatever is left out of the first [n] has a
    key at least as large as each of the first [n]. *)
Lemma sorted_firstn_le {A : Type} (key : A -> Q) L n e :
  Sorted (fun a b => (key a <= key b)%Q) L ->
  In e L -> ~ In e (firstn n L) ->
  forall y, In y (firstn n L) -> (key y <= key e)%Q.
Proof.
  intros Hs He Hne y Hy.
  apply Sorted_StronglySorted in Hs;
    [|intros a b c Hab Hbc; eapply Qle_trans; eassumption].
  rewrite <- (firstn_skipn n L) in Hs, He.
  apply in_app_or in He. destruct He as [He|He]; [contradiction|].
  apply (strongly_sorted_cross _ _ _ Hs y e Hy He).
Qed.

Lemma in_combine_seq {A : Type} (l : list A) d : forall s j x,
  In (j, x) (combine (seq s (length l)) l)
  <-> (s <= j < s + length l)%nat /\ nth (j - s) l d = x.
Proof.
  induction l as [|a l IH]; intros s j x; cbn [length seq combine].
  - split; [intros [] | intros [H _]; lia].
  - cbn [In]. rewrite IH. split.
    + intros [H|[H1 H2]].
      * injection H as <- <-. rewrite Nat.sub_diag. split; [lia | reflexivity].
      * split; [lia|]. replace (j - s)%nat with (S (j - S s)) by lia. exact H2.
    + intros [H1 H2]. destruct (Nat.eq_dec j s) as [->|Hne].
      * left. rewrite Nat.sub_diag in H2. cbn [nth] in H2. subst. reflexivity.
      * right. split; [lia|].
        replace (j - s)%nat with (S (j - S s)) in H2 by lia. exact H2.
Qed.

Lemma in_enumerate {A : Type} (l : list A) d j x :
  In (j, x) (enumerate l) <-> (j < length l)%nat /\ nth j l d = x.
Proof.
  unfold enumerate. rewrite (in_combine_seq l d 0 j x).
  rewrite Nat.sub_0_r. split; intros [H1 H2]; (split; [lia | exact H2]).
Qed.

Lemma map_fst_combine_seq {A : Type} (l : list A) s :
  map fst (combine (seq s (length l)) l) = seq s (length l).
Proof.
  revert s. induction l as [|a l IH]; intros s; [reflexivity|].
  cbn [length seq combine map fst]. rewrite IH. reflexivity.
Qed.

Lemma firstn_subset {A : Type} n (l : list A) x :
  In x (firstn n l) -> In x l.
Proof.
  intros H. rewrite <- (firstn_skipn n l). apply in_or_app. left. exact H.
Qed.

Lemma nearest_n_chosen candidates value n :
  _nearest_n candidates value n
  = sorted_by (fun c => c)
      (map (fun i => nth i candidates 0%Q) (map fst (chosen candidates value n))).
Proof. unfold _nearest_n, chosen. rewrite firstn_map. reflexivity. Qed.

Lemma chosen_spec candidates value n j dj :
  In (j, dj) (chosen candidates value n) ->
  (j < length candidates)%nat
  /\ dj = distance value (nth j candidates 0%Q).
Proof.
  unfold chosen. intros H. apply firstn_subset in H. apply sorted_by_In in H.
  apply (in_enumerate _ (distance value 0%Q)) in H.
  rewrite length_map in H. destruct H as [Hj Hd].
  split; [exact Hj|].
  rewrite (map_nth (distance value)) in Hd. symmetry. exact Hd.
Qed.

Lemma nearest_n_In candidates value n r :
  In r (_nearest_n candidates value n) <->
  exists j, In (j, distance value r) (chosen candidates value n)
            /\ r = nth j candidates 0%Q.
Proof.
  rewrite nearest_n_chosen. split.
  - intros H. apply sorted_by_In in H. apply in_map_iff in H.
    destruct H as (j & <- & Hj). apply in_map_iff in Hj.
    destruct Hj as ([j' dj] & <- & Hj). cbn [fst].
    exists j'. split; [|reflexivity].
    destruct (chosen_spec _ _ _ _ _ Hj) as [_ ->]. exact Hj.
  - intros (j & Hj & ->).
    apply (Permutation_in _ (sorted_by_perm (fun c => c) _)).
    apply in_map_iff. exists j. split; [reflexivity|].
    apply in_map_iff. exists (j, distance value (nth j candidates 0%Q)).
    split; [reflexivity | exact Hj].
Qed.

Lemma nearest_n_subset candidates value n r :
  In r (_nearest_n candidates value n) -> In r candidates.
Proof.
  intros H. apply nearest_n_In in H. destruct H as (j & Hj & ->).
  apply chosen_spec in Hj. apply nth_In. apply Hj.
Qed.

(** A candidate that is not selected is at least as far from the target as
    every selected one. *)
Lemma nearest_n_excluded candidates value n e :
  In e candidates -> ~ In e (_nearest_n candidates value n) ->
  forall r, In r (_nearest_n candidates value n) ->
            (distance value r <= distance value e)%Q.
Proof.
  intros He Hne r Hr.
  destruct (In_nth _ _ 0%Q He) as (j0 & Hj0 & Ej0).
  set (E := enumerate (map (distance value) candidates)).
  assert (HinE : In (j0, distance value e) E).
  { apply (in_enumerate _ (distance value 0%Q)). rewrite length_map.
    split; [exact Hj0|]. rewrite (map_nth (distance value)), Ej0. reflexivity. }
  assert (HinS : In (j0, distance value e) (sorted_by snd E)).
  { apply (Permutation_in _ (sorted_by_perm snd E)). exact HinE. }
  assert (Hout : ~ In (j0, distance value e) (chosen candidates value n)).
  { intros Hin. apply Hne. apply nearest_n_In. exists j0.
    split; [exact Hin | symmetry; exact Ej0]. }
  apply nearest_n_In in Hr. destruct Hr as (j & Hj & _).
  apply (sorted_firstn_le snd (sorted_by snd E) (Z.to_nat n)
                          (j0, distance value e)
                          (sorted_by_sorted snd E) HinS Hout
                          (j, distance value r) Hj).
Qed.

Lemma NoDup_firstn {A : Type} n (l : list A) : NoDup l -> NoDup (firstn n l).
Proof.
  intros H. rewrite <- (firstn_skipn n l) in H.
  apply NoDup_app_remove_r in H. exact H.
Qed.

Lemma nearest_n_NoDup candidates value n :
  NoDup candidates -> NoDup (_nearest_n candidates value n).
Proof.
  intros Hnd. rewrite nearest_n_chosen.
  apply (Permutation_NoDup (sorted_by_perm (fun c => c) _)).
  set (E := enumerate (map (distance value) candidates)).
  assert (Hidx : NoDup (map fst (chosen candidates value n))).
  { unfold chosen. fold E. rewrite <- firstn_map. apply NoDup_firstn.
    apply (Permutation_NoDup (Permutation_map fst (sorted_by_perm snd E))).
    unfold E, enumerate. rewrite map_fst_combine_seq. apply seq_NoDup. }
  apply NoDup_map_NoDup_ForallPairs; [|exact Hidx].
  intros i j Hi Hj Heq.
  apply in_map_iff in Hi. destruct Hi as ([i' di] & <- & Hi).
  apply in_map_iff in Hj. destruct Hj as ([j' dj] & <- & Hj).
  cbn [fst] in *.
  apply chosen_spec in Hi. apply chosen_spec in Hj.
  apply (proj1 (NoDup_nth candidates 0%Q) Hnd); [apply Hi | apply Hj | exact Heq].
Qed.

(** ** Gaps between neighbouring standard values *)

Lemma gap_facts_ok series_key : gap_facts series_key = true.
Proof. destruct series_key; vm_compute; reflexivity. Qed.

Lemma value_at_shift series_key e p :
  (value_at series_key (shift_position e p)
   == 10 ^ e * value_at series_key p)%Q.
Proof.
  unfold value_at, shift_position, std_value. cbn [fst snd].
  replace (fst p + e - series_decade series_key)
    with (e + (fst p - series_decade series_key)) by lia.
  rewrite p10_add. ring.
Qed.

Lemma next_position_shift series_key e p :
  next_position series_key (shift_position e p)
  = shift_position e (next_position series_key p).
Proof.
  destruct p as [d i]. unfold next_position, shift_position. cbn [fst snd].
  destruct (Nat.ltb (S i) (length (series series_key))); cbn [fst snd];
    f_equal; lia.
Qed.

Lemma prev_position_shift series_key e p :
  prev_position series_key (shift_position e p)
  = shift_position e (prev_position series_key p).
Proof.
  destruct p as [d i]. unfold prev_position, shift_position. cbn [fst snd].
  destruct i; cbn [fst snd]; f_equal; lia.
Qed.

Lemma position_as_shift (d : Z) (i : nat) : (d, i) = shift_position d (0, i).
Proof. reflexivity. Qed.

Lemma gap_below series_key d i :
  (i < length (series series_key))%nat ->
  let c := std_value series_key d i in
  let a := value_at series_key
             (prev_position series_key (prev_position series_key (d, i))) in
  let u := value_at series_key (next_position series_key (d, i)) in
  (u - c <= c - a)%Q
  \/ (a * a * GEOMETRIC_SCALE_E series_key ^ 3 < c * c)%Q.
Proof.
  intros Hi c a u.
  pose proof (gap_facts_ok series_key) as H. unfold gap_facts in H.
  rewrite forallb_forall in H. specialize (H i ltac:(apply in_seq; lia)).
  apply andb_prop in H. destruct H as [H _]. unfold gap_below_fact in H.
  cbv zeta in H.
  assert (Ec : (c == 10 ^ d * value_at series_key (0%Z, i))%Q).
  { unfold c. rewrite <- value_at_shift. reflexivity. }
  assert (Ea : (a == 10 ^ d * value_at series_key
                        (prev_position series_key
                           (prev_position series_key (0%Z, i))))%Q).
  { unfold a. rewrite (position_as_shift d i), !prev_position_shift.
    apply value_at_shift. }
  assert (Eu : (u == 10 ^ d * value_at series_key
                        (next_position series_key (0%Z, i)))%Q).
  { unfold u. rewrite (position_as_shift d i), next_position_shift.
    apply value_at_shift. }
  pose proof (p10_pos d) as Hp.
  set (c0 := value_at series_key (0, i)) in *.
  set (a0 := value_at series_key
                (prev_position series_key (prev_position series_key (0, i))))
    in *.
  set (u0 := value_at series_key (next_position series_key (0, i))) in *.
  apply orb_prop in H. destruct H as [H|H].
  - left. apply Qle_bool_iff in H. rewrite Ec, Ea, Eu.
    pose proof (proj2 (Qmult_le_l _ _ (10 ^ d)%Q Hp) H) as K. lra.
  - right. apply Qlt_bool_iff in H. rewrite Ec, Ea.
    set (s3 := (GEOMETRIC_SCALE_E series_key ^ 3)%Q) in *.
    assert (Hpp : (0 < 10 ^ d * 10 ^ d)%Q) by nra.
    assert ((10 ^ d * 10 ^ d * (a0 * a0 * s3) < 10 ^ d * 10 ^ d * (c0 * c0))%Q)
      by (apply Qmult_lt_l; assumption).
    lra.
Qed.

Lemma gap_above series_key d i :
  (i < length (series series_key))%nat ->
  let l := std_value series_key d i in
  let a1 := value_at series_key (next_position series_key (d, i)) in
  let a3 := value_at series_key
              (next_position series_key
                 (next_position series_key
                    (next_position series_key (d, i)))) in
  (a1 - l <= a3 - a1)%Q.
Proof.
  intros Hi l a1 a3.
  pose proof (gap_facts_ok series_key) as H. unfold gap_facts in H.
  rewrite forallb_forall in H. specialize (H i ltac:(apply in_seq; lia)).
  apply andb_prop in H. destruct H as [_ H]. unfold gap_above_fact in H.
  cbv zeta in H. apply Qle_bool_iff in H.
  assert (El : (l == 10 ^ d * value_at series_key (0%Z, i))%Q).
  { unfold l. rewrite <- value_at_shift. reflexivity. }
  assert (E1 : (a1 == 10 ^ d * value_at series_key
                         (next_position series_key (0%Z, i)))%Q).
  { unfold a1. rewrite (position_as_shift d i), next_position_shift.
    apply value_at_shift. }
  assert (E3 : (a3 == 10 ^ d * value_at series_key
                         (next_position series_key
                            (next_position series_key
                               (next_position series_key (0%Z, i)))))%Q).
  { unfold a3. rewrite (position_as_shift d i), !next_position_shift.
    apply value_at_shift. }
  pose proof (p10_pos d) as Hp.
  rewrite El, E1, E3.
  pose proof (proj2 (Qmult_le_l _ _ (10 ^ d)%Q Hp) H) as K. lra.
Qed.

Lemma prev_position_adjacent series_key d i d' i' :
  (i < length (series series_key))%nat ->
  (i' < length (series series_key))%nat ->
  (std_value series_key d' i' < std_value series_key d i)%Q ->
  (std_value series_key d' i'
   <= value_at series_key (prev_position series_key (d, i)))%Q.
Proof.
  intros Hi Hj Hlt.
  pose proof (std_value_lt_lex _ _ _ _ _ Hj Hi Hlt) as Hlex.
  unfold prev_position, value_at.
  destruct i as [|j]; cbn [fst snd]; apply std_value_le_lex; try lia.
Qed.

Lemma sorted_trichotomy (c : list Q) x y :
  StronglySorted Qlt c -> In x c -> In y c ->
  x = y \/ (x < y)%Q \/ (y < x)%Q.
Proof.
  induction 1 as [|a c Hs IH Hall]; intros Hx Hy; [destruct Hx|].
  rewrite Forall_forall in Hall.
  destruct Hx as [<-|Hx], Hy as [<-|Hy]; auto.
Qed.

Lemma sorted_distinct_lt (c : list Q) x y :
  StronglySorted Qlt c -> In x c -> In y c -> x <> y -> (x <= y)%Q ->
  (x < y)%Q.
Proof.
  intros Hs Hx Hy Hne Hle.
  destruct (sorted_trichotomy c x y Hs Hx Hy) as [H|[H|H]];
    [contradiction | exact H | exfalso; apply (Qlt_not_le _ _ H Hle)].
Qed.

Lemma sorted_NoDup (c : list Q) : StronglySorted Qlt c -> NoDup c.
Proof.
  induction 1 as [|a c Hs IH Hall]; constructor; [|exact IH].
  intros Hin. rewrite Forall_forall in Hall.
  apply (Qlt_irrefl a). apply Hall. exact Hin.
Qed.

(** The three nearest candidates, in ascending order. *)
Lemma nearest_three_shape series_key value c :
  valid_target series_key value ->
  erange series_key (window_start series_key value)
         (window_stop series_key value) = Ok c ->
  exists r1 r2 r3,
    _nearest_n c value 3 = [r1; r2; r3]
    /\ (r1 < r2)%Q /\ (r2 < r3)%Q.
Proof.
  intros Hv Hc.
  pose proof (erange_sorted _ _ _ _ Hv Hc) as Hs.
  destruct (candidates_at_least_three series_key value Hv) as (c' & Hc' & Hlen).
  rewrite Hc in Hc'. injection Hc' as <-.
  pose proof (nearest_n_length c value 3) as HlenT.
  pose proof (nearest_n_NoDup c value 3 (sorted_NoDup c Hs)) as Hnd.
  pose proof (nearest_n_sorted c value 3) as Hsorted.
  pose proof (nearest_n_subset c value 3) as Hsub.
  change (Z.to_nat 3) with 3%nat in HlenT.
  destruct (_nearest_n c value 3) as [|r1 [|r2 [|r3 [|r4 T]]]];
    cbn [length] in HlenT; try lia.
  exists r1, r2, r3. split; [reflexivity|].
  inversion Hsorted as [|? ? Hs23 Hhd1]; subst.
  inversion Hs23 as [|? ? _ Hhd2]; subst.
  inversion Hhd1; subst. inversion Hhd2; subst.
  inversion Hnd as [|? ? Hn1 Hnd']; subst.
  inversion Hnd' as [|? ? Hn2 _]; subst.
  split; apply (sorted_distinct_lt c); try assumption;
    try (apply Hsub; simpl; auto).
  - intros ->. apply Hn1. left. reflexivity.
  - intros ->. apply Hn2. left. reflexivity.
Qed.

Lemma candidate_standard series_key value c r :
  valid_target series_key value ->
  erange series_key (window_start series_key value)
         (window_stop series_key value) = Ok c ->
  In r c ->
  exists d i, (i < length (series series_key))%nat
              /\ (r == std_value series_key d i)%Q
              /\ in_range (window_start series_key value)
                          (window_stop series_key value) r.
Proof.
  intros Hv Hc Hr.
  destruct (erange_sound _ _ _ _ r Hv Hc Hr) as (d & i & Hi & -> & Hin).
  exists d, i. split; [exact Hi|]. split; [apply yielded_value; exact Hi | exact Hin].
Qed.

Lemma distance_below value r : (r <= value)%Q -> (distance value r == value - r)%Q.
Proof. intros H. unfold distance. rewrite Qabs_neg by lra. ring. Qed.

Lemma distance_above value r : (value <= r)%Q -> (distance value r == r - value)%Q.
Proof. intros H. unfold distance. rewrite Qabs_pos by lra. ring. Qed.

Lemma distance_compat value x y :
  (x == y)%Q -> (distance value x == distance value y)%Q.
Proof. intros H. unfold distance. rewrite H. reflexivity. Qed.

(** One of the three nearest candidates is at or above the target. *)
Lemma nearest_three_reach_up series_key value c :
  valid_target series_key value ->
  erange series_key (window_start series_key value)
         (window_stop series_key value) = Ok c ->
  exists r, In r (_nearest_n c value 3) /\ (value <= r)%Q.
Proof.
  intros Hv Hc.
  pose proof (valid_target_pos _ _ Hv) as Hpos.
  destruct (nearest_three_shape _ _ _ Hv Hc) as (r1 & r2 & r3 & HT & H12 & H23).
  destruct (Qlt_le_dec r3 value) as [Hr3|Hr3];
    [|exists r3; split; [rewrite HT; simpl; auto | exact Hr3]].
  exfalso.
  pose proof (nearest_n_subset c value 3) as Hsub. rewrite HT in Hsub.
  destruct (candidate_standard _ _ _ r1 Hv Hc ltac:(apply Hsub; simpl; auto))
    as (d1 & i1 & Hi1 & E1 & W1).
  destruct (candidate_standard _ _ _ r2 Hv Hc ltac:(apply Hsub; simpl; auto))
    as (d2 & i2 & Hi2 & E2 & _).
  destruct (candidate_standard _ _ _ r3 Hv Hc ltac:(apply Hsub; simpl; auto))
    as (d3 & i3 & Hi3 & E3 & _).
  destruct (floor_position series_key value Hpos) as (d & i & Hi & Hlv & Hvu).
  destruct (next_position_spec series_key d i Hi) as (Hui & Hlu & Hus).
  destruct (prev_position_spec series_key d i Hi) as (Hpi & Hpl & _).
  pose proof (std_value_pos series_key d i Hi) as Hl0.
  destruct (bracket_in_window series_key value _ _ (valid_target_finite _ _ Hv) Hl0 Hlv Hvu Hus) as [Wl Wu].
  pose proof (gap_below series_key d i Hi) as Hgap. cbv zeta in Hgap.
  set (l := std_value series_key d i) in *.
  set (pu := next_position series_key (d, i)) in *.
  set (u := value_at series_key pu) in *.
  set (pp := prev_position series_key (d, i)) in *.
  (* the three selected values sit at or below l, its predecessor and the
     one before *)
  assert (Hr3l : (r3 <= l)%Q).
  { destruct (Qlt_le_dec l r3) as [H|H]; [|exact H]. exfalso.
    rewrite E3 in H. apply next_position_adjacent in H; try assumption.
    fold pu u in H. rewrite <- E3 in H. lra. }
  assert (Hr2p : (r2 <= value_at series_key pp)%Q).
  { rewrite E2. apply prev_position_adjacent; try assumption.
    fold l. rewrite <- E2. lra. }
  destruct pp as [dp ip] eqn:Epp. unfold value_at in Hr2p, Hpl, Hpi.
  cbn [fst snd] in Hr2p, Hpl, Hpi.
  assert (Hr1a : (r1 <= value_at series_key
                          (prev_position series_key (dp, ip)))%Q).
  { rewrite E1. apply prev_position_adjacent; try assumption.
    rewrite <- E1. lra. }
  set (a := value_at series_key (prev_position series_key (dp, ip))) in *.
  assert (Hr10 : (0 < r1)%Q) by (rewrite E1; apply std_value_pos; exact Hi1).
  destruct (Qlt_le_dec l value) as [Hlt|Hge].
  - (* the target lies strictly above l: the next value u is a candidate *)
    destruct (erange_complete series_key _ _ (fst pu) (snd pu) Hv Hui Wu)
      as (c' & Hc' & Inu).
    rewrite Hc in Hc'. injection Hc' as <-.
    pose proof (yielded_value series_key (fst pu) (snd pu) Hui) as Eu.
    fold (value_at series_key pu) in Eu. fold u in Eu.
    set (e := yielded series_key (fst pu) (snd pu)) in *.
    assert (Hout : ~ In e (_nearest_n c value 3)).
    { rewrite HT. intros [H|[H|[H|[]]]]; rewrite <- H in Eu; lra. }
    pose proof (nearest_n_excluded c value 3 e Inu Hout r1
                  ltac:(rewrite HT; simpl; auto)) as Hd.
    rewrite (distance_below value r1) in Hd by lra.
    rewrite (distance_compat value e u Eu) in Hd.
    rewrite (distance_above value u) in Hd by lra.
    destruct Hgap as [Hgap|Hgap].
    + lra.
    + apply (in_window series_key value r1 (valid_target_finite _ _ Hv) Hpos Hr10) in W1.
      destruct W1 as [W1 _].
      set (s3 := (GEOMETRIC_SCALE_E series_key ^ 3)%Q) in *.
      assert (Hs3 : (0 < s3)%Q).
      { unfold s3. pose proof (scale_gt_1 series_key). simpl Qpower. nra. }
      assert (Hra : (r1 * r1 <= a * a)%Q) by (apply Qsq_le; lra).
      assert (Hll : (l * l <= value * value)%Q) by (apply Qsq_le; lra).
      assert ((r1 * r1 * s3 <= a * a * s3)%Q)
        by (apply Qmult_le_compat_r; lra).
      lra.
  - (* the target is the standard value l itself *)
    destruct (erange_complete series_key _ _ d i Hv Hi Wl) as (c' & Hc' & Inl).
    rewrite Hc in Hc'. injection Hc' as <-.
    pose proof (yielded_value series_key d i Hi) as El. fold l in El.
    set (e := yielded series_key d i) in *.
    assert (Hout : ~ In e (_nearest_n c value 3)).
    { rewrite HT. intros [H|[H|[H|[]]]]; rewrite <- H in El; lra. }
    pose proof (nearest_n_excluded c value 3 e Inl Hout r1
                  ltac:(rewrite HT; simpl; auto)) as Hd.
    rewrite (distance_below value r1) in Hd by lra.
    rewrite (distance_compat value e l El) in Hd.
    rewrite (distance_below value l) in Hd by lra.
    lra.
Qed.

(** One of the three nearest candidates is at or below the target. *)
Lemma nearest_three_reach_down series_key value c :
  valid_target series_key value ->
  erange series_key (window_start series_key value)
         (window_stop series_key value) = Ok c ->
  exists r, In r (_nearest_n c value 3) /\ (r <= value)%Q.
Proof.
  intros Hv Hc.
  pose proof (valid_target_pos _ _ Hv) as Hpos.
  destruct (nearest_three_shape _ _ _ Hv Hc) as (r1 & r2 & r3 & HT & H12 & H23).
  destruct (Qlt_le_dec value r1) as [Hr1|Hr1];
    [|exists r1; split; [rewrite HT; simpl; auto | exact Hr1]].
  exfalso.
  pose proof (nearest_n_subset c value 3) as Hsub. rewrite HT in Hsub.
  destruct (candidate_standard _ _ _ r1 Hv Hc ltac:(apply Hsub; simpl; auto))
    as (d1 & i1 & Hi1 & E1 & _).
  destruct (candidate_standard _ _ _ r2 Hv Hc ltac:(apply Hsub; simpl; auto))
    as (d2 & i2 & Hi2 & E2 & _).
  destruct (candidate_standard _ _ _ r3 Hv Hc ltac:(apply Hsub; simpl; auto))
    as (d3 & i3 & Hi3 & E3 & _).
  destruct (floor_position series_key value Hpos) as (d & i & Hi & Hlv & Hvu).
  destruct (next_position_spec series_key d i Hi) as (Hui & Hlu & Hus).
  pose proof (std_value_pos series_key d i Hi) as Hl0.
  destruct (bracket_in_window series_key value _ _ (valid_target_finite _ _ Hv) Hl0 Hlv Hvu Hus) as [Wl _].
  pose proof (gap_above series_key d i Hi) as Hgap. cbv zeta in Hgap.
  set (l := std_value series_key d i) in *.
  destruct (next_position series_key (d, i)) as [du iu] eqn:Epu.
  unfold value_at in Hui, Hlu, Hus, Hvu, Hgap. cbn [fst snd] in Hui, Hlu, Hus, Hvu.
  cbn [fst snd] in Hgap.
  set (u := std_value series_key du iu) in *.
  assert (Hr1u : (u <= r1)%Q).
  { assert (Hl1 : (std_value series_key d i < std_value series_key d1 i1)%Q)
      by (fold l; rewrite <- E1; lra).
    pose proof (next_position_adjacent series_key d i d1 i1 Hi Hi1 Hl1) as H.
    rewrite Epu in H. rewrite E1. exact H. }
  destruct (next_position_spec series_key du iu Hui) as (Hai & _ & _).
  assert (Hr2a : (value_at series_key (next_position series_key (du, iu))
                  <= r2)%Q).
  { rewrite E2. apply next_position_adjacent; try assumption.
    fold u. rewrite <- E2. lra. }
  destruct (next_position series_key (du, iu)) as [da ia] eqn:Epa.
  unfold value_at in Hr2a, Hai, Hgap. cbn [fst snd] in Hr2a, Hai, Hgap.
  assert (Hr3a : (value_at series_key (next_position series_key (da, ia))
                  <= r3)%Q).
  { rewrite E3. apply next_position_adjacent; try assumption.
    rewrite <- E3. lra. }
  set (a3 := value_at series_key (next_position series_key (da, ia))) in *.
  change (std_value series_key (fst (next_position series_key (da, ia)))
                    (snd (next_position series_key (da, ia))))
    with a3 in Hgap.
  destruct (erange_complete series_key _ _ d i Hv Hi Wl) as (c' & Hc' & Inl).
  rewrite Hc in Hc'. injection Hc' as <-.
  pose proof (yielded_value series_key d i Hi) as El. fold l in El.
  set (e := yielded series_key d i) in *.
  assert (Hout : ~ In e (_nearest_n c value 3)).
  { rewrite HT. intros [H|[H|[H|[]]]]; rewrite <- H in El; lra. }
  pose proof (nearest_n_excluded c value 3 e Inl Hout r3
                ltac:(rewrite HT; simpl; auto)) as Hd.
  rewrite (distance_above value r3) in Hd by lra.
  rewrite (distance_compat value e l El) in Hd.
  rewrite (distance_below value l) in Hd by lra.
  lra.
Qed.

(** A target strictly between two neighbouring standard values is not a
    standard value. *)
Lemma between_not_standard series_key value d i d' i' :
  (i < length (series series_key))%nat ->
  (i' < length (series series_key))%nat ->
  (std_value series_key d i < value)%Q ->
  (value < value_at series_key (next_position series_key (d, i)))%Q ->
  ~ (std_value series_key d' i' == value)%Q.
Proof.
  intros Hi Hj Hlo Hhi Heq.
  assert (Hlt : (std_value series_key d i < std_value series_key d' i')%Q)
    by (rewrite Heq; exact Hlo).
  pose proof (next_position_adjacent _ _ _ _ _ Hi Hj Hlt) as H.
  rewrite Heq in H. apply (Qlt_not_le _ _ Hhi H).
Qed.

(** In exact arithmetic, when the search window of the target is a valid range,
    [find_less_than_or_equal] and [find_greater_than_or_equal] return values
    on either side of the target; when the target moreover lies strictly
    between two neighbouring standard values, [find_less_than] and
    [find_greater_than] return values strictly on either side of it.  (What
    the strict searches do at a standard value is not stated here.) *)
Lemma ordering_bounds_in_window_exact series_key value :
  valid_target series_key value ->
  (exists le ge,
      find_less_than_or_equal series_key value = Ok le
      /\ find_greater_than_or_equal series_key value = Ok ge
      /\ (le <= value)%Q /\ (value <= ge)%Q)
  /\ (forall d i,
         (i < length (series series_key))%nat ->
         (std_value series_key d i < value)%Q ->
         (value < value_at series_key (next_position series_key (d, i)))%Q ->
         exists lt gt,
           find_less_than series_key value = Ok lt
           /\ find_greater_than series_key value = Ok gt
           /\ (lt < value)%Q /\ (value < gt)%Q).
Proof.
  intros Hv.
  destruct (erange_increasing series_key _ _ Hv) as (c & Hc & _ & _).
  destruct (nearest_three_reach_up _ _ _ Hv Hc) as (up & Hup & Hupv).
  destruct (nearest_three_reach_down _ _ _ Hv Hc) as (dn & Hdn & Hdnv).
  assert (Hfew : find_nearest_few series_key value 3
                 = Ok (_nearest_n c value 3)).
  { rewrite find_nearest_few_unfold
      by (first [exact (valid_target_finite _ _ Hv) | simpl; auto]). rewrite Hc. reflexivity. }
  split.
  - destruct (first_such_found (fun x => Qle_bool x value)
                (rev (_nearest_n c value 3)) dn)
      as (le & Hle); [apply in_rev in Hdn; exact Hdn | apply Qle_bool_iff; exact Hdnv|].
    destruct (first_such_found (fun x => Qle_bool value x)
                (_nearest_n c value 3) up)
      as (ge & Hge); [exact Hup | apply Qle_bool_iff; exact Hupv|].
    exists le, ge. unfold find_less_than_or_equal, find_greater_than_or_equal.
    rewrite Hfew. cbn [bind].
    split; [exact Hle|]. split; [exact Hge|].
    apply first_such_test in Hle. apply first_such_test in Hge.
    split; apply Qle_bool_iff; [apply Hle | apply Hge].
  - intros d i Hi Hlo Hhi.
    assert (Hstd : forall r, In r (_nearest_n c value 3) -> ~ (r == value)%Q).
    { intros r Hr Heq. apply nearest_n_subset in Hr.
      destruct (candidate_standard _ _ _ r Hv Hc Hr) as (d' & i' & Hi' & Er & _).
      apply (between_not_standard series_key value d i d' i' Hi Hi' Hlo Hhi).
      rewrite <- Er. exact Heq. }
    assert (Hup' : (value < up)%Q).
    { destruct (Qlt_le_dec value up) as [H|H]; [exact H|].
      exfalso. apply (Hstd up Hup). lra. }
    assert (Hdn' : (dn < value)%Q).
    { destruct (Qlt_le_dec dn value) as [H|H]; [exact H|].
      exfalso. apply (Hstd dn Hdn). lra. }
    destruct (first_such_found (fun x => Qlt_bool x value)
                (rev (_nearest_n c value 3)) dn)
      as (lt & Hlt); [apply in_rev in Hdn; exact Hdn | apply Qlt_bool_iff; exact Hdn'|].
    destruct (first_such_found (fun x => Qlt_bool value x)
                (_nearest_n c value 3) up)
      as (gt & Hgt); [exact Hup | apply Qlt_bool_iff; exact Hup'|].
    exists lt, gt. unfold find_less_than, find_greater_than.
    rewrite Hfew. cbn [bind].
    split; [exact Hlt|]. split; [exact Hgt|].
    apply first_such_test in Hlt. apply first_such_test in Hgt.
    split; apply Qlt_bool_iff; [apply Hlt | apply Hgt].
Qed.

(** ** One decade of standard values *)

Lemma std_value_lt_of_lex series_key d i d' i' :
  d < d' \/ (d = d' /\ (i < i')%nat) ->
  (i < length (series series_key))%nat ->
  (i' < length (series series_key))%nat ->
  (std_value series_key d i < std_value series_key d' i')%Q.
Proof.
  intros [Hd|[<- Hi']] Hi Hj.
  - apply entries_next_decade; assumption.
  - apply entries_same_decade. lia.
Qed.

Lemma std_value_le_lex_inv series_key d i d' i' :
  (i < length (series series_key))%nat ->
  (i' < length (series series_key))%nat ->
  (std_value series_key d i <= std_value series_key d' i')%Q ->
  d < d' \/ (d = d' /\ (i <= i')%nat).
Proof.
  intros Hi Hj Hle.
  destruct (Z.lt_trichotomy d d') as [H|[H|H]]; [left; exact H| |].
  - destruct (Nat.le_gt_cases i i') as [Hii|Hii]; [right; split; assumption|].
    exfalso. apply (Qle_not_lt _ _ Hle).
    apply std_value_lt_of_lex; [right; split; [symmetry; exact H | exact Hii] | | ];
      assumption.
  - exfalso. apply (Qle_not_lt _ _ Hle).
    apply std_value_lt_of_lex; [left; exact H | | ]; assumption.
Qed.

(** The least standard value not below a positive [v]. *)
Lemma ceil_position series_key v :
  (0 < v)%Q ->
  exists d i, (i < length (series series_key))%nat
              /\ (v <= std_value series_key d i)%Q
              /\ forall d' i', (i' < length (series series_key))%nat ->
                   (std_value series_key d' i' < std_value series_key d i)%Q ->
                   (std_value series_key d' i' < v)%Q.
Proof.
  intros Hv.
  destruct (floor_position series_key v Hv) as (d & i & Hi & Hlv & Hvu).
  destruct (next_position_spec series_key d i Hi) as (Hui & Hlu & _).
  destruct (Qlt_le_dec (std_value series_key d i) v) as [Hlt|Hge].
  - destruct (next_position series_key (d, i)) as [du iu] eqn:Epu.
    unfold value_at in *. cbn [fst snd] in *.
    exists du, iu. split; [exact Hui|]. split; [lra|].
    intros d' i' Hi' Hlt'.
    destruct (Qlt_le_dec (std_value series_key d i)
                         (std_value series_key d' i')) as [H|H]; [|lra].
    exfalso. pose proof (next_position_adjacent _ _ _ _ _ Hi Hi' H) as Hadj.
    rewrite Epu in Hadj. unfold value_at in Hadj. cbn [fst snd] in Hadj. lra.
  - exists d, i. split; [exact Hi|]. split; [exact Hge|].
    intros d' i' Hi' Hlt'. lra.
Qed.

Lemma in_range_of_Q a b x :
  (0 < a)%Q -> (0 < x)%Q ->
  in_range (of_Q a) (of_Q b) x <-> (a <= x)%Q /\ (x <= b)%Q.
Proof.
  intros Ha Hx. unfold of_Q. rewrite (in_range_Fin _ _ x Hx).
  rewrite (Qabs_pos a) by lra.
  split.
  - intros [H1 H2]. 
    assert (Hb : (0 < b)%Q).
    { destruct (Qlt_le_dec 0 b) as [H|H]; [exact H|]. exfalso.
      assert ((b * Qabs b <= 0)%Q).
      { pose proof (Qabs_nonneg b). nra. }
      nra. }
    rewrite (Qabs_pos b) in H2 by lra. split; nra.
  - intros [H1 H2]. rewrite (Qabs_pos b) by lra. split; nra.
Qed.

Lemma map_seq_sorted (f : nat -> Q) a n :
  (forall j j', (a <= j)%nat -> (j < j')%nat -> (j' < a + n)%nat ->
                (f j < f j')%Q) ->
  StronglySorted Qlt (map f (seq a n)).
Proof.
  revert a. induction n as [|n IH]; intros a Hf; cbn [seq map]; constructor.
  - apply IH. intros j j' H1 H2 H3. apply Hf; lia.
  - apply Forall_forall. intros x Hx. apply in_map_iff in Hx.
    destruct Hx as (j & <- & Hj). apply in_seq in Hj. apply Hf; lia.
Qed.

Lemma same_members_length (l1 l2 : list Q) :
  NoDup l1 -> NoDup l2 -> (forall x, In x l1 <-> In x l2) ->
  length l1 = length l2.
Proof.
  intros H1 H2 Hiff. apply Nat.le_antisymm; apply NoDup_incl_length;
    try assumption; intros x Hx; apply Hiff; exact Hx.
Qed.

Lemma decade_values_length series_key d i closed :
  (i < length (series series_key))%nat ->
  length (decade_values series_key d i closed)
  = (length (series series_key) + (if closed then 1 else 0))%nat.
Proof.
  intros Hi. unfold decade_values.
  rewrite !length_app, !length_map, !length_seq. destruct closed; simpl; lia.
Qed.

Lemma in_decade_values series_key d i closed x :
  In x (decade_values series_key d i closed) <->
  (exists j, (i <= j < length (series series_key))%nat
             /\ x = yielded series_key d j)
  \/ (exists j, (j < i)%nat /\ x = yielded series_key (d + 1) j)
  \/ (closed = true /\ x = yielded series_key (d + 1) i).
Proof.
  unfold decade_values. rewrite !in_app_iff, !in_map_iff. split.
  - intros [(j & <- & Hj)|[(j & <- & Hj)|H]].
    + left. exists j. apply in_seq in Hj. split; [lia | reflexivity].
    + right. left. exists j. apply in_seq in Hj. split; [lia | reflexivity].
    + right. right. destruct closed; [|destruct H].
      destruct H as [<-|[]]. split; reflexivity.
  - intros [(j & Hj & ->)|[(j & Hj & ->)|[-> ->]]].
    + left. exists j. split; [reflexivity | apply in_seq; lia].
    + right. left. exists j. split; [reflexivity | apply in_seq; lia].
    + right. right. left. reflexivity.
Qed.

Lemma yielded_lt_of_lex series_key d i d' i' :
  d < d' \/ (d = d' /\ (i < i')%nat) ->
  (i < length (series series_key))%nat ->
  (i' < length (series series_key))%nat ->
  (yielded series_key d i < yielded series_key d' i')%Q.
Proof.
  intros Hlex Hi Hj. rewrite !yielded_value by assumption.
  apply std_value_lt_of_lex; assumption.
Qed.

Lemma decade_values_sorted series_key d i closed :
  (i < length (series series_key))%nat ->
  StronglySorted Qlt (decade_values series_key d i closed).
Proof.
  intros Hi. unfold decade_values. apply sorted_app; [|apply sorted_app|].
  - apply map_seq_sorted. intros j j' H1 H2 H3.
    apply yielded_lt_of_lex; lia.
  - apply map_seq_sorted. intros j j' H1 H2 H3.
    apply yielded_lt_of_lex; lia.
  - destruct closed; repeat constructor.
  - intros x y Hx Hy. apply in_map_iff in Hx. destruct Hx as (j & <- & Hj).
    apply in_seq in Hj. destruct closed; [|destruct Hy].
    destruct Hy as [<-|[]]. apply yielded_lt_of_lex; lia.
  - intros x y Hx Hy. apply in_map_iff in Hx. destruct Hx as (j & <- & Hj).
    apply in_seq in Hj. apply in_app_or in Hy. destruct Hy as [Hy|Hy].
    + apply in_map_iff in Hy. destruct Hy as (j' & <- & Hj').
      apply in_seq in Hj'. apply yielded_lt_of_lex; lia.
    + destruct closed; [|destruct Hy]. destruct Hy as [<-|[]].
      apply yielded_lt_of_lex; lia.
Qed.

Lemma std_value_prev_decade series_key d i :
  (std_value series_key d i == 10 * std_value series_key (d - 1) i)%Q.
Proof.
  replace d with ((d - 1) + 1) at 1 by lia. apply std_value_next_decade.
Qed.

(** Over [[low, 10 * low]] the enumeration is one turn of the table from
    the least standard value not below [low]. *)
Lemma erange_decade_members series_key low l d i :
  (0 < low)%Q ->
  valid_range series_key (of_Q low) (of_Q (low * 10)) ->
  erange series_key (of_Q low) (of_Q (low * 10)) = Ok l ->
  (i < length (series series_key))%nat ->
  (low <= std_value series_key d i)%Q ->
  (forall d' i', (i' < length (series series_key))%nat ->
     (std_value series_key d' i' < std_value series_key d i)%Q ->
     (std_value series_key d' i' < low)%Q) ->
  forall x,
    In x l <->
    In x (decade_values series_key d i
            (Qle_bool (std_value series_key d i) low)).
Proof.
  intros Hlow Hv Hl Hi Hceil Hleast x.
  set (p := std_value series_key d i) in *.
  rewrite in_decade_values. split.
  - intros Hx.
    destruct (erange_sound _ _ _ _ x Hv Hl Hx) as (d' & i' & Hi' & -> & Hin).
    pose proof (yielded_value series_key d' i' Hi') as Ey.
    pose proof (std_value_pos series_key d' i' Hi') as Hpos.
    apply (in_range_compat _ _ _ _ Ey) in Hin.
    apply (in_range_of_Q low (low * 10) _ Hlow Hpos) in Hin.
    destruct Hin as [Hlo Hhi].
    set (v' := std_value series_key d' i') in *.
    assert (Hpv : (p <= v')%Q).
    { destruct (Qlt_le_dec v' p) as [H|H]; [|exact H].
      pose proof (Hleast d' i' Hi' H) as H'. fold v' in H'. lra. }
    apply std_value_le_lex_inv in Hpv; try assumption.
    pose proof (std_value_prev_decade series_key d' i') as Eprev. fold v' in Eprev.
    assert (Hqp : (std_value series_key (d' - 1) i' <= p)%Q) by lra.
    pose proof Hqp as Hqp'.
    apply std_value_le_lex_inv in Hqp'; try assumption.
    destruct (Z.eq_dec d' d) as [->|Hne].
    + left. exists i'. split; [lia | reflexivity].
    + assert (Hd : d' = d + 1) by lia. subst d'.
      destruct (Nat.eq_dec i' i) as [->|Hni].
      * right. right. split; [|reflexivity].
        apply Qle_bool_iff. replace (d + 1 - 1) with d in * by lia.
        fold p in Eprev. lra.
      * right. left. exists i'. split; [lia | reflexivity].
  - intros Hx.
    assert (Hin : exists d' i', (i' < length (series series_key))%nat
                   /\ x = yielded series_key d' i'
                   /\ (low <= std_value series_key d' i')%Q
                   /\ (std_value series_key d' i' <= low * 10)%Q).
    { destruct Hx as [(j & Hj & ->)|[(j & Hj & ->)|[Hc ->]]].
      - exists d, j. split; [lia|]. split; [reflexivity|]. split.
        + eapply Qle_trans; [exact Hceil|]. apply std_value_le_lex; lia.
        + rewrite std_value_prev_decade.
          assert ((std_value series_key (d - 1) j < low)%Q).
          { apply Hleast; [lia|]. apply std_value_lt_of_lex; lia. }
          lra.
      - exists (d + 1), j. split; [lia|]. split; [reflexivity|]. split.
        + eapply Qle_trans; [exact Hceil|]. apply std_value_le_lex; lia.
        + rewrite std_value_next_decade.
          assert ((std_value series_key d j < low)%Q).
          { apply Hleast; [lia|]. apply std_value_lt_of_lex; lia. }
          lra.
      - apply Qle_bool_iff in Hc.
        exists (d + 1), i. split; [exact Hi|]. split; [reflexivity|].
        rewrite std_value_next_decade. fold p. split; lra. }
    destruct Hin as (d' & i' & Hi' & -> & Hlo & Hhi).
    destruct (erange_complete series_key (of_Q low) (of_Q (low * 10)) d' i' Hv Hi')
      as (l' & Hl' & Hin').
    { apply in_range_of_Q; [exact Hlow | apply std_value_pos; exact Hi'|].
      split; assumption. }
    rewrite Hl in Hl'. injection Hl' as <-. exact Hin'.
Qed.

Lemma decade_end_standard series_key low d i :
  (0 < low)%Q ->
  (i < length (series series_key))%nat ->
  (low <= std_value series_key d i)%Q ->
  (forall d' i', (i' < length (series series_key))%nat ->
     (std_value series_key d' i' < std_value series_key d i)%Q ->
     (std_value series_key d' i' < low)%Q) ->
  is_standard series_key (low * 10)
  <-> Qle_bool (std_value series_key d i) low = true.
Proof.
  intros Hlow Hi Hceil Hleast. rewrite Qle_bool_iff. split.
  - intros (d' & i' & Hi' & E).
    rewrite std_value_prev_decade in E.
    destruct (Qlt_le_dec low (std_value series_key d i)) as [H|H]; [|exact H].
    exfalso.
    assert (Hw : (std_value series_key (d' - 1) i' == low)%Q) by lra.
    assert (Hlt : (std_value series_key (d' - 1) i' < std_value series_key d i)%Q)
      by lra.
    pose proof (Hleast (d' - 1) i' Hi' Hlt) as H'. lra.
  - intros H. exists (d + 1), i. split; [exact Hi|].
    rewrite std_value_next_decade. lra.
Qed.

Lemma valid_low_pos {series_key} low stop :
  valid_range series_key (of_Q low) stop -> (0 < low)%Q.
Proof.
  intros Hv. destruct (valid_range_inv _ _ Hv) as (S & T & HS & _ & HSpos & _).
  unfold of_Q in HS. injection HS as <-.
  destruct (Qlt_le_dec 0 low) as [H|H]; [exact H|]. exfalso.
  pose proof (Qabs_nonneg low). nra.
Qed.

(** ** Table entries come back unchanged *)

Lemma Qred_inject_Z z : Qred (inject_Z z) = inject_Z z.
Proof.
  unfold Qred, inject_Z.
  pose proof (Z.ggcd_gcd z 1) as Hg.
  pose proof (Z.ggcd_correct_divisors z 1) as Hd.
  destruct (Z.ggcd z 1) as [g [aa bb]]. cbn [fst snd] in *.
  rewrite Z.gcd_1_r in Hg. subst g. destruct Hd as [Ha Hb].
  rewrite Z.mul_1_l in Ha, Hb. subst. reflexivity.
Qed.

Lemma round_sig_reduced x figures :
  _round_sig x figures = Qred (_round_sig x figures).
Proof.
  unfold _round_sig. destruct (Qeq_bool x 0); [reflexivity|].
  unfold pyround. cbv zeta. apply Qred_complete. symmetry. apply Qred_correct.
Qed.

(** In the decade of the stored table, [erange] yields the table entry
    itself. *)
Lemma yielded_table series_key i :
  (i < length (series series_key))%nat ->
  yielded series_key (series_decade series_key) i
  = inject_Z (entry series_key i).
Proof.
  intros Hi. unfold yielded. rewrite round_sig_reduced.
  transitivity (Qred (inject_Z (entry series_key i)));
    [|apply Qred_inject_Z].
  apply Qred_complete. etransitivity.
  - apply round_sig_exact; [apply series_decade_nonneg|].
    apply series_bounds, nth_In, Hi.
  - rewrite Z.sub_diag. change (10 ^ 0)%Q with 1%Q. ring.
Qed.

Lemma scale_le_3 series_key : (GEOMETRIC_SCALE_E series_key <= 3)%Q.
Proof. destruct series_key; vm_compute; discriminate. Qed.

(** Targets of ordinary magnitude have a valid search window. *)
(** A positive target of at most [1e305] has a finite search window that
    stops below [1e306]. *)
Lemma window_stop_exact series_key v :
  (0 < v)%Q -> (v <= 10 ^ 305)%Q ->
  window_stop series_key v
  = Fin (v * Qabs v * GEOMETRIC_SCALE_E series_key ^ 3)
  /\ (v * Qabs v * GEOMETRIC_SCALE_E series_key ^ 3 <= 10 ^ 612)%Q.
Proof.
  intros Hv Hle.
  pose proof (scale_gt_1 series_key) as Hs.
  pose proof (scale_le_3 series_key) as Hs'.
  set (s := GEOMETRIC_SCALE_E series_key) in *.
  assert (Habs : (Qabs v == v)%Q) by (apply Qabs_pos; lra).
  assert (Hs3 : (1 <= s ^ 3)%Q) by (simpl Qpower; nra).
  assert (Hs3' : (s ^ 3 <= 27)%Q).
  { simpl Qpower. assert ((s * s <= 9)%Q) by nra. nra. }
  pose proof (p10_pos 305) as Hp.
  assert (H612 : (10 ^ 305 * 10 ^ 305 * 100 == 10 ^ 612)%Q).
  { change 100%Q with (10 ^ 2)%Q. rewrite <- !p10_add. reflexivity. }
  set (P := (10 ^ 305)%Q) in *. set (c := (s ^ 3)%Q) in *.
  assert (Hvv : (v * v <= P * P)%Q) by nra.
  assert (Hx : (0 <= v * Qabs v * c)%Q /\ (v * Qabs v * c <= 10 ^ 612)%Q).
  { rewrite Habs, <- H612.
    assert ((v * v * c <= P * P * c)%Q) by (apply Qmult_le_compat_r; lra).
    assert ((P * P * c <= P * P * 27)%Q) by (apply Qmult_le_l; [nra | lra]).
    split; nra. }
  split; [|apply Hx].
  unfold window_stop, pow_1_5, of_Q. cbn [nmul]. fold s. fold c.
  destruct (Qle_bool (overflow_threshold * overflow_threshold)
              (Qabs (v * Qabs v * c))) eqn:E; [|reflexivity].
  exfalso. apply Qle_bool_iff in E. rewrite Qabs_pos in E by apply Hx.
  assert (Ht : (10 ^ 612 < overflow_threshold * overflow_threshold)%Q)
    by (vm_compute; reflexivity).
  destruct Hx as [_ Hx]. lra.
Qed.

(** A target is valid when its window starts at [1e-200] or above and the
    target is at most [1e305]. *)
Lemma valid_target_intro series_key v :
  (0 < v)%Q ->
  (10 ^ (-200) * 10 ^ (-200) * GEOMETRIC_SCALE_E series_key ^ 3 <= v * v)%Q ->
  (v <= 10 ^ 305)%Q ->
  valid_target series_key v.
Proof.
  intros Hv Hlo Hhi.
  destruct (window_stop_exact series_key v Hv Hhi) as [Estop Hstop].
  pose proof (scale_gt_1 series_key) as Hs.
  set (s := GEOMETRIC_SCALE_E series_key) in *.
  assert (Habs : (Qabs v == v)%Q) by (apply Qabs_pos; lra).
  assert (Hs3 : (1 <= s ^ 3)%Q) by (simpl Qpower; nra).
  pose proof (p10_pos (-200)) as Hm0.
  assert (Hmabs : (Qabs (10 ^ (-200)) == 10 ^ (-200))%Q)
    by (apply Qabs_pos; lra).
  set (m := (10 ^ (-200))%Q) in *. set (c := (s ^ 3)%Q) in *.
  assert (Hvv : (0 < v * v)%Q) by nra.
  assert (Hmm : (0 < m * m)%Q) by nra.
  assert (Hstart : (m * m <= v * v / c)%Q)
    by (apply Qle_shift_div_l; lra).
  assert (Hup : (v * v <= v * v * c)%Q).
  { assert ((v * v * 1 <= v * v * c)%Q) by (apply Qmult_le_l; lra). lra. }
  assert (Hdn : (v * v / c <= v * v)%Q) by (apply Qle_shift_div_r; lra).
  assert (Hle : nle (window_stop series_key v) (of_Q (10 ^ 306)) = true).
  { rewrite Estop. unfold of_Q. cbn [nle]. apply Qle_bool_iff. fold s. fold c.
    rewrite p10_306_sq. exact Hstop. }
  unfold valid_target. apply valid_range_below; [|exact Hle].
  apply guards_pass_intro; try exact Hle; rewrite ?Estop;
    unfold window_start, pow_1_5, of_Q, _MINIMUM_E_VALUE;
    cbn [ndiv isfinite nlt nle of_Q]; fold s; fold c; fold m;
    try reflexivity.
  - destruct (Qlt_bool (v * Qabs v / c) (m * Qabs m)) eqn:E; [|reflexivity].
    apply Qlt_bool_iff in E. rewrite Habs, Hmabs in E. lra.
  - destruct (Qlt_bool (v * Qabs v * c) (m * Qabs m)) eqn:E; [|reflexivity].
    apply Qlt_bool_iff in E. rewrite Habs, Hmabs in E. lra.
  - apply Qle_bool_iff. rewrite Habs. lra.
Qed.

Lemma valid_target_between series_key v :
  (1 <= v)%Q -> (v <= 10 ^ 305)%Q -> valid_target series_key v.
Proof.
  intros Hlo Hhi. apply valid_target_intro; [lra | | exact Hhi].
  pose proof (scale_gt_1 series_key) as Hs.
  pose proof (scale_le_3 series_key) as Hs'.
  set (s := GEOMETRIC_SCALE_E series_key) in *.
  assert (Hs3' : (s ^ 3 <= 27)%Q).
  { simpl Qpower. assert ((s * s <= 9)%Q) by nra. nra. }
  assert (Hm : (10 ^ (-200) * 10 ^ (-200) < 1 # 27)%Q) by reflexivity.
  set (mm := (10 ^ (-200) * 10 ^ (-200))%Q) in *. set (c := (s ^ 3)%Q) in *.
  assert (H0 : (0 < mm)%Q) by reflexivity.
  assert (H1 : (mm * c <= mm * 27)%Q) by (apply Qmult_le_l; lra).
  assert (Hvv : (1 <= v * v)%Q) by nra.
  lra.
Qed.

Lemma first_such_at test l1 x l2 :
  (forall y, In y l1 -> test y = false) -> test x = true ->
  first_such test (l1 ++ x :: l2) = Ok x.
Proof.
  intros H1 Hx. induction l1 as [|a l1 IH]; cbn [app first_such].
  - rewrite Hx. reflexivity.
  - rewrite (H1 a (or_introl eq_refl)). apply IH.
    intros y Hy. apply H1. right. exact Hy.
Qed.

Lemma Q_eq_dec (x y : Q) : {x = y} + {x <> y}.
Proof. decide equality; [apply Pos.eq_dec | apply Z.eq_dec]. Qed.

(** A candidate equal to the target is among the three nearest, and the
    searches that admit equality return it. *)
Lemma exact_candidate_found series_key value c x :
  valid_target series_key value ->
  erange series_key (window_start series_key value)
         (window_stop series_key value) = Ok c ->
  In x c -> (x == value)%Q ->
  first_such (fun y => Qle_bool value y) (_nearest_n c value 3) = Ok x
  /\ first_such (fun y => Qle_bool y value) (rev (_nearest_n c value 3)) = Ok x.
Proof.
  intros Hv Hc Hx Ex.
  destruct (nearest_three_shape _ _ _ Hv Hc) as (r1 & r2 & r3 & HT & H12 & H23).
  assert (HxT : In x (_nearest_n c value 3)).
  { destruct (in_dec Q_eq_dec x (_nearest_n c value 3)) as [H|H]; [exact H|].
    exfalso.
    assert (Hd : forall r, In r (_nearest_n c value 3) -> (r == value)%Q).
    { intros r Hr. pose proof (nearest_n_excluded c value 3 x Hx H r Hr) as Hd.
      rewrite (distance_compat value x value Ex) in Hd.
      unfold distance in Hd. setoid_replace (value - value)%Q with 0%Q in Hd by ring.
      change (Qabs 0) with 0%Q in Hd.
      pose proof (Qabs_nonneg (r - value)) as H0.
      assert (Hz : (Qabs (r - value) == 0)%Q) by lra.
      destruct (Qlt_le_dec r value) as [Hlt|Hge].
      - rewrite Qabs_neg in Hz by lra. lra.
      - rewrite Qabs_pos in Hz by lra. lra. }
    rewrite HT in Hd.
    pose proof (Hd r1 ltac:(simpl; auto)). pose proof (Hd r2 ltac:(simpl; auto)).
    lra. }
  rewrite HT in HxT |- *.
  assert (Hle : forall y, (y < value)%Q -> Qle_bool value y = false).
  { intros y Hy. destruct (Qle_bool value y) eqn:E; [|reflexivity].
    apply Qle_bool_iff in E. lra. }
  assert (Hge : forall y, (value < y)%Q -> Qle_bool y value = false).
  { intros y Hy. destruct (Qle_bool y value) eqn:E; [|reflexivity].
    apply Qle_bool_iff in E. lra. }
  assert (Hxx : Qle_bool value x = true /\ Qle_bool x value = true)
    by (split; apply Qle_bool_iff; lra).
  destruct Hxx as [Hx1 Hx2].
  destruct HxT as [<-|[<-|[<-|[]]]]; cbn [rev app first_such];
    rewrite ?Hx1, ?Hx2, ?(Hle r1), ?(Hle r2), ?(Hge r2), ?(Hge r3) by lra;
    split; reflexivity.
Qed.

(** C4: for every series key and every entry [v] of its stored table,
    [find_nearest], [find_less_than_or_equal] and
    [find_greater_than_or_equal] each return exactly [v]. *)
Theorem C4_round_trip_membership (series_key : ESeries) (v : Z) :
  In v (series series_key) ->
  find_nearest series_key (inject_Z v) = Ok (inject_Z v)
  /\ find_less_than_or_equal series_key (inject_Z v) = Ok (inject_Z v)
  /\ find_greater_than_or_equal series_key (inject_Z v) = Ok (inject_Z v).
Proof.
  intros Hin. destruct (In_nth _ _ 0 Hin) as (i & Hi & Ei).
  fold (entry series_key i) in Ei. rewrite <- Ei.
  pose proof (yielded_table series_key i Hi) as Ey.
  pose proof (yielded_value series_key (series_decade series_key) i Hi) as Ev.
  rewrite Ey in Ev.
  set (value := inject_Z (entry series_key i)) in *.
  set (sd := series_decade series_key) in *.
  pose proof (std_value_pos series_key sd i Hi) as Hpos.
  assert (Hv : valid_target series_key value).
  { destruct (std_value_bounds series_key sd i Hi) as [Hlo Hhi].
    pose proof (p10_le 0 sd (series_decade_nonneg series_key)) as Hp.
    change (10 ^ 0)%Q with 1%Q in Hp.
    assert (Hsd : sd + 1 <= 305) by (unfold sd; destruct series_key; simpl; lia).
    pose proof (p10_le (sd + 1) 305 Hsd) as Hq.
    apply valid_target_between; lra. }
  destruct (next_position_spec series_key sd i Hi) as (_ & Hlu & Hus).
  assert (Hlv : (std_value series_key sd i <= value)%Q) by lra.
  assert (Hvu : (value < value_at series_key
                            (next_position series_key (sd, i)))%Q) by lra.
  destruct (bracket_in_window series_key value _ _ (valid_target_finite _ _ Hv) Hpos Hlv Hvu Hus)
    as [Wl _].
  destruct (erange_complete series_key _ _ sd i Hv Hi Wl) as (c & Hc & Inx).
  rewrite Ey in Inx.
  pose proof (erange_sorted _ _ _ _ Hv Hc) as Hsorted.
  assert (Hfew3 : find_nearest_few series_key value 3
                  = Ok (_nearest_n c value 3)).
  { rewrite find_nearest_few_unfold
      by (first [exact (valid_target_finite _ _ Hv) | simpl; auto]). rewrite Hc. reflexivity. }
  destruct (exact_candidate_found series_key value c value Hv Hc Inx
              ltac:(reflexivity)) as [Hge Hle].
  split; [|split].
  - unfold find_nearest.
    rewrite find_nearest_few_unfold
      by (first [exact (valid_target_finite _ _ Hv) | simpl; auto]). rewrite Hc. cbn [bind].
    destruct (in_split _ _ Inx) as (c1 & c2 & ->).
    rewrite nearest_one; [reflexivity| |].
    + intros y Hy.
      pose proof (proj2 (sorted_app_inv _ _ Hsorted) y value Hy
                        (or_introl eq_refl)) as Hlt.
      setoid_replace (value - value)%Q with 0%Q by ring.
      change (Qabs 0) with 0%Q. rewrite Qabs_neg by lra. lra.
    + intros y _. setoid_replace (value - value)%Q with 0%Q by ring.
      change (Qabs 0) with 0%Q. apply Qabs_nonneg.
  - unfold find_less_than_or_equal. rewrite Hfew3. cbn [bind]. exact Hle.
  - unfold find_greater_than_or_equal. rewrite Hfew3. cbn [bind]. exact Hge.
Qed.

Lemma C4_round_trip_membership_E3_22 :
  In 22 (series E3)
  /\ find_nearest E3 (inject_Z 22) = Ok (inject_Z 22)
  /\ find_less_than_or_equal E3 (inject_Z 22) = Ok (inject_Z 22)
  /\ find_greater_than_or_equal E3 (inject_Z 22) = Ok (inject_Z 22).
Proof.
  split; [simpl; auto | apply (C4_round_trip_membership E3 22); simpl; auto].
Defined.

(** * Further properties of the range enumerator *)

(** ** What [erange] returns and how it fails *)

Lemma erange_Ok_valid series_key start stop l :
  erange series_key start stop = Ok l -> valid_range series_key start stop.
Proof. intros H. exists l. exact H. Qed.

(** The standard values [erange] yields are exactly those of the range:
    membership, with the rounded representative [yielded]. *)
Lemma erange_members series_key start stop l x :
  erange series_key start stop = Ok l ->
  In x l <->
  exists d i, (i < length (series series_key))%nat
              /\ x = yielded series_key d i
              /\ in_range start stop x.
Proof.
  intros He. pose proof (erange_Ok_valid _ _ _ _ He) as Hv. split.
  - apply (erange_sound _ _ _ _ _ Hv He).
  - intros (d & i & Hi & -> & Hr).
    destruct (erange_complete series_key start stop d i Hv Hi)
      as (l' & Hl' & Hin).
    + apply (in_range_compat _ _ (yielded series_key d i)); [|exact Hr].
      apply yielded_value. exact Hi.
    + rewrite He in Hl'. injection Hl' as <-. exact Hin.
Qed.

(** Two strictly increasing lists with the same members are the same list. *)
Lemma sorted_same_members_eq (l1 : list Q) : forall l2,
  StronglySorted Qlt l1 -> StronglySorted Qlt l2 ->
  (forall x, In x l1 <-> In x l2) -> l1 = l2.
Proof.
  induction l1 as [|a l1 IH]; intros [|b l2] H1 H2 Hmem.
  - reflexivity.
  - exfalso. apply (proj2 (Hmem b)). left; reflexivity.
  - exfalso. apply (proj1 (Hmem a)). left; reflexivity.
  - apply StronglySorted_inv in H1 as [H1 Ha].
    apply StronglySorted_inv in H2 as [H2 Hb].
    rewrite Forall_forall in Ha, Hb.
    assert (Hab : a = b).
    { destruct (proj1 (Hmem a) (or_introl eq_refl)) as [E|E]; [symmetry; exact E|].
      destruct (proj2 (Hmem b) (or_introl eq_refl)) as [F|F]; [exact F|].
      apply Hb in E. apply Ha in F. exfalso. lra. }
    subst b. f_equal. apply IH; [exact H1 | exact H2|].
    intros x. split; intros Hx.
    + destruct (proj1 (Hmem x) (or_intror Hx)) as [E|E]; [|exact E].
      subst x. apply Ha in Hx. exfalso. lra.
    + destruct (proj2 (Hmem x) (or_intror Hx)) as [E|E]; [|exact E].
      subst x. apply Hb in Hx. exfalso. lra.
Qed.

Lemma filter_sorted (f : Q -> bool) (l : list Q) :
  StronglySorted Qlt l -> StronglySorted Qlt (filter f l).
Proof.
  induction 1 as [|a l Hs IH Ha]; cbn [filter]; [constructor|].
  destruct (f a); [|exact IH]. constructor; [exact IH|].
  rewrite Forall_forall in *. intros x Hx. apply filter_In in Hx. apply Ha, Hx.
Qed.

(** [x |-> x * |x|], the signed square, is increasing. *)
Lemma signed_square_le x y : (x <= y)%Q -> (x * Qabs x <= y * Qabs y)%Q.
Proof.
  intros H. destruct (Qlt_le_dec x 0) as [Hx|Hx]; destruct (Qlt_le_dec y 0) as [Hy|Hy].
  - rewrite (Qabs_neg x), (Qabs_neg y) by lra. nra.
  - rewrite (Qabs_neg x), (Qabs_pos y) by lra. nra.
  - exfalso. lra.
  - rewrite (Qabs_pos x), (Qabs_pos y) by lra. nra.
Qed.

Lemma signed_square_lt_inv x y : (x * Qabs x < y * Qabs y)%Q -> (x < y)%Q.
Proof.
  intros H. destruct (Qlt_le_dec x y) as [Hlt|Hge]; [exact Hlt|].
  apply signed_square_le in Hge. exfalso. lra.
Qed.

(** In exact arithmetic, whatever [erange] yields is a standard value of the series (a
    table entry times a power of ten) and lies within the bounds. *)
Lemma erange_yields_standard_values_exact series_key start stop l x :
  erange series_key start stop = Ok l -> In x l ->
  is_standard series_key x /\ in_range start stop x.
Proof.
  intros He Hx. apply (erange_members _ _ _ _ x He) in Hx.
  destruct Hx as (d & i & Hi & -> & Hr). split; [|exact Hr].
  exists d, i. split; [exact Hi | apply yielded_value; exact Hi].
Qed.

(** In exact arithmetic, no standard value of the range is missed: every table entry times a
    power of ten that lies within valid bounds is among the values yielded. *)
Lemma erange_yields_every_standard_value_exact series_key start stop x :
  valid_range series_key start stop ->
  is_standard series_key x -> in_range start stop x ->
  exists l y, erange series_key start stop = Ok l /\ In y l /\ (y == x)%Q.
Proof.
  intros Hv (d & i & Hi & Hx) Hr.
  destruct (erange_complete series_key start stop d i Hv Hi)
    as (l & Hl & Hin).
  - apply (in_range_compat _ _ x); assumption.
  - exists l, (yielded series_key d i). split; [exact Hl|]. split; [exact Hin|].
    rewrite Hx. apply yielded_value. exact Hi.
Qed.

(** How [erange] ends.  It returns; or one of its five argument checks
    fails with its [ValueError]; or it raises [OverflowError], for a bound
    or a table entry of the enumeration that is too large for binary64.
    The assertion [stop_index != 0] never fails and [_try_integral] never
    raises. *)
Lemma erange_outcomes series_key start stop :
  match erange series_key start stop with
  | Ok _ => guards_pass start stop
  | Raise (ValueError (NotFinite _ _))
  | Raise (ValueError (TooSmall _ _ _))
  | Raise (ValueError (StartAfterStop _ _)) => ~ guards_pass start stop
  | Raise OverflowError => True
  | Raise _ => False
  end.
Proof.
  destruct (too_large start) eqn:L1;
    [unfold erange; rewrite L1; exact I|].
  destruct (isfinite start) eqn:E1;
    [|unfold erange; rewrite L1, E1; cbn [negb];
      intros (H & _); congruence].
  destruct (too_large stop) eqn:L2;
    [unfold erange; rewrite L1, E1, L2; exact I|].
  destruct (isfinite stop) eqn:E2;
    [|unfold erange; rewrite L1, E1, L2, E2; cbn [negb];
      intros (_ & H & _); congruence].
  destruct (nlt start _MINIMUM_E_VALUE) eqn:E3;
    [unfold erange; rewrite L1, E1, L2, E2, E3; cbn [negb];
     intros (_ & _ & H & _); congruence|].
  destruct (nlt stop _MINIMUM_E_VALUE) eqn:E4;
    [unfold erange; rewrite L1, E1, L2, E2, E3, E4; cbn [negb];
     intros (_ & _ & _ & H & _); congruence|].
  destruct (nle start stop) eqn:E5;
    [|unfold erange; rewrite L1, E1, L2, E2, E3, E4, E5; cbn [negb];
      intros (_ & _ & _ & _ & H & _); congruence].
  assert (Hg : guards_pass start stop) by (repeat split; assumption).
  rewrite (erange_unfold _ _ _ Hg).
  destruct (guards_pass_inv _ _ Hg) as (S & T & -> & -> & _ & HT & _).
  pose proof (stop_index_nonzero series_key T HT) as Hnz.
  destruct (Nat.eqb_spec (snd (stop_position series_key (Fin T))) O);
    [contradiction|].
  destruct (erange_loop _ _ _ _ _ _ _ _ _) as [l|e] eqn:E; [exact Hg|].
  apply erange_loop_raise in E. subst e. exact I.
Qed.

(** ** Degenerate and adjoining ranges *)

Lemma erange_member_pos series_key start stop l y :
  erange series_key start stop = Ok l -> In y l -> (0 < y)%Q.
Proof.
  intros He Hy. apply (erange_members _ _ _ _ y He) in Hy.
  destruct Hy as (d & i & Hi & -> & _).
  rewrite yielded_value by exact Hi. apply std_value_pos. exact Hi.
Qed.

Lemma erange_point series_key x :
  valid_range series_key (of_Q x) (of_Q x) ->
  exists l, erange series_key (of_Q x) (of_Q x) = Ok l
            /\ ((is_standard series_key x /\ exists y, l = [y] /\ (y == x)%Q)
                \/ (~ is_standard series_key x /\ l = [])).
Proof.
  intros Hv. pose proof (valid_low_pos _ _ Hv) as Hx.
  destruct (erange_increasing series_key _ _ Hv) as (l & Hl & Hsorted & Hin).
  exists l. split; [exact Hl|].
  assert (Heq : forall y, In y l -> (y == x)%Q).
  { intros y Hy. pose proof (erange_member_pos _ _ _ _ _ Hl Hy) as Hpos.
    rewrite Forall_forall in Hin. apply Hin in Hy.
    apply in_range_of_Q in Hy; [lra | exact Hx | exact Hpos]. }
  destruct l as [|y [|z l]].
  - right. split; [|reflexivity]. intros (d & i & Hi & E).
    destruct (erange_complete series_key _ _ d i Hv Hi) as (l' & Hl' & Hm).
    + apply (in_range_compat _ _ x); [exact E|].
      apply in_range_of_Q; [exact Hx | exact Hx | lra].
    + rewrite Hl in Hl'. injection Hl' as <-. destruct Hm.
  - left. split; [|exists y; split; [reflexivity | apply Heq; left; reflexivity]].
    destruct (erange_sound _ _ _ _ y Hv Hl (or_introl eq_refl))
      as (d & i & Hi & E & _).
    exists d, i. split; [exact Hi|].
    rewrite <- (Heq y (or_introl eq_refl)), E. apply yielded_value. exact Hi.
  - exfalso. apply StronglySorted_inv in Hsorted as [_ Hy].
    rewrite Forall_forall in Hy. specialize (Hy z (or_introl eq_refl)).
    rewrite (Heq y), (Heq z) in Hy by (simpl; tauto). lra.
Qed.

Lemma erange_parts series_key start mid stop :
  valid_range series_key start mid -> valid_range series_key mid stop ->
  valid_range series_key start stop ->
  exists l1 l2 l,
    erange series_key start mid = Ok l1
    /\ erange series_key mid stop = Ok l2
    /\ erange series_key start stop = Ok l
    /\ l = l1 ++ filter (fun y => negb (nle (of_Q y) mid)) l2.
Proof.
  intros H1 H2 H3.
  destruct (erange_increasing series_key _ _ H1) as (l1 & E1 & S1 & _).
  destruct (erange_increasing series_key _ _ H2) as (l2 & E2 & S2 & _).
  destruct (erange_increasing series_key _ _ H3) as (l & E3 & S3 & _).
  exists l1, l2, l. repeat (split; [assumption|]).
  destruct (valid_range_inv _ _ H1) as (A & B & -> & -> & HA & HB & HAB).
  destruct (valid_range_inv _ _ H2) as (B' & C & HB' & -> & _ & HC & HBC).
  injection HB' as <-.
  apply sorted_same_members_eq; [exact S3| |].
  - apply sorted_app; [exact S1 | apply filter_sorted; exact S2|].
    intros x y Hx Hy. apply filter_In in Hy as [_ Hy].
    apply (erange_members _ _ _ _ x E1) in Hx.
    destruct Hx as (_ & _ & _ & _ & _ & Hx).
    unfold of_Q in Hx, Hy. cbn [nle] in Hx, Hy.
    apply Qle_bool_iff in Hx. apply negb_true_iff, Qle_bool_false in Hy.
    apply signed_square_lt_inv. lra.
  - intros x. rewrite in_app_iff, filter_In.
    rewrite (erange_members _ _ _ _ x E1), (erange_members _ _ _ _ x E2),
      (erange_members _ _ _ _ x E3).
    unfold in_range, of_Q. cbn [nle]. split.
    + intros (d & i & Hi & Ex & Hlo & Hhi).
      destruct (Qle_bool (x * Qabs x) B) eqn:E.
      * left. exists d, i. repeat split; assumption.
      * right. split; [|reflexivity]. exists d, i.
        repeat split; try assumption.
        apply Qle_bool_iff. apply Qle_bool_false in E. lra.
    + intros [(d & i & Hi & Ex & Hlo & Hhi)|[(d & i & Hi & Ex & Hlo & Hhi) _]];
        exists d, i; repeat split; try assumption; apply Qle_bool_iff;
        apply Qle_bool_iff in Hlo, Hhi; lra.
Qed.

(** * Further properties of the searches *)

(** ** The candidates of a search *)

Lemma find_nearest_few_Ok series_key value n l :
  find_nearest_few series_key value n = Ok l ->
  In n [1; 2; 3]
  /\ exists c, erange series_key (window_start series_key value)
                      (window_stop series_key value) = Ok c
               /\ l = _nearest_n c value n.
Proof.
  intros H. destruct (in_dec Z.eq_dec n [1; 2; 3]) as [Hn|Hn].
  - split; [exact Hn|]. rewrite find_nearest_few_count in H by exact Hn.
    destruct (overflows value); [discriminate|].
    destruct (erange series_key (window_start series_key value)
                     (window_stop series_key value)) as [c|e];
      cbn [bind] in H; [|discriminate].
    injection H as <-. exists c. split; reflexivity.
  - rewrite find_nearest_few_bad_count in H by exact Hn. discriminate.
Qed.

Lemma window_search series_key value :
  valid_target series_key value ->
  exists c, erange series_key (window_start series_key value)
                   (window_stop series_key value) = Ok c
            /\ StronglySorted Qlt c
            /\ (3 <= length c)%nat
            /\ forall n, In n [1; 2; 3] ->
                 find_nearest_few series_key value n
                 = Ok (_nearest_n c value n).
Proof.
  intros Hv.
  destruct (erange_increasing series_key _ _ Hv) as (c & Hc & Hs & _).
  destruct (candidates_at_least_three series_key value Hv) as (c' & Hc' & Hlen).
  rewrite Hc in Hc'. injection Hc' as <-.
  exists c. repeat (split; [assumption|]).
  intros n Hn. rewrite find_nearest_few_unfold
    by (first [exact (valid_target_finite _ _ Hv) | exact Hn]).
  rewrite Hc. reflexivity.
Qed.

(** A standard value inside the window is one of the candidates. *)
Lemma window_candidate series_key value c d i :
  erange series_key (window_start series_key value)
         (window_stop series_key value) = Ok c ->
  (i < length (series series_key))%nat ->
  in_range (window_start series_key value) (window_stop series_key value)
           (std_value series_key d i) ->
  In (yielded series_key d i) c.
Proof.
  intros Hc Hi Hr. apply (erange_members _ _ _ _ _ Hc).
  exists d, i. split; [exact Hi|]. split; [reflexivity|].
  apply (in_range_compat _ _ (std_value series_key d i)); [|exact Hr].
  symmetry. apply yielded_value. exact Hi.
Qed.

(** Every value between two neighbours that surround the target is inside
    the window. *)
Lemma in_window_between series_key v l u :
  isfinite (window_stop series_key v) = true ->
  forall x,
  (0 < l)%Q -> (l <= x)%Q -> (x <= u)%Q -> (l <= v)%Q -> (v <= u)%Q ->
  (u <= GEOMETRIC_SCALE_E series_key * l)%Q ->
  in_range (window_start series_key v) (window_stop series_key v) x.
Proof.
  intros Hfin x Hl Hlx Hxu Hlv Hvu Hus.
  pose proof (scale_gt_1 series_key) as Hs.
  set (s := GEOMETRIC_SCALE_E series_key) in *.
  apply in_window; [exact Hfin | lra | lra|]. fold s. simpl Qpower.
  assert (H1 : (v * v <= s * x * (s * x))%Q) by (apply Qsq_le; nra).
  assert (H2 : (x * x <= s * v * (s * v))%Q) by (apply Qsq_le; nra).
  assert (Hx2 : (0 < x * x)%Q) by nra.
  assert (Hv2 : (0 < v * v)%Q) by nra.
  assert (Hs2 : (1 < s * s)%Q) by nra.
  split.
  - assert ((s * x * (s * x) <= x * x * (s * s * s))%Q) by nra. lra.
  - assert ((s * v * (s * v) <= v * v * (s * s * s))%Q) by nra. lra.
Qed.

(** A candidate is either kept or no nearer than any value kept. *)
Lemma kept_or_farther c value n y r :
  In y c -> In r (_nearest_n c value n) ->
  In y (_nearest_n c value n) \/ (distance value r <= distance value y)%Q.
Proof.
  intros Hy Hr.
  destruct (in_dec Q_eq_dec y (_nearest_n c value n)) as [H|H];
    [left; exact H | right].
  apply (nearest_n_excluded c value n y Hy H r Hr).
Qed.

(** The standard values next to the target, below and above. *)
Lemma neighbours series_key v :
  (0 < v)%Q ->
  exists d i, (i < length (series series_key))%nat
    /\ (snd (next_position series_key (d, i)) < length (series series_key))%nat
    /\ (std_value series_key d i <= v)%Q
    /\ (v < value_at series_key (next_position series_key (d, i)))%Q
    /\ (value_at series_key (next_position series_key (d, i))
        <= GEOMETRIC_SCALE_E series_key * std_value series_key d i)%Q
    /\ (forall d' i', (i' < length (series series_key))%nat ->
          (std_value series_key d' i' <= std_value series_key d i)%Q
          \/ (value_at series_key (next_position series_key (d, i))
              <= std_value series_key d' i')%Q).
Proof.
  intros Hv.
  destruct (floor_position series_key v Hv) as (d & i & Hi & Hlo & Hhi).
  destruct (next_position_spec series_key d i Hi) as (Hn & _ & Hs).
  exists d, i. repeat (split; [assumption|]).
  intros d' i' Hi'.
  destruct (Qlt_le_dec (std_value series_key d i) (std_value series_key d' i'))
    as [H|H]; [right | left; exact H].
  apply next_position_adjacent; assumption.
Qed.

(** ** The nearest value *)

Lemma find_nearest_between series_key value :
  valid_target series_key value ->
  exists r d i,
    find_nearest series_key value = Ok r
    /\ is_standard series_key r
    /\ (i < length (series series_key))%nat
    /\ (std_value series_key d i <= value)%Q
    /\ (value < value_at series_key (next_position series_key (d, i)))%Q
    /\ (value_at series_key (next_position series_key (d, i))
        <= GEOMETRIC_SCALE_E series_key * std_value series_key d i)%Q
    /\ (forall d' i', (i' < length (series series_key))%nat ->
          (std_value series_key d' i' <= std_value series_key d i)%Q
          \/ (value_at series_key (next_position series_key (d, i))
              <= std_value series_key d' i')%Q)
    /\ (distance value r <= value - std_value series_key d i)%Q
    /\ (distance value r
        <= value_at series_key (next_position series_key (d, i)) - value)%Q.
Proof.
  intros Hv. pose proof (valid_target_pos _ _ Hv) as Hpos.
  destruct (window_search series_key value Hv) as (c & Hc & Hs & Hlen & Hfew).
  destruct (neighbours series_key value Hpos)
    as (d & i & Hi & Hn & Hlo & Hhi & Hsc & Hadj).
  pose proof (std_value_pos series_key d i Hi) as Hl.
  pose proof (nearest_n_length c value 1) as Hlen1.
  change (Z.to_nat 1) with 1%nat in Hlen1.
  destruct (_nearest_n c value 1) as [|r [|r' T]] eqn:En;
    cbn [length] in Hlen1; try lia.
  assert (Hr : In r (_nearest_n c value 1)) by (rewrite En; left; reflexivity).
  exists r, d, i. split.
  { unfold find_nearest. rewrite Hfew by (simpl; auto). rewrite En. reflexivity. }
  split.
  { pose proof (nearest_n_subset _ _ _ _ Hr) as Hrc.
    apply (erange_members _ _ _ _ _ Hc) in Hrc.
    destruct Hrc as (d' & i' & Hi' & -> & _).
    exists d', i'. split; [exact Hi' | apply yielded_value; exact Hi']. }
  repeat (split; [assumption|]).
  assert (Hnear : forall d' i', (i' < length (series series_key))%nat ->
            in_range (window_start series_key value)
                     (window_stop series_key value)
                     (std_value series_key d' i') ->
            (distance value r <= distance value (std_value series_key d' i'))%Q).
  { intros d' i' Hi' Hw.
    pose proof (window_candidate _ _ _ _ _ Hc Hi' Hw) as Hy.
    rewrite <- (distance_compat value _ _ (yielded_value series_key d' i' Hi')).
    destruct (kept_or_farther c value 1 _ r Hy Hr) as [H|H]; [|exact H].
    rewrite En in H. destruct H as [<-|[]]. lra. }
  split.
  - assert (H : (distance value r
                 <= distance value (std_value series_key d i))%Q).
    { apply Hnear; [exact Hi|].
      apply (in_window_between series_key value (std_value series_key d i)
               (value_at series_key (next_position series_key (d, i)))
               (valid_target_finite _ _ Hv)); lra. }
    rewrite (distance_below value (std_value series_key d i) Hlo) in H.
    exact H.
  - destruct (next_position series_key (d, i)) as [du iu].
    unfold value_at in *. cbn [fst snd] in *.
    assert (H : (distance value r
                 <= distance value (std_value series_key du iu))%Q).
    { apply Hnear; [exact Hn|].
      apply (in_window_between series_key value (std_value series_key d i)
               (std_value series_key du iu) (valid_target_finite _ _ Hv)); lra. }
    rewrite (distance_above value (std_value series_key du iu)) in H by lra.
    exact H.
Qed.

(** In exact arithmetic, [find_nearest] is right about the whole series, not just about its
    search window: it returns a standard value, and no standard value of the
    series, in any decade, is strictly nearer to the target. *)
Lemma find_nearest_is_nearest_exact series_key value :
  valid_target series_key value ->
  exists r, find_nearest series_key value = Ok r
            /\ is_standard series_key r
            /\ forall x, is_standard series_key x ->
                 (distance value r <= distance value x)%Q.
Proof.
  intros Hv.
  destruct (find_nearest_between series_key value Hv)
    as (r & d & i & Hr & Hstd & Hi & Hlo & Hhi & _ & Hadj & Hdl & Hdu).
  exists r. split; [exact Hr|]. split; [exact Hstd|].
  intros x (d' & i' & Hi' & Ex). rewrite (distance_compat value _ _ Ex).
  destruct (Hadj d' i' Hi') as [H|H].
  - rewrite (distance_below value (std_value series_key d' i')) by lra. lra.
  - rewrite (distance_above value (std_value series_key d' i')) by lra. lra.
Qed.

(** In exact arithmetic, the relative error of [find_nearest] is at most half the largest
    step of the series: [|r - value| <= (GEOMETRIC_SCALE_E - 1) / 2 * value]. *)
Lemma find_nearest_relative_error_exact series_key value :
  valid_target series_key value ->
  exists r, find_nearest series_key value = Ok r
            /\ (distance value r
                <= (GEOMETRIC_SCALE_E series_key - 1) / 2 * value)%Q.
Proof.
  intros Hv.
  destruct (find_nearest_between series_key value Hv)
    as (r & d & i & Hr & _ & Hi & Hlo & Hhi & Hsc & _ & Hdl & Hdu).
  exists r. split; [exact Hr|].
  pose proof (std_value_pos series_key d i Hi) as Hl.
  pose proof (scale_gt_1 series_key) as Hs.
  set (s := GEOMETRIC_SCALE_E series_key) in *.
  set (l := std_value series_key d i) in *.
  set (u := value_at series_key (next_position series_key (d, i))) in *.
  assert (H1 : ((s - 1) / 2 * value == (s * value - value) / 2)%Q) by field.
  rewrite H1.
  assert (H2 : (s * l - l <= s * value - value)%Q) by nra.
  apply Qle_shift_div_l; [lra|]. lra.
Qed.

(** ** The directional searches return the tightest bound *)

Lemma first_such_split test l r :
  first_such test l = Ok r ->
  exists l1 l2, l = l1 ++ r :: l2
                /\ (forall y, In y l1 -> test y = false) /\ test r = true.
Proof.
  induction l as [|a l IH]; cbn [first_such]; [discriminate|].
  destruct (test a) eqn:E.
  - intros H. injection H as <-. exists [], l.
    split; [reflexivity|]. split; [intros y []|exact E].
  - intros H. destruct (IH H) as (l1 & l2 & -> & H1 & H2).
    exists (a :: l1), l2. split; [reflexivity|]. split; [|exact H2].
    intros y [<-|Hy]; [exact E | apply H1; exact Hy].
Qed.

Lemma first_such_ext test1 test2 l :
  (forall y, In y l -> test1 y = test2 y) ->
  first_such test1 l = first_such test2 l.
Proof.
  induction l as [|a l IH]; intros H; cbn [first_such]; [reflexivity|].
  rewrite (H a) by (left; reflexivity). rewrite IH; [reflexivity|].
  intros y Hy. apply H. right. exact Hy.
Qed.

Lemma sorted_le_strong (l : list Q) : Sorted Qle l -> StronglySorted Qle l.
Proof. apply Sorted_StronglySorted. intros x y z. apply Qle_trans. Qed.

(** In an ascending list the first element that passes a test is the least
    one that does; scanning the list backwards gives the greatest. *)
Lemma first_such_least test l r x :
  Sorted Qle l -> first_such test l = Ok r ->
  In x l -> test x = true -> (r <= x)%Q.
Proof.
  intros Hs Hr Hx Ht. apply sorted_le_strong in Hs.
  destruct (first_such_split _ _ _ Hr) as (l1 & l2 & -> & H1 & _).
  apply in_app_or in Hx. destruct Hx as [Hx|[<-|Hx]].
  - apply H1 in Hx. congruence.
  - lra.
  - change (l1 ++ r :: l2) with (l1 ++ [r] ++ l2) in Hs.
    rewrite app_assoc in Hs.
    apply (strongly_sorted_cross _ _ _ Hs); [|exact Hx].
    apply in_or_app. right. left. reflexivity.
Qed.

Lemma first_such_greatest test l r x :
  Sorted Qle l -> first_such test (rev l) = Ok r ->
  In x l -> test x = true -> (x <= r)%Q.
Proof.
  intros Hs Hr Hx Ht. apply sorted_le_strong in Hs.
  destruct (first_such_split _ _ _ Hr) as (l1 & l2 & E & H1 & _).
  assert (El : l = rev l2 ++ r :: rev l1).
  { rewrite <- (rev_involutive l), E, rev_app_distr. cbn [rev].
    rewrite <- app_assoc. reflexivity. }
  rewrite El in Hs, Hx. apply in_app_or in Hx. destruct Hx as [Hx|[<-|Hx]].
  - apply (strongly_sorted_cross _ _ _ Hs); [exact Hx | left; reflexivity].
  - lra.
  - apply in_rev in Hx. apply H1 in Hx. congruence.
Qed.

Lemma greater_or_equal_least series_key value :
  valid_target series_key value ->
  exists r, find_greater_than_or_equal series_key value = Ok r
            /\ is_standard series_key r /\ (value <= r)%Q
            /\ forall x, is_standard series_key x -> (value <= x)%Q ->
                 (r <= x)%Q.
Proof.
  intros Hv. pose proof (valid_target_pos _ _ Hv) as Hpos.
  destruct (window_search series_key value Hv) as (c & Hc & Hs & _ & Hfew).
  destruct (ceil_position series_key value Hpos)
    as (d & i & Hi & Hceil & Hleast).
  destruct (neighbours series_key value Hpos)
    as (d0 & i0 & Hi0 & Hn & Hlo & Hhi & Hsc & _).
  pose proof (std_value_pos series_key d0 i0 Hi0) as Hl.
  destruct (next_position series_key (d0, i0)) as [du iu].
  unfold value_at in *. cbn [fst snd] in *.
  set (u := std_value series_key d i) in *.
  assert (Huw : in_range (window_start series_key value)
                         (window_stop series_key value) u).
  { apply (in_window_between series_key value (std_value series_key d0 i0)
             (std_value series_key du iu) (valid_target_finite _ _ Hv)); try lra.
    destruct (Qlt_le_dec (std_value series_key du iu) u) as [H|H]; [|exact H].
    apply Hleast in H; [lra | exact Hn]. }
  pose proof (window_candidate _ _ _ _ _ Hc Hi Huw) as Hy.
  pose proof (yielded_value series_key d i Hi) as Ey. fold u in Ey.
  set (y := yielded series_key d i) in *.
  assert (Hge : forall x, is_standard series_key x -> (value <= x)%Q ->
                          (u <= x)%Q).
  { intros x (dx & ix & Hix & Ex) Hx.
    destruct (Qlt_le_dec x u) as [H|H]; [|exact H].
    rewrite Ex in H. apply Hleast in H; [|exact Hix]. lra. }
  assert (Hstd : forall x, In x c -> is_standard series_key x).
  { intros x Hx. destruct (candidate_standard _ _ _ x Hv Hc Hx)
      as (dx & ix & Hix & Ex & _). exists dx, ix. split; assumption. }
  assert (Hin : In y (_nearest_n c value 3)).
  { destruct (nearest_three_reach_up _ _ _ Hv Hc) as (up & Hup & Hupv).
    destruct (kept_or_farther c value 3 y up Hy Hup) as [H|H]; [exact H|].
    pose proof (nearest_n_subset _ _ _ _ Hup) as Hupc.
    pose proof (Hge up (Hstd up Hupc) Hupv) as Huup.
    rewrite (distance_above value up Hupv) in H.
    rewrite (distance_above value y) in H by lra.
    destruct (sorted_trichotomy c up y Hs Hupc Hy) as [E|[E|E]];
      [rewrite <- E; exact Hup | lra | lra]. }
  destruct (first_such_found (fun x => Qle_bool value x)
              (_nearest_n c value 3) y Hin) as (r & Hr);
    [apply Qle_bool_iff; lra|].
  exists r. split.
  { unfold find_greater_than_or_equal. rewrite Hfew by (simpl; auto).
    exact Hr. }
  destruct (first_such_test _ _ _ Hr) as [Ht Hrin]. apply Qle_bool_iff in Ht.
  pose proof (Hstd r (nearest_n_subset _ _ _ _ Hrin)) as Hrs.
  split; [exact Hrs|]. split; [exact Ht|].
  intros x Hxs Hx.
  assert (Hry : (r <= y)%Q).
  { apply (first_such_least _ _ _ y (nearest_n_sorted c value 3) Hr Hin).
    apply Qle_bool_iff. lra. }
  pose proof (Hge x Hxs Hx). lra.
Qed.

Lemma less_or_equal_greatest series_key value :
  valid_target series_key value ->
  exists r, find_less_than_or_equal series_key value = Ok r
            /\ is_standard series_key r /\ (r <= value)%Q
            /\ forall x, is_standard series_key x -> (x <= value)%Q ->
                 (x <= r)%Q.
Proof.
  intros Hv. pose proof (valid_target_pos _ _ Hv) as Hpos.
  destruct (window_search series_key value Hv) as (c & Hc & Hs & _ & Hfew).
  destruct (neighbours series_key value Hpos)
    as (d & i & Hi & Hn & Hlo & Hhi & Hsc & Hadj).
  pose proof (std_value_pos series_key d i Hi) as Hl.
  set (l := std_value series_key d i) in *.
  set (u := value_at series_key (next_position series_key (d, i))) in *.
  assert (Hlw : in_range (window_start series_key value)
                         (window_stop series_key value) l).
  { apply (in_window_between series_key value l u (valid_target_finite _ _ Hv)); lra. }
  pose proof (window_candidate _ _ _ _ _ Hc Hi Hlw) as Hy.
  pose proof (yielded_value series_key d i Hi) as Ey. fold l in Ey.
  set (y := yielded series_key d i) in *.
  assert (Hle : forall x, is_standard series_key x -> (x <= value)%Q ->
                          (x <= l)%Q).
  { intros x (dx & ix & Hix & Ex) Hx.
    destruct (Hadj dx ix Hix) as [H|H]; lra. }
  assert (Hstd : forall x, In x c -> is_standard series_key x).
  { intros x Hx. destruct (candidate_standard _ _ _ x Hv Hc Hx)
      as (dx & ix & Hix & Ex & _). exists dx, ix. split; assumption. }
  assert (Hin : In y (_nearest_n c value 3)).
  { destruct (nearest_three_reach_down _ _ _ Hv Hc) as (dn & Hdn & Hdnv).
    destruct (kept_or_farther c value 3 y dn Hy Hdn) as [H|H]; [exact H|].
    pose proof (nearest_n_subset _ _ _ _ Hdn) as Hdnc.
    pose proof (Hle dn (Hstd dn Hdnc) Hdnv) as Hdl.
    rewrite (distance_below value dn Hdnv) in H.
    rewrite (distance_below value y) in H by lra.
    destruct (sorted_trichotomy c dn y Hs Hdnc Hy) as [E|[E|E]];
      [rewrite <- E; exact Hdn | lra | lra]. }
  destruct (first_such_found (fun x => Qle_bool x value)
              (rev (_nearest_n c value 3)) y) as (r & Hr);
    [apply in_rev in Hin; exact Hin | apply Qle_bool_iff; lra|].
  exists r. split.
  { unfold find_less_than_or_equal. rewrite Hfew by (simpl; auto).
    exact Hr. }
  destruct (first_such_test _ _ _ Hr) as [Ht Hrin]. apply Qle_bool_iff in Ht.
  apply in_rev in Hrin.
  pose proof (Hstd r (nearest_n_subset _ _ _ _ Hrin)) as Hrs.
  split; [exact Hrs|]. split; [exact Ht|].
  intros x Hxs Hx.
  assert (Hry : (y <= r)%Q).
  { apply (first_such_greatest _ _ _ y (nearest_n_sorted c value 3) Hr Hin).
    apply Qle_bool_iff. lra. }
  pose proof (Hle x Hxs Hx). lra.
Qed.

Lemma Qlt_bool_as_le x y : ~ (x == y)%Q -> Qlt_bool x y = Qle_bool x y.
Proof.
  intros Hne. unfold Qlt_bool.
  destruct (Qle_bool y x) eqn:E1; destruct (Qle_bool x y) eqn:E2;
    cbn [negb]; try reflexivity; exfalso.
  - apply Qle_bool_iff in E1, E2. apply Hne. lra.
  - apply Qle_bool_false in E1, E2. lra.
Qed.

(** In exact arithmetic, for a target strictly between two neighbouring standard values,
    [find_less_than] returns the lower neighbour and [find_greater_than]
    the upper one. *)
Lemma strict_searches_between_neighbours_exact series_key value d i :
  valid_target series_key value ->
  (i < length (series series_key))%nat ->
  (std_value series_key d i < value)%Q ->
  (value < value_at series_key (next_position series_key (d, i)))%Q ->
  exists lt gt,
    find_less_than series_key value = Ok lt
    /\ (lt == std_value series_key d i)%Q
    /\ find_greater_than series_key value = Ok gt
    /\ (gt == value_at series_key (next_position series_key (d, i)))%Q.
Proof.
  intros Hv Hi Hlo Hhi.
  destruct (window_search series_key value Hv) as (c & Hc & Hs & _ & Hfew).
  assert (Hne : forall r, In r (_nearest_n c value 3) -> ~ (r == value)%Q).
  { intros r Hr Heq. apply nearest_n_subset in Hr.
    destruct (candidate_standard _ _ _ r Hv Hc Hr) as (d' & i' & Hi' & Er & _).
    apply (between_not_standard series_key value d i d' i' Hi Hi' Hlo Hhi).
    rewrite <- Er. exact Heq. }
  assert (Elt : find_less_than series_key value
                = find_less_than_or_equal series_key value).
  { unfold find_less_than, find_less_than_or_equal.
    rewrite Hfew by (simpl; auto). cbn [bind]. apply first_such_ext.
    intros y Hy. apply in_rev in Hy. apply Qlt_bool_as_le, Hne, Hy. }
  assert (Egt : find_greater_than series_key value
                = find_greater_than_or_equal series_key value).
  { unfold find_greater_than, find_greater_than_or_equal.
    rewrite Hfew by (simpl; auto). cbn [bind]. apply first_such_ext.
    intros y Hy. apply Qlt_bool_as_le. intros E. apply (Hne y Hy).
    symmetry. exact E. }
  destruct (less_or_equal_greatest series_key value Hv)
    as (lt & Hlt & (dl & il & Hil & El) & Hltv & Hgreatest).
  destruct (greater_or_equal_least series_key value Hv)
    as (gt & Hgt & (dg & ig & Hig & Eg) & Hgtv & Hleast).
  destruct (next_position_spec series_key d i Hi) as (Hn & _ & _).
  exists lt, gt. rewrite Elt, Egt.
  split; [exact Hlt|]. split; [|split; [exact Hgt|]].
  - assert (H1 : (std_value series_key d i <= lt)%Q).
    { apply Hgreatest; [|lra]. exists d, i. split; [exact Hi | reflexivity]. }
    destruct (Qlt_le_dec (std_value series_key d i) lt) as [H|H]; [|lra].
    exfalso. rewrite El in H.
    pose proof (next_position_adjacent _ _ _ _ _ Hi Hil H). lra.
  - set (p := next_position series_key (d, i)) in *.
    assert (H1 : (gt <= value_at series_key p)%Q).
    { apply Hleast; [|lra]. exists (fst p), (snd p).
      split; [exact Hn | reflexivity]. }
    assert (H2 : (std_value series_key d i < std_value series_key dg ig)%Q)
      by lra.
    pose proof (next_position_adjacent _ _ _ _ _ Hi Hig H2) as H3.
    fold p in H3. lra.
Qed.

(** The strict searches at any target, standard or not. *)
Lemma greater_than_least series_key value r :
  find_greater_than series_key value = Ok r ->
  is_standard series_key r /\ (value < r)%Q
  /\ forall x, is_standard series_key x -> (value < x)%Q -> (r <= x)%Q.
Proof.
  unfold find_greater_than. intros H.
  destruct (find_nearest_few series_key value 3) as [three|e] eqn:F;
    cbn [bind] in H; [|discriminate].
  destruct (find_nearest_few_Ok _ _ _ _ F) as (_ & c & Hc & ->).
  pose proof (erange_Ok_valid _ _ _ _ Hc) as Hv.
  pose proof (valid_target_pos _ _ Hv) as Hpos.
  destruct (first_such_test _ _ _ H) as [Ht Hrin]. apply Qlt_bool_iff in Ht.
  destruct (candidate_standard _ _ _ r Hv Hc (nearest_n_subset _ _ _ _ Hrin))
    as (dr & ir & Hir & Er & _).
  destruct (neighbours series_key value Hpos)
    as (d & i & Hi & Hn & Hlo & Hhi & Hsc & Hadj).
  pose proof (std_value_pos series_key d i Hi) as Hl.
  destruct (next_position series_key (d, i)) as [du iu].
  unfold value_at in *. cbn [fst snd] in *.
  set (l := std_value series_key d i) in *.
  set (u := std_value series_key du iu) in *.
  assert (Huw : in_range (window_start series_key value)
                         (window_stop series_key value) u).
  { apply (in_window_between series_key value l u (valid_target_finite _ _ Hv)); lra. }
  pose proof (window_candidate _ _ _ _ _ Hc Hn Huw) as Hy.
  pose proof (yielded_value series_key du iu Hn) as Ey. fold u in Ey.
  set (y := yielded series_key du iu) in *.
  assert (Hur : (u <= r)%Q).
  { destruct (Hadj dr ir Hir) as [E|E]; lra. }
  assert (Hru : (r <= u)%Q).
  { destruct (kept_or_farther c value 3 y r Hy Hrin) as [Hin|Hd].
    - rewrite <- Ey.
      apply (first_such_least _ _ _ y (nearest_n_sorted c value 3) H Hin).
      apply Qlt_bool_iff. lra.
    - rewrite (distance_above value r) in Hd by lra.
      rewrite (distance_above value y) in Hd by lra. lra. }
  split; [exists dr, ir; split; assumption|]. split; [exact Ht|].
  intros x (dx & ix & Hix & Ex) Hx.
  destruct (Hadj dx ix Hix) as [E|E]; lra.
Qed.

Lemma less_than_greatest series_key value r :
  find_less_than series_key value = Ok r ->
  is_standard series_key r /\ (r < value)%Q
  /\ forall x, is_standard series_key x -> (x < value)%Q -> (x <= r)%Q.
Proof.
  unfold find_less_than. intros H.
  destruct (find_nearest_few series_key value 3) as [three|e] eqn:F;
    cbn [bind] in H; [|discriminate].
  destruct (find_nearest_few_Ok _ _ _ _ F) as (_ & c & Hc & ->).
  pose proof (erange_Ok_valid _ _ _ _ Hc) as Hv.
  pose proof (valid_target_pos _ _ Hv) as Hpos.
  destruct (first_such_test _ _ _ H) as [Ht Hrin]. apply Qlt_bool_iff in Ht.
  apply in_rev in Hrin.
  destruct (candidate_standard _ _ _ r Hv Hc (nearest_n_subset _ _ _ _ Hrin))
    as (dr & ir & Hir & Er & _).
  destruct (ceil_position series_key value Hpos)
    as (d & i & Hi & Hceil & Hleast).
  destruct (prev_position_spec series_key d i Hi) as (Hp & Hpl & Hps).
  assert (Hadj : forall dx ix, (ix < length (series series_key))%nat ->
            (std_value series_key dx ix < value)%Q ->
            (std_value series_key dx ix
             <= value_at series_key (prev_position series_key (d, i)))%Q).
  { intros dx ix Hix Hx. apply prev_position_adjacent; [exact Hi | exact Hix|].
    lra. }
  destruct (prev_position series_key (d, i)) as [dl il].
  unfold value_at in *. cbn [fst snd] in *.
  pose proof (std_value_pos series_key dl il Hp) as Hl.
  set (l := std_value series_key dl il) in *.
  set (u := std_value series_key d i) in *.
  assert (Hlv : (l < value)%Q) by (apply Hleast; assumption).
  assert (Hlw : in_range (window_start series_key value)
                         (window_stop series_key value) l).
  { apply (in_window_between series_key value l u (valid_target_finite _ _ Hv)); lra. }
  pose proof (window_candidate _ _ _ _ _ Hc Hp Hlw) as Hy.
  pose proof (yielded_value series_key dl il Hp) as Ey. fold l in Ey.
  set (y := yielded series_key dl il) in *.
  assert (Hrl : (r <= l)%Q).
  { rewrite Er. apply Hadj; [exact Hir | lra]. }
  assert (Hlr : (l <= r)%Q).
  { destruct (kept_or_farther c value 3 y r Hy Hrin) as [Hin|Hd].
    - rewrite <- Ey.
      apply (first_such_greatest _ _ _ y (nearest_n_sorted c value 3) H Hin).
      apply Qlt_bool_iff. lra.
    - rewrite (distance_below value r) in Hd by lra.
      rewrite (distance_below value y) in Hd by lra. lra. }
  split; [exists dr, ir; split; assumption|]. split; [exact Ht|].
  intros x (dx & ix & Hix & Ex) Hx.
  rewrite Ex in Hx |- *. pose proof (Hadj dx ix Hix Hx). lra.
Qed.

(** ** Selecting the nearest candidates *)

Lemma firstn_le_subset {A : Type} (l : list A) : forall n m x,
  (n <= m)%nat -> In x (firstn n l) -> In x (firstn m l).
Proof.
  induction l as [|a l IH]; intros n m x Hnm Hx.
  - rewrite firstn_nil in Hx. destruct Hx.
  - destruct n as [|n]; [destruct Hx|]. destruct m as [|m]; [lia|].
    cbn [firstn] in *. destruct Hx as [<-|Hx]; [left; reflexivity|].
    right. apply (IH n m); [lia | exact Hx].
Qed.

Lemma nearest_n_nested candidates value n m r :
  0 <= n <= m ->
  In r (_nearest_n candidates value n) -> In r (_nearest_n candidates value m).
Proof.
  intros Hnm Hr. apply nearest_n_In in Hr. destruct Hr as (j & Hj & Er).
  apply nearest_n_In. exists j. split; [|exact Er].
  unfold chosen in *. apply (firstn_le_subset _ (Z.to_nat n)); [lia | exact Hj].
Qed.

(** In exact arithmetic, asking for more neighbours only adds to the answer: the value
    [find_nearest] returns is one of the two that [find_nearest_few] returns
    for [num = 2], and these are among the three it returns for [num = 3]. *)
Lemma find_nearest_few_nested_exact series_key value :
  valid_target series_key value ->
  exists r l2 l3,
    find_nearest series_key value = Ok r
    /\ find_nearest_few series_key value 2 = Ok l2
    /\ find_nearest_few series_key value 3 = Ok l3
    /\ In r l2 /\ incl l2 l3.
Proof.
  intros Hv.
  destruct (window_search series_key value Hv) as (c & Hc & Hs & Hlen & Hfew).
  pose proof (nearest_n_length c value 1) as Hlen1.
  change (Z.to_nat 1) with 1%nat in Hlen1.
  destruct (_nearest_n c value 1) as [|r T] eqn:En;
    cbn [length] in Hlen1; [lia|].
  exists r, (_nearest_n c value 2), (_nearest_n c value 3).
  split.
  { unfold find_nearest. rewrite Hfew by (simpl; auto). rewrite En. reflexivity. }
  split; [apply Hfew; simpl; auto|]. split; [apply Hfew; simpl; auto|].
  split.
  - apply (nearest_n_nested c value 1 2); [lia|]. rewrite En. left. reflexivity.
  - intros x Hx. apply (nearest_n_nested c value 2 3); [lia | exact Hx].
Qed.

(** ** Which targets the searches accept *)

Lemma start_check_passes series_key value :
  nlt (window_start series_key value) _MINIMUM_E_VALUE = false ->
  (0 < value)%Q
  /\ (10 ^ (-200) * 10 ^ (-200) * GEOMETRIC_SCALE_E series_key ^ 3
      <= value * value)%Q.
Proof.
  pose proof (scale_gt_1 series_key) as Hs.
  pose proof (p10_pos (-200)) as Hm.
  unfold window_start, pow_1_5, _MINIMUM_E_VALUE, of_Q. cbn [ndiv nlt].
  set (s := GEOMETRIC_SCALE_E series_key) in *.
  set (m := (10 ^ (-200))%Q) in *.
  assert (Hma : (Qabs m == m)%Q) by (apply Qabs_pos; lra).
  assert (Hs3 : (1 < s ^ 3)%Q) by (simpl Qpower; nra).
  intros E.
  assert (H1 : (m * Qabs m <= value * Qabs value / s ^ 3)%Q).
  { destruct (Qlt_le_dec (value * Qabs value / s ^ 3) (m * Qabs m)) as [H|H];
      [|exact H]. apply Qlt_bool_iff in H. congruence. }
  rewrite Hma in H1.
  assert (H2 : (m * m * s ^ 3 <= value * Qabs value)%Q).
  { assert (Hd : (value * Qabs value
                  == value * Qabs value / s ^ 3 * s ^ 3)%Q) by (field; lra).
    rewrite Hd. apply Qmult_le_compat_r; lra. }
  assert (Hmm : (0 < m * m * s ^ 3)%Q) by nra.
  assert (Hpos : (0 < value)%Q).
  { destruct (Qlt_le_dec 0 value) as [H|H]; [exact H|]. exfalso.
    pose proof (Qabs_nonneg value). nra. }
  split; [exact Hpos|]. rewrite (Qabs_pos value) in H2 by lra. exact H2.
Qed.

Lemma valid_target_inv series_key value :
  valid_target series_key value ->
  (0 < value)%Q
  /\ (10 ^ (-200) * 10 ^ (-200) * GEOMETRIC_SCALE_E series_key ^ 3
      <= value * value)%Q.
Proof.
  intros Hv. destruct (valid_range_guards _ _ _ Hv) as (_ & _ & H3 & _).
  apply start_check_passes, H3.
Qed.

(** A target below the minimum, zero and negative ones included: the
    start-value check of [erange] rejects its window. *)
Lemma small_target_rejected series_key value :
  (- 10 ^ 305 <= value)%Q -> (value < 10 ^ (-200))%Q ->
  isfinite (window_stop series_key value) = true
  /\ erange series_key (window_start series_key value)
            (window_stop series_key value)
     = Raise (window_too_small series_key value).
Proof.
  intros Hlo Hhi.
  pose proof (scale_gt_1 series_key) as Hs.
  pose proof (scale_le_3 series_key) as Hs'.
  set (s := GEOMETRIC_SCALE_E series_key) in *.
  assert (Hs3 : (1 <= s ^ 3)%Q) by (simpl Qpower; nra).
  assert (Hs3' : (s ^ 3 <= 27)%Q).
  { simpl Qpower. assert ((s * s <= 9)%Q) by nra. nra. }
  pose proof (p10_pos 305) as Hp. pose proof (p10_pos (-200)) as Hm.
  assert (Hmp : (10 ^ (-200) <= 10 ^ 305)%Q) by (apply p10_le; lia).
  assert (Hmabs : (Qabs (10 ^ (-200)) == 10 ^ (-200))%Q)
    by (apply Qabs_pos; lra).
  assert (H612 : (10 ^ 305 * 10 ^ 305 * 100 == 10 ^ 612)%Q).
  { change 100%Q with (10 ^ 2)%Q. rewrite <- !p10_add. reflexivity. }
  assert (Ht : (10 ^ 612 < overflow_threshold * overflow_threshold)%Q)
    by (vm_compute; reflexivity).
  set (P := (10 ^ 305)%Q) in *. set (m := (10 ^ (-200))%Q) in *.
  set (c := (s ^ 3)%Q) in *.
  set (T2 := (overflow_threshold * overflow_threshold)%Q) in *.
  pose proof (Qabs_nonneg value) as Ha0.
  assert (Ha : (Qabs value <= P)%Q).
  { apply Qabs_Qle_condition. split; lra. }
  assert (Hsq : (Qabs value * Qabs value <= P * P)%Q) by nra.
  assert (Hstop_abs : (Qabs (value * Qabs value * c) <= 10 ^ 612)%Q).
  { rewrite !Qabs_Qmult, (Qabs_pos (Qabs value)), (Qabs_pos c) by lra.
    assert ((Qabs value * Qabs value * c <= P * P * c)%Q)
      by (apply Qmult_le_compat_r; lra).
    assert ((P * P * c <= P * P * 27)%Q) by (apply Qmult_le_l; [nra | lra]).
    nra. }
  assert (Hstart_abs : (Qabs (value * Qabs value / c) <= 10 ^ 612)%Q).
  { unfold Qdiv. rewrite !Qabs_Qmult, (Qabs_pos (Qabs value)) by lra.
    rewrite (Qabs_pos (/ c)) by (apply Qlt_le_weak, Qinv_lt_0_compat; lra).
    assert (H1 : (Qabs value * Qabs value * / c
                  <= Qabs value * Qabs value)%Q).
    { apply Qle_shift_div_r; [lra|]. nra. }
    nra. }
  assert (Estop : window_stop series_key value = Fin (value * Qabs value * c)).
  { unfold window_stop, pow_1_5, of_Q. cbn [nmul]. fold s. fold c. fold T2.
    destruct (Qle_bool T2 (Qabs (value * Qabs value * c))) eqn:E;
      [|reflexivity].
    exfalso. apply Qle_bool_iff in E. lra. }
  assert (Estart : window_start series_key value
                   = Fin (value * Qabs value / c)) by reflexivity.
  assert (Hlt : nlt (window_start series_key value) _MINIMUM_E_VALUE = true).
  { rewrite Estart. unfold _MINIMUM_E_VALUE, of_Q. cbn [nlt]. fold m.
    apply Qlt_bool_iff. rewrite Hmabs.
    apply Qlt_shift_div_r; [lra|].
    destruct (Qlt_le_dec value 0) as [Hn|Hn].
    - rewrite Qabs_neg by lra. nra.
    - rewrite Qabs_pos by lra.
      assert ((value * value < m * m)%Q) by nra.
      assert ((m * m * 1 <= m * m * c)%Q) by (apply Qmult_le_l; nra).
      lra. }
  split; [rewrite Estop; reflexivity|].
  unfold erange, window_too_small. rewrite Hlt. rewrite Estart, Estop.
  rewrite (not_too_large_abs _ Hstart_abs), (not_too_large_abs _ Hstop_abs).
  reflexivity.
Qed.

(** * Further properties of the helpers *)

(** ** The leftmost item at or above a value *)

Lemma sorted_nth_le (a : list Q) :
  StronglySorted Qle a ->
  forall i j, (i <= j < length a)%nat -> (nth i a 0 <= nth j a 0)%Q.
Proof.
  induction 1 as [|x a Hs IH Hx]; intros i j Hij; [simpl in Hij; lia|].
  destruct i as [|i], j as [|j]; cbn [nth]; cbn [length] in Hij; try lia.
  - apply Qle_refl.
  - rewrite Forall_forall in Hx. apply Hx, nth_In. lia.
  - apply IH. lia.
Qed.

(** X15: on an ascending list [find_ge] returns the leftmost item that is
    at or above [x]: every item before it is below [x].  It raises (here:
    returns [None]) exactly when every item is below [x], which includes
    the empty list. *)
Theorem find_ge_leftmost a x :
  Sorted Qle a ->
  (forall y, find_ge a x = Some y ->
     exists i, (i < length a)%nat /\ nth i a 0%Q = y /\ (x <= y)%Q
               /\ forall j, (j < i)%nat -> (nth j a 0%Q < x)%Q)
  /\ (find_ge a x = None <-> forall y, In y a -> (y < x)%Q).
Proof.
  intros Hs. apply sorted_le_strong in Hs.
  assert (Hmono : monotone_test (fun mid => Qlt_bool (nth mid a 0%Q) x)
                                (length a)).
  { intros i j Hij Hj H. apply Qlt_bool_iff in H. apply Qlt_bool_iff.
    pose proof (sorted_nth_le a Hs i j ltac:(lia)). lra. }
  destruct (bisect_loop_spec (length a) _ _ Hmono O (length a))
    as [Ht Hf]; [lia | lia | intros; lia | intros; lia|].
  pose proof (bisect_loop_range (length a)
                (fun mid => Qlt_bool (nth mid a 0%Q) x) O (length a)
                ltac:(lia)) as Hr.
  unfold find_ge, bisect_left_Q.
  set (i := bisect_loop (length a) (fun mid => Qlt_bool (nth mid a 0%Q) x)
              O (length a)) in *.
  destruct (Nat.eqb_spec i (length a)) as [E|E]; cbn [negb].
  - split; [intros y H; discriminate|]. split; [intros _ y Hy | reflexivity].
    apply In_nth with (d := 0%Q) in Hy. destruct Hy as (j & Hj & <-).
    apply Qlt_bool_iff, Ht. lia.
  - split.
    + intros y H. injection H as <-. exists i. split; [lia|].
      split; [reflexivity|]. split.
      * specialize (Hf i ltac:(lia)).
        destruct (Qlt_le_dec (nth i a 0%Q) x) as [H|H]; [|exact H].
        apply Qlt_bool_iff in H. congruence.
      * intros j Hj. apply Qlt_bool_iff, Ht, Hj.
    + split; [discriminate|]. intros Hall. exfalso.
      specialize (Hf i ltac:(lia)).
      assert (H : (nth i a 0%Q < x)%Q) by (apply Hall, nth_In; lia).
      apply Qlt_bool_iff in H. congruence.
Qed.

Lemma find_ge_leftmost_12 :
  Sorted Qle [10; 12; 15]%Q
  /\ find_ge [10; 12; 15]%Q 11 = Some 12%Q
  /\ (exists i, (i < length [10; 12; 15]%Q)%nat
                /\ nth i [10; 12; 15]%Q 0%Q = 12%Q /\ (11 <= 12)%Q
                /\ forall j, (j < i)%nat -> (nth j [10; 12; 15]%Q 0%Q < 11)%Q)
  /\ (find_ge [10; 12; 15]%Q 11 = None
      <-> forall y, In y [10; 12; 15]%Q -> (y < 11)%Q).
Proof.
  assert (Hs : Sorted Qle [10; 12; 15]%Q).
  { repeat constructor; discriminate. }
  assert (He : find_ge [10; 12; 15]%Q 11 = Some 12%Q) by reflexivity.
  destruct (find_ge_leftmost [10; 12; 15]%Q 11 Hs) as [Hsome Hnone].
  split; [exact Hs|]. split; [exact He|].
  split; [apply (Hsome _ He) | exact Hnone].
Defined.

(** ** Lookup by key *)

(** X16: [series] and [tolerance] accept the same keys, the seven series
    identifiers 3, 6, 12, 24, 48, 96 and 192.  For such a key they return
    the table of the series and a tolerance strictly between 0 and 1; for
    every other key both raise the [ValueError] that shows the key and
    lists the seven available series. *)
Theorem lookup_by_key key :
  (exists k, ESeries_value k = key
             /\ Keyed.series key = Keyed.Found (series k)
             /\ exists t, Keyed.tolerance key = Keyed.Found t
                          /\ (0 < t)%Q /\ (t < 1)%Q)
  \/ ((forall k, ESeries_value k <> key)
      /\ Keyed.series key = Keyed.NotFound key [E3; E6; E12; E24; E48; E96; E192]
      /\ Keyed.tolerance key
         = Keyed.NotFound key [E3; E6; E12; E24; E48; E96; E192]).
Proof.
  unfold Keyed.series, Keyed.tolerance, Keyed._E, Keyed._TOLERANCE, series_keys.
  cbn [map Keyed.getitem ESeries_value].
  destruct (Z.eqb_spec 3 key) as [<-|H3];
    [left; exists E3; split; [reflexivity|]; split; [reflexivity|];
     eexists; split; [reflexivity|]; split; reflexivity|].
  destruct (Z.eqb_spec 6 key) as [<-|H6];
    [left; exists E6; split; [reflexivity|]; split; [reflexivity|];
     eexists; split; [reflexivity|]; split; reflexivity|].
  destruct (Z.eqb_spec 12 key) as [<-|H12];
    [left; exists E12; split; [reflexivity|]; split; [reflexivity|];
     eexists; split; [reflexivity|]; split; reflexivity|].
  destruct (Z.eqb_spec 24 key) as [<-|H24];
    [left; exists E24; split; [reflexivity|]; split; [reflexivity|];
     eexists; split; [reflexivity|]; split; reflexivity|].
  destruct (Z.eqb_spec 48 key) as [<-|H48];
    [left; exists E48; split; [reflexivity|]; split; [reflexivity|];
     eexists; split; [reflexivity|]; split; reflexivity|].
  destruct (Z.eqb_spec 96 key) as [<-|H96];
    [left; exists E96; split; [reflexivity|]; split; [reflexivity|];
     eexists; split; [reflexivity|]; split; reflexivity|].
  destruct (Z.eqb_spec 192 key) as [<-|H192];
    [left; exists E192; split; [reflexivity|]; split; [reflexivity|];
     eexists; split; [reflexivity|]; split; reflexivity|].
  right. split; [|split; reflexivity].
  intros k. destruct k; cbn [ESeries_value]; assumption.
Qed.

(** ** Decade and mantissa *)

Lemma lraise_0 x : lraise 0 x = x.
Proof. reflexivity. Qed.

Lemma lraise_p10 s n : (lraise s (10 ^ n) == 10 ^ (n * 2 ^ Z.of_nat s))%Q.
Proof. unfold lraise. symmetry. apply Qpower_mult. Qed.

(** In exact arithmetic, [_decade_mantissa] splits a logarithm into a whole number of
    decades and a mantissa: the two add up to the value, and the mantissa
    lies in [[0, 1)]. *)
Lemma decade_mantissa_decomposes_exact value :
  (0 < lanti value)%Q ->
  leq (ladd (lint (fst (_decade_mantissa value)))
            (snd (_decade_mantissa value))) value = true
  /\ lle (lint 0) (snd (_decade_mantissa value)) = true
  /\ llt (snd (_decade_mantissa value)) (lint 1) = true.
Proof.
  destruct value as [s a]. cbn [lanti]. intros Ha.
  destruct (lfloor_spec s a Ha) as [Hlo Hhi].
  unfold _decade_mantissa. cbn [fst snd]. unfold lmod1.
  set (f := lfloor (LogN s a)) in *.
  unfold ladd, leq, lle, llt, lsub, lalign, lint. cbn [lscale lanti].
  cbv beta iota zeta. cbn [lscale lanti].
  rewrite ?Nat.max_0_r, ?Nat.max_0_l, ?Nat.max_id, ?Nat.sub_diag, ?Nat.sub_0_r.
  rewrite !lraise_0.
  pose proof (lraise_p10 s f) as HP.
  pose proof (lraise_p10 s 0) as H0.
  pose proof (lraise_p10 s 1) as H1.
  pose proof (p10_pos (f * 2 ^ Z.of_nat s)) as Hpos.
  set (P := lraise s (10 ^ f)) in *.
  set (P0 := lraise s (10 ^ 0)) in *.
  set (P1 := lraise s (10 ^ 1)) in *.
  rewrite Z.mul_0_l in H0. change (10 ^ 0)%Q with 1%Q in H0.
  replace ((f + 1) * 2 ^ Z.of_nat s) with (f * 2 ^ Z.of_nat s + 1 * 2 ^ Z.of_nat s)
    in Hhi by ring.
  rewrite p10_add in Hhi. rewrite <- HP, <- H1 in Hhi.
  rewrite <- HP in Hlo, Hpos.
  split; [|split].
  - apply Qeq_bool_iff. field. lra.
  - apply Qle_bool_iff. rewrite H0. apply Qle_shift_div_l; lra.
  - apply Qlt_bool_iff. apply Qlt_shift_div_r; lra.
Qed.


(** ** Integral logarithms *)

(** In exact arithmetic, [_try_integral] returns the exponent of every power of ten, and in
    general returns [z] only when its argument is the integer [z]; it raises
    its [ValueError] exactly when the argument is no integer at all. *)
Lemma try_integral_spec_exact :
  (forall k, _try_integral (log10 (of_Q (10 ^ k))) = Ok k)
  /\ (forall f, (0 < lanti f)%Q ->
        match _try_integral f with
        | Ok z => leq f (lint z) = true
        | Raise e => e = ValueError NotIntegral
                     /\ forall z, leq f (lint z) = false
        end).
Proof.
  split.
  - intros k. pose proof (p10_pos k) as Hp.
    assert (Hf : lfloor (log10 (of_Q (10 ^ k))) = k).
    { apply lfloor_log10_of_Q; [apply Qle_refl | apply p10_lt; lia]. }
    unfold _try_integral, is_integral. rewrite Hf.
    assert (E : leq (log10 (of_Q (10 ^ k))) (lint k) = true).
    { unfold leq, lalign, lint, log10, of_Q. cbn [lscale lanti Nat.max Nat.sub].
      rewrite lraise_0. unfold lraise. change (2 ^ Z.of_nat 1) with 2.
      apply Qeq_bool_iff. rewrite Qabs_pos by lra.
      change ((10 ^ k) ^ 2)%Q with (10 ^ k * 10 ^ k)%Q. reflexivity. }
    rewrite E. reflexivity.
  - intros [s a]. cbn [lanti]. intros Ha.
    unfold _try_integral, is_integral.
    destruct (leq (LogN s a) (lint (lfloor (LogN s a)))) eqn:E; cbn [negb].
    + exact E.
    + split; [reflexivity|]. intros z.
      destruct (leq (LogN s a) (lint z)) eqn:F; [|reflexivity]. exfalso.
      assert (Hz : lfloor (LogN s a) = z).
      { unfold leq, lalign, lint in F. cbn [lscale lanti] in F.
        cbv beta iota zeta in F.
        rewrite ?Nat.max_0_r, ?Nat.sub_diag, ?Nat.sub_0_r, lraise_0 in F.
        apply Qeq_bool_iff in F. rewrite lraise_p10 in F.
        pose proof (two_pow_pos s) as H2.
        apply lfloor_unique; rewrite F; [apply Qle_refl|].
        apply p10_lt. nia. }
      rewrite Hz in E. congruence.
Qed.


(** ** Rounding to significant figures *)

Lemma pyround_nearest x nd :
  exists n, (pyround x nd == inject_Z n / 10 ^ nd)%Q
            /\ (Qabs (inject_Z n - x * 10 ^ nd) <= 1 # 2)%Q.
Proof.
  unfold pyround. cbv zeta.
  set (y := (x * 10 ^ nd)%Q).
  pose proof (Qfloor_le y) as Hlo. pose proof (Qlt_floor y) as Hhi.
  rewrite inject_Z_plus in Hhi. change (inject_Z 1) with 1%Q in Hhi.
  set (f := Qfloor y) in *.
  destruct (Qlt_bool (y - inject_Z f) (1 # 2)) eqn:E1.
  - exists f. split; [apply Qred_correct|]. apply Qlt_bool_iff in E1.
    apply Qabs_case; intros; lra.
  - assert (H1 : ((1 # 2) <= y - inject_Z f)%Q).
    { destruct (Qlt_le_dec (y - inject_Z f) (1 # 2)) as [H|H]; [|exact H].
      apply Qlt_bool_iff in H. congruence. }
    destruct (Qlt_bool (1 # 2) (y - inject_Z f)) eqn:E2.
    + exists (f + 1). split; [apply Qred_correct|].
      rewrite inject_Z_plus. change (inject_Z 1) with 1%Q.
      apply Qabs_case; intros; lra.
    + assert (H2 : (y - inject_Z f <= 1 # 2)%Q).
      { destruct (Qlt_le_dec (1 # 2) (y - inject_Z f)) as [H|H]; [|exact H].
        apply Qlt_bool_iff in H. congruence. }
      destruct (Z.even f).
      * exists f. split; [apply Qred_correct|]. apply Qabs_case; intros; lra.
      * exists (f + 1). split; [apply Qred_correct|].
        rewrite inject_Z_plus. change (inject_Z 1) with 1%Q.
        apply Qabs_case; intros; lra.
Qed.

Lemma lfloor_log10_bounds q :
  (0 < q)%Q ->
  (10 ^ lfloor (log10 (of_Q q)) <= q)%Q
  /\ (q < 10 ^ (lfloor (log10 (of_Q q)) + 1))%Q.
Proof.
  intros Hq. unfold log10, of_Q.
  assert (Hqq : (0 < q * Qabs q)%Q) by (rewrite Qabs_pos by lra; nra).
  destruct (lfloor_spec 1 _ Hqq) as [Hlo Hhi].
  set (e := lfloor (LogN 1 (q * Qabs q))) in *.
  change (2 ^ Z.of_nat 1) with 2 in Hlo, Hhi.
  rewrite p10_sq in Hlo, Hhi. rewrite Qabs_pos in Hlo, Hhi by lra.
  pose proof (p10_pos e) as He. pose proof (p10_pos (e + 1)) as He1.
  split.
  - destruct (Qlt_le_dec q (10 ^ e)) as [H|H]; [|exact H]. exfalso.
    assert ((q * q < 10 ^ e * 10 ^ e)%Q) by (apply Qsq_lt; lra). lra.
  - destruct (Qlt_le_dec q (10 ^ (e + 1))) as [H|H]; [exact H|]. exfalso.
    assert ((10 ^ (e + 1) * 10 ^ (e + 1) <= q * q)%Q) by (apply Qsq_le; lra).
    lra.
Qed.

(** In exact arithmetic, for [x] other than zero, with [10 ^ e <= |x| < 10 ^ (e + 1)],
    [_round_sig x figures] is a whole multiple of [10 ^ (e + 1 - figures)],
    the unit of the last significant figure, and is within half that unit
    of [x]. *)
Lemma round_sig_accuracy_exact x figures :
  ~ (x == 0)%Q ->
  exists e n,
    (10 ^ e <= Qabs x)%Q /\ (Qabs x < 10 ^ (e + 1))%Q
    /\ (_round_sig x figures == inject_Z n * 10 ^ (e + 1 - figures))%Q
    /\ (Qabs (_round_sig x figures - x) <= 10 ^ (e + 1 - figures) / 2)%Q.
Proof.
  intros Hx.
  assert (Hq : (0 < Qabs x)%Q).
  { pose proof (Qabs_nonneg x) as H0.
    destruct (Qlt_le_dec 0 (Qabs x)) as [H|H]; [exact H|]. exfalso.
    apply Hx. destruct (Qlt_le_dec x 0) as [Hn|Hp].
    - rewrite Qabs_neg in H by lra. lra.
    - rewrite Qabs_pos in H by lra. lra. }
  destruct (lfloor_log10_bounds _ Hq) as [Hlo Hhi].
  unfold _round_sig.
  destruct (Qeq_bool x 0) eqn:E; [apply Qeq_bool_iff in E; contradiction|].
  set (e := lfloor (log10 (of_Q (Qabs x)))) in *.
  destruct (pyround_nearest x (figures - e - 1)) as (n & Hn & Hd).
  exists e, n. split; [exact Hlo|]. split; [exact Hhi|].
  pose proof (p10_pos (figures - e - 1)) as Hp.
  pose proof (p10_pos (e + 1 - figures)) as Hip.
  assert (Hone : (10 ^ (e + 1 - figures) * 10 ^ (figures - e - 1) == 1)%Q).
  { rewrite <- p10_add. replace (e + 1 - figures + (figures - e - 1)) with 0 by ring.
    reflexivity. }
  set (r := pyround x (figures - e - 1)) in *.
  set (p := (10 ^ (figures - e - 1))%Q) in *.
  set (ip := (10 ^ (e + 1 - figures))%Q) in *.
  assert (Hr : (r == inject_Z n * ip)%Q).
  { rewrite Hn. apply Qmult_inj_r with p; [lra|].
    transitivity (inject_Z n); [field; lra|].
    transitivity (inject_Z n * (ip * p))%Q; [rewrite Hone; ring | ring]. }
  split; [exact Hr|].
  assert (Hdiff : (r - x == (inject_Z n - x * p) * ip)%Q).
  { rewrite Hr. transitivity (inject_Z n * ip - x * (ip * p))%Q;
      [rewrite Hone; ring | ring]. }
  rewrite Hdiff, Qabs_Qmult, (Qabs_pos ip) by lra.
  assert (Hh : (ip / 2 == (1 # 2) * ip)%Q) by field. rewrite Hh.
  apply Qmult_le_compat_r; lra.
Qed.


(** In exact arithmetic, a positive number that has no more than [figures] significant
    digits, [t * 10 ^ e] with [10 ^ (figures - 1) <= t < 10 ^ figures],
    comes back from [_round_sig] unchanged. *)
Lemma round_sig_keeps_short_numbers_exact figures t e :
  1 <= figures -> 10 ^ (figures - 1) <= t < 10 ^ figures ->
  (_round_sig (inject_Z t * pow10 e) figures == inject_Z t * 10 ^ e)%Q.
Proof.
  intros Hf Ht.
  assert (H : 10 ^ (figures - 1) <= t < 10 ^ (figures - 1 + 1))
    by (replace (figures - 1 + 1) with figures by ring; exact Ht).
  pose proof (round_sig_exact (figures - 1) t e ltac:(lia) H) as Hr.
  replace (figures - 1 + 1) with figures in Hr by ring. exact Hr.
Qed.


(** * Further properties of the tables *)

(** X21: every table of [_E] has as many entries as the numeric identifier
    of its key, is strictly increasing, and covers exactly one decade: its
    entries lie in [[10 ^ d, 10 ^ (d + 1))] and the first one is [10 ^ d],
    so that the [_try_integral] call of [erange] returns [d] and never
    raises. *)
Theorem series_table_shape series_key :
  Z.of_nat (length (series series_key)) = ESeries_value series_key
  /\ StronglySorted Z.lt (series series_key)
  /\ (forall t, In t (series series_key) ->
        10 ^ series_decade series_key <= t
        < 10 ^ (series_decade series_key + 1))
  /\ nth 0 (series series_key) 0 = 10 ^ series_decade series_key
  /\ _try_integral (log10 (of_Z (nth 0 (series series_key) 0)))
     = Ok (series_decade series_key).
Proof.
  split; [apply series_length|]. split; [apply series_sorted|].
  split; [apply series_bounds|]. split; [apply series_first|].
  apply try_integral_first.
Qed.

(** X22: every table of [LOG10_MANTISSA_E] runs parallel to its series
    table, holds mantissas in [[0, 1)] and is strictly increasing, which is
    what the bisections of [erange] rely on. *)
Theorem mantissa_table_shape series_key :
  length (LOG10_MANTISSA_E series_key) = length (series series_key)
  /\ (forall i, (i < length (series series_key))%nat ->
        lle (lint 0) (nth i (LOG10_MANTISSA_E series_key) (lint 0)) = true
        /\ llt (nth i (LOG10_MANTISSA_E series_key) (lint 0)) (lint 1) = true)
  /\ (forall i j, (i < j < length (series series_key))%nat ->
        llt (nth i (LOG10_MANTISSA_E series_key) (lint 0))
            (nth j (LOG10_MANTISSA_E series_key) (lint 0)) = true).
Proof.
  split; [apply mantissa_length|]. split; [|apply mantissa_table_increasing].
  intros i Hi.
  destruct (mantissa_nth_mant series_key i Hi) as (m & -> & Hm).
  destruct (mant_bounds series_key i Hi) as [H1 H2].
  split.
  - change (lle (lint 0) (LogN 1 m)) with (Qle_bool 1 m).
    apply Qle_bool_iff. lra.
  - change (llt (LogN 1 m) (lint 1)) with (Qlt_bool m 100).
    apply Qlt_bool_iff. lra.
Qed.

Lemma Qmax_list_In l : forall d, Qmax_list d l = d \/ In (Qmax_list d l) l.
Proof.
  unfold Qmax_list. induction l as [|a l IH]; intros d; cbn [fold_left].
  - left. reflexivity.
  - destruct (Qlt_bool d a).
    + destruct (IH a) as [H|H]; right; [left; symmetry; exact H | right; exact H].
    + destruct (IH d) as [H|H]; [left; exact H | right; right; exact H].
Qed.

(** X23: [GEOMETRIC_SCALE_E] is a ratio of two adjacent table entries, and
    no step of the series is larger: from each standard value to the next
    one the factor is above 1 and at most [GEOMETRIC_SCALE_E], also across
    the end of a decade, which the computation of the scale does not
    look at. *)
Theorem geometric_scale_bounds_steps series_key :
  (exists a b, In (a, b) (adjacent_pairs (series series_key))
               /\ (inject_Z b
                   == GEOMETRIC_SCALE_E series_key * inject_Z a)%Q)
  /\ (forall d i, (i < length (series series_key))%nat ->
        (std_value series_key d i
         < value_at series_key (next_position series_key (d, i)))%Q
        /\ (value_at series_key (next_position series_key (d, i))
            <= GEOMETRIC_SCALE_E series_key * std_value series_key d i)%Q).
Proof.
  split.
  - pose proof (scale_gt_1 series_key) as Hs. unfold GEOMETRIC_SCALE_E in *.
    destruct (map (fun ab => (inject_Z (snd ab) / inject_Z (fst ab))%Q)
                  (adjacent_pairs (series series_key))) as [|r rs] eqn:E;
      [exfalso; lra|].
    assert (Hin : In (Qmax_list r rs) (r :: rs)).
    { destruct (Qmax_list_In rs r) as [H|H]; [left; symmetry; exact H|].
      right. exact H. }
    rewrite <- E in Hin. apply in_map_iff in Hin.
    destruct Hin as ([a b] & Hab & Hp). cbn [fst snd] in Hab.
    exists a, b. split; [exact Hp|].
    rewrite Qred_correct, <- Hab.
    assert (Ha : In a (series series_key)).
    { unfold adjacent_pairs in Hp. apply in_combine_l in Hp. exact Hp. }
    apply series_bounds in Ha.
    destruct (Z_bounds_Q _ a (series_decade_nonneg series_key) Ha) as [Hlo _].
    pose proof (p10_pos (series_decade series_key)). field. lra.
  - intros d i Hi.
    destruct (next_position_spec series_key d i Hi) as (_ & H1 & H2).
    split; assumption.
Qed.

(** * Decade periodicity *)

(** ** The enumeration repeats from decade to decade *)

Lemma next_decade_value y : (next_decade y == 10 * y)%Q.
Proof. apply Qred_correct. Qed.

Lemma next_decade_lt x y : (x < y)%Q -> (next_decade x < next_decade y)%Q.
Proof. intros H. rewrite !next_decade_value. lra. Qed.

Lemma yielded_reduced series_key d i :
  yielded series_key d i = Qred (yielded series_key d i).
Proof. apply round_sig_reduced. Qed.

Lemma yielded_next_decade series_key d i :
  (i < length (series series_key))%nat ->
  yielded series_key (d + 1) i = next_decade (yielded series_key d i).
Proof.
  intros Hi. rewrite (yielded_reduced series_key (d + 1) i).
  unfold next_decade. apply Qred_complete.
  rewrite !yielded_value by exact Hi. apply std_value_next_decade.
Qed.

Lemma map_sorted (g : Q -> Q) (l : list Q) :
  (forall x y, (x < y)%Q -> (g x < g y)%Q) ->
  StronglySorted Qlt l -> StronglySorted Qlt (map g l).
Proof.
  intros Hg. induction 1 as [|a l Hs IH Ha]; cbn [map]; constructor;
    [exact IH|].
  rewrite Forall_forall in *. intros y Hy. apply in_map_iff in Hy.
  destruct Hy as (x & <- & Hx). apply Hg, Ha, Hx.
Qed.

(** Two ranges of which the second holds the tenfold of every standard value
    of the first, and nothing else, are enumerated alike. *)
Lemma erange_scaled series_key start stop start' stop' :
  valid_range series_key start stop -> valid_range series_key start' stop' ->
  (forall d i, (i < length (series series_key))%nat ->
     in_range start stop (std_value series_key d i)
     <-> in_range start' stop' (std_value series_key (d + 1) i)) ->
  exists l, erange series_key start stop = Ok l
            /\ erange series_key start' stop' = Ok (map next_decade l).
Proof.
  intros Hv Hv' Hiff.
  destruct (erange_increasing series_key _ _ Hv) as (l & Hl & Hs & _).
  destruct (erange_increasing series_key _ _ Hv') as (l' & Hl' & Hs' & _).
  exists l. split; [exact Hl|]. rewrite Hl'. f_equal.
  apply sorted_same_members_eq;
    [exact Hs' | apply map_sorted; [apply next_decade_lt | exact Hs]|].
  intros x. rewrite (erange_members _ _ _ _ x Hl'), in_map_iff. split.
  - intros (d & i & Hi & -> & Hr).
    exists (yielded series_key (d - 1) i). split.
    + rewrite <- yielded_next_decade by exact Hi. f_equal. ring.
    + apply (erange_members _ _ _ _ _ Hl). exists (d - 1), i.
      split; [exact Hi|]. split; [reflexivity|].
      apply (in_range_compat _ _ (std_value series_key (d - 1) i));
        [symmetry; apply yielded_value; exact Hi|].
      apply Hiff; [exact Hi|]. replace (d - 1 + 1) with d by ring.
      apply (in_range_compat _ _ (yielded series_key d i));
        [apply yielded_value; exact Hi | exact Hr].
  - intros (y & <- & Hy). apply (erange_members _ _ _ _ _ Hl) in Hy.
    destruct Hy as (d & i & Hi & -> & Hr). exists (d + 1), i.
    split; [exact Hi|]. split; [symmetry; apply yielded_next_decade; exact Hi|].
    rewrite <- yielded_next_decade by exact Hi.
    apply (in_range_compat _ _ (std_value series_key (d + 1) i));
      [symmetry; apply yielded_value; exact Hi|].
    apply Hiff; [exact Hi|].
    apply (in_range_compat _ _ (yielded series_key d i));
      [apply yielded_value; exact Hi | exact Hr].
Qed.

Lemma signed_square_lt x y : (x < y)%Q -> (x * Qabs x < y * Qabs y)%Q.
Proof.
  intros H. destruct (Qlt_le_dec x 0) as [Hx|Hx]; destruct (Qlt_le_dec y 0) as [Hy|Hy].
  - rewrite (Qabs_neg x), (Qabs_neg y) by lra. nra.
  - rewrite (Qabs_neg x), (Qabs_pos y) by lra. nra.
  - exfalso. lra.
  - rewrite (Qabs_pos x), (Qabs_pos y) by lra. nra.
Qed.

Lemma guards_pass_of_Q_inv a b :
  guards_pass (of_Q a) (of_Q b) ->
  (10 ^ (-200) <= a)%Q /\ (a <= b)%Q.
Proof.
  unfold guards_pass, _MINIMUM_E_VALUE, of_Q. cbn [isfinite nlt nle].
  set (m := (10 ^ (-200))%Q) in *.
  intros (_ & _ & H3 & _ & H5 & _). apply Qle_bool_iff in H5. split.
  - destruct (Qlt_le_dec a m) as [H|H]; [|exact H]. exfalso.
    apply signed_square_lt, Qlt_bool_iff in H. congruence.
  - destruct (Qlt_le_dec b a) as [H|H]; [|exact H]. exfalso.
    apply signed_square_lt in H. lra.
Qed.

Lemma guards_pass_of_Q_intro a b :
  (10 ^ (-200) <= a)%Q -> (a <= b)%Q -> (b <= 10 ^ 306)%Q ->
  guards_pass (of_Q a) (of_Q b).
Proof.
  intros H1 H2 H3.
  pose proof (signed_square_le _ a H1) as S1.
  pose proof (signed_square_le a b H2) as S2.
  apply guards_pass_intro; try reflexivity;
    unfold _MINIMUM_E_VALUE, of_Q; cbn [nlt nle].
  - destruct (Qlt_bool _ _) eqn:E; [|reflexivity].
    apply Qlt_bool_iff in E. lra.
  - destruct (Qlt_bool _ _) eqn:E; [|reflexivity].
    apply Qlt_bool_iff in E. lra.
  - apply Qle_bool_iff. exact S2.
  - apply Qle_bool_iff, signed_square_le, H3.
Qed.

Lemma valid_range_of_Q_intro series_key a b :
  (10 ^ (-200) <= a)%Q -> (a <= b)%Q -> (b <= 10 ^ 306)%Q ->
  valid_range series_key (of_Q a) (of_Q b).
Proof.
  intros H1 H2 H3. apply valid_range_below.
  - apply guards_pass_of_Q_intro; assumption.
  - unfold of_Q. cbn [nle]. apply Qle_bool_iff, signed_square_le, H3.
Qed.

Lemma valid_range_of_Q_inv {series_key} a b :
  valid_range series_key (of_Q a) (of_Q b) ->
  (10 ^ (-200) <= a)%Q /\ (a <= b)%Q.
Proof.
  intros Hv. apply guards_pass_of_Q_inv, (valid_range_guards _ _ _ Hv).
Qed.

(** In exact arithmetic, the series repeats from decade to decade.  Moving both ends of a
    valid range up by one decade moves every value yielded up by one
    decade: [erange] over [[10 * start, 10 * stop]] yields ten times the
    values it yields over [[start, stop]], in the same order. *)
Lemma erange_next_decade_exact series_key start stop :
  valid_range series_key (of_Q start) (of_Q stop) ->
  (10 * stop <= 10 ^ 306)%Q ->
  exists l, erange series_key (of_Q start) (of_Q stop) = Ok l
            /\ erange series_key (of_Q (10 * start)) (of_Q (10 * stop))
               = Ok (map next_decade l).
Proof.
  intros Hv Hhi. pose proof (valid_low_pos _ _ Hv) as Ha.
  pose proof (valid_range_of_Q_inv _ _ Hv) as [H1 H2].
  apply erange_scaled; [exact Hv | apply valid_range_of_Q_intro; lra|].
  intros d i Hi. pose proof (std_value_pos series_key d i Hi) as Hx.
  pose proof (std_value_next_decade series_key d i) as E.
  rewrite !in_range_of_Q; [|lra|lra|lra|lra]. rewrite E. split; intros [? ?]; split; lra.
Qed.


(** ** The searches repeat from decade to decade *)

Lemma Qle_bool_ext a b c d :
  ((a <= b)%Q <-> (c <= d)%Q) -> Qle_bool a b = Qle_bool c d.
Proof.
  intros H. destruct (Qle_bool a b) eqn:E1; destruct (Qle_bool c d) eqn:E2;
    try reflexivity.
  - apply Qle_bool_iff, H, Qle_bool_iff in E1. congruence.
  - apply Qle_bool_iff, H, Qle_bool_iff in E2. congruence.
Qed.

(** Sorting two lists whose items correspond and compare alike gives lists
    whose items correspond. *)
Lemma insert_by_related {A B : Type} (R : A -> B -> Prop)
    (key : A -> Q) (key' : B -> Q) :
  (forall x x' y y', R x x' -> R y y' ->
     Qle_bool (key' x') (key' y') = Qle_bool (key x) (key y)) ->
  forall x x' l l', R x x' -> Forall2 R l l' ->
    Forall2 R (insert_by key x l) (insert_by key' x' l').
Proof.
  intros Hk x x' l l' Hx Hl. induction Hl as [|y y' l l' Hy Hl IH];
    cbn [insert_by].
  - constructor; [exact Hx | constructor].
  - rewrite (Hk x x' y y' Hx Hy). destruct (Qle_bool (key x) (key y)).
    + constructor; [exact Hx|]. constructor; assumption.
    + constructor; assumption.
Qed.

Lemma sorted_by_related {A B : Type} (R : A -> B -> Prop)
    (key : A -> Q) (key' : B -> Q) :
  (forall x x' y y', R x x' -> R y y' ->
     Qle_bool (key' x') (key' y') = Qle_bool (key x) (key y)) ->
  forall l l', Forall2 R l l' ->
    Forall2 R (sorted_by key l) (sorted_by key' l').
Proof.
  intros Hk l l' Hl. induction Hl as [|y y' l l' Hy Hl IH];
    cbn [sorted_by fold_right]; [constructor|].
  apply insert_by_related; assumption.
Qed.

Lemma sorted_by_map (g : Q -> Q) (l : list Q) :
  (forall x y, Qle_bool (g x) (g y) = Qle_bool x y) ->
  sorted_by (fun c => c) (map g l) = map g (sorted_by (fun c => c) l).
Proof.
  intros Hg.
  assert (H : Forall2 (fun x x' => x' = g x) (sorted_by (fun c => c) l)
                      (sorted_by (fun c => c) (map g l))).
  { apply sorted_by_related.
    - intros x x' y y' -> ->. apply Hg.
    - induction l; cbn [map]; constructor; [reflexivity | assumption]. }
  induction H as [|x x' s s' Hx _ IH]; cbn [map]; [reflexivity|].
  rewrite Hx, IH. reflexivity.
Qed.

Lemma combine_seq_related {A : Type} (R : A -> A -> Prop) l l' :
  Forall2 R l l' ->
  forall s, Forall2 (fun p q => fst p = fst q /\ R (snd p) (snd q))
                    (combine (seq s (length l)) l)
                    (combine (seq s (length l')) l').
Proof.
  induction 1 as [|x x' l l' Hx _ IH]; intros s; cbn [length seq combine];
    constructor; [split; [reflexivity | exact Hx] | apply IH].
Qed.

Lemma next_decade_le x y :
  Qle_bool (next_decade x) (next_decade y) = Qle_bool x y.
Proof. apply Qle_bool_ext. rewrite !next_decade_value. split; intros; lra. Qed.

Lemma nth_next_decade i c :
  nth i (map next_decade c) 0%Q = next_decade (nth i c 0%Q).
Proof. apply (map_nth next_decade c 0%Q i). Qed.

Lemma nearest_n_next_decade c value n :
  _nearest_n (map next_decade c) (10 * value) n
  = map next_decade (_nearest_n c value n).
Proof.
  unfold _nearest_n. cbv zeta.
  assert (Hidx : map fst (sorted_by snd
                   (enumerate (map (fun x => Qabs (x - 10 * value))
                                   (map next_decade c))))
                 = map fst (sorted_by snd
                     (enumerate (map (fun x => Qabs (x - value)) c)))).
  { assert (H : Forall2 (fun p q : nat * Q => fst p = fst q
                                    /\ (snd q == 10 * snd p)%Q)
                  (sorted_by snd (enumerate (map (fun x => Qabs (x - value)) c)))
                  (sorted_by snd
                     (enumerate (map (fun x => Qabs (x - 10 * value))
                                     (map next_decade c))))).
    { apply sorted_by_related.
      - intros x x' y y' [_ Ex] [_ Ey]. apply Qle_bool_ext.
        rewrite Ex, Ey. split; intros; lra.
      - unfold enumerate.
        apply (combine_seq_related (fun d d' : Q => (d' == 10 * d)%Q)).
        induction c as [|a c IH]; cbn [map]; constructor; [|exact IH].
        rewrite next_decade_value.
        assert (E : (10 * a - 10 * value == 10 * (a - value))%Q) by ring.
        rewrite E, Qabs_Qmult. reflexivity. }
    induction H as [|p q s s' [Hpq _] _ IH]; cbn [map]; [reflexivity|].
    rewrite Hpq, IH. reflexivity. }
  rewrite Hidx.
  rewrite <- sorted_by_map by apply next_decade_le. f_equal.
  rewrite map_map. apply map_ext. intros i. apply nth_next_decade.
Qed.

Lemma first_such_map (g : Q -> Q) test test' l :
  (forall y, test' (g y) = test y) ->
  first_such test' (map g l) = result_map g (first_such test l).
Proof.
  intros H. induction l as [|a l IH]; cbn [map first_such]; [reflexivity|].
  rewrite H. destruct (test a); [reflexivity | exact IH].
Qed.

Lemma valid_target_next_decade series_key value :
  valid_target series_key value -> (10 * value <= 10 ^ 305)%Q ->
  valid_target series_key (10 * value).
Proof.
  intros Hv Hhi. apply valid_target_inv in Hv. destruct Hv as [Hpos H].
  apply valid_target_intro; [lra | nra | exact Hhi].
Qed.

Lemma find_nearest_few_next_decade series_key value n :
  valid_target series_key value -> (10 * value <= 10 ^ 305)%Q ->
  find_nearest_few series_key (10 * value) n
  = result_map (map next_decade) (find_nearest_few series_key value n).
Proof.
  intros Hv Hhi.
  pose proof (valid_target_next_decade _ _ Hv Hhi) as Hv'.
  pose proof (valid_target_finite _ _ Hv) as Hfin.
  pose proof (valid_target_finite _ _ Hv') as Hfin'.
  destruct (in_dec Z.eq_dec n [1; 2; 3]) as [Hn|Hn];
    [|rewrite !find_nearest_few_bad_count by exact Hn; reflexivity].
  rewrite !find_nearest_few_unfold by assumption.
  pose proof (valid_target_pos _ _ Hv) as Hpos.
  destruct (erange_scaled series_key
              (window_start series_key value) (window_stop series_key value)
              (window_start series_key (10 * value))
              (window_stop series_key (10 * value)) Hv Hv')
    as (c & Hc & Hc').
  { intros d i Hi. pose proof (std_value_pos series_key d i Hi) as Hx.
    pose proof (std_value_pos series_key (d + 1) i Hi) as Hx'.
    pose proof (std_value_next_decade series_key d i) as E.
    rewrite !in_window by (assumption || lra). rewrite E.
    set (x := std_value series_key d i) in *.
    set (s3 := (GEOMETRIC_SCALE_E series_key ^ 3)%Q).
    split; intros [H1 H2]; split; nra. }
  rewrite Hc, Hc'. cbn [bind result_map]. f_equal. apply nearest_n_next_decade.
Qed.

(** In exact arithmetic, the searches repeat from decade to decade.  For a target they
    accept, each of [find_nearest_few], [find_nearest] and the four
    directional searches does on ten times the target what it does on the
    target, one decade up: it returns ten times the result, or raises the
    same exception. *)
Lemma searches_next_decade_exact series_key value :
  valid_target series_key value -> (10 * value <= 10 ^ 305)%Q ->
  (forall n, find_nearest_few series_key (10 * value) n
             = result_map (map next_decade)
                          (find_nearest_few series_key value n))
  /\ find_nearest series_key (10 * value)
     = result_map next_decade (find_nearest series_key value)
  /\ find_greater_than_or_equal series_key (10 * value)
     = result_map next_decade (find_greater_than_or_equal series_key value)
  /\ find_greater_than series_key (10 * value)
     = result_map next_decade (find_greater_than series_key value)
  /\ find_less_than_or_equal series_key (10 * value)
     = result_map next_decade (find_less_than_or_equal series_key value)
  /\ find_less_than series_key (10 * value)
     = result_map next_decade (find_less_than series_key value).
Proof.
  intros Hv Hhi.
  pose proof (fun n => find_nearest_few_next_decade series_key value n Hv Hhi)
    as Hfew.
  split; [exact Hfew|].
  unfold find_nearest, find_greater_than_or_equal, find_greater_than,
    find_less_than_or_equal, find_less_than.
  rewrite !Hfew.
  split; [|split; [|split; [|split]]].
  - destruct (find_nearest_few series_key value 1) as [[|r l]|e]; reflexivity.
  - destruct (find_nearest_few series_key value 3) as [l|e];
      cbn [bind result_map]; [|reflexivity].
    apply first_such_map. intros y. apply Qle_bool_ext.
    rewrite next_decade_value. split; intros; lra.
  - destruct (find_nearest_few series_key value 3) as [l|e];
      cbn [bind result_map]; [|reflexivity].
    apply first_such_map. intros y. unfold Qlt_bool. f_equal.
    apply Qle_bool_ext. rewrite next_decade_value. split; intros; lra.
  - destruct (find_nearest_few series_key value 3) as [l|e];
      cbn [bind result_map]; [|reflexivity].
    rewrite <- map_rev. apply first_such_map. intros y. apply Qle_bool_ext.
    rewrite next_decade_value. split; intros; lra.
  - destruct (find_nearest_few series_key value 3) as [l|e];
      cbn [bind result_map]; [|reflexivity].
    rewrite <- map_rev. apply first_such_map. intros y. unfold Qlt_bool.
    f_equal. apply Qle_bool_ext. rewrite next_decade_value.
    split; intros; lra.
Qed.


(** * Standard values as targets *)

(** In exact arithmetic, a standard value of any decade is found again: when the target is
    itself a standard value of the series, [find_nearest],
    [find_less_than_or_equal] and [find_greater_than_or_equal] all return
    it. *)
Lemma standard_target_found_exact series_key value :
  valid_target series_key value -> is_standard series_key value ->
  exists r le ge,
    find_nearest series_key value = Ok r /\ (r == value)%Q
    /\ find_less_than_or_equal series_key value = Ok le /\ (le == value)%Q
    /\ find_greater_than_or_equal series_key value = Ok ge
    /\ (ge == value)%Q.
Proof.
  intros Hv Hstd.
  destruct (find_nearest_between series_key value Hv)
    as (r & d & i & Hr & _ & Hi & Hlo & Hhi & _ & Hadj & Hdl & _).
  destruct (less_or_equal_greatest series_key value Hv)
    as (le & Hle & _ & Hlev & Hgreatest).
  destruct (greater_or_equal_least series_key value Hv)
    as (ge & Hge & _ & Hgev & Hleast).
  exists r, le, ge.
  split; [exact Hr|]. split.
  { destruct Hstd as (d' & i' & Hi' & E).
    assert (HL : (value <= std_value series_key d i)%Q).
    { destruct (Hadj d' i' Hi') as [H|H]; lra. }
    destruct (Qlt_le_dec r value) as [H|H].
    - rewrite (distance_below value r) in Hdl by lra. lra.
    - rewrite (distance_above value r H) in Hdl. lra. }
  split; [exact Hle|]. split.
  { pose proof (Hgreatest value Hstd ltac:(lra)). lra. }
  split; [exact Hge|].
  pose proof (Hleast value Hstd ltac:(lra)). lra.
Qed.

(** * Any number of decades *)

Lemma is_standard_compat series_key x y :
  (x == y)%Q -> is_standard series_key x -> is_standard series_key y.
Proof.
  intros E (d & i & Hi & Hx). exists d, i. split; [exact Hi|].
  rewrite <- E. exact Hx.
Qed.

Lemma is_standard_times_10 series_key x :
  is_standard series_key x <-> is_standard series_key (x * 10).
Proof.
  split; intros (d & i & Hi & E).
  - exists (d + 1), i. split; [exact Hi|].
    rewrite std_value_next_decade, <- E. ring.
  - exists (d - 1), i. split; [exact Hi|].
    rewrite std_value_prev_decade in E. lra.
Qed.

Lemma of_Q_compat x y : (x == y)%Q -> (x * Qabs x == y * Qabs y)%Q.
Proof. intros E. rewrite E. reflexivity. Qed.

(** Within valid bounds [erange] depends on the values of its bounds only. *)
Lemma erange_bounds_compat series_key a b a' b' :
  valid_range series_key (of_Q a) (of_Q b) -> (b <= 10 ^ 306)%Q ->
  (a == a')%Q -> (b == b')%Q ->
  erange series_key (of_Q a) (of_Q b) = erange series_key (of_Q a') (of_Q b').
Proof.
  intros Hv Hhi Ea Eb.
  assert (Hv' : valid_range series_key (of_Q a') (of_Q b')).
  { apply valid_range_of_Q_inv in Hv. apply valid_range_of_Q_intro; lra. }
  pose proof (valid_low_pos _ _ Hv) as Ha.
  destruct (erange_increasing series_key _ _ Hv) as (l & Hl & Hs & _).
  destruct (erange_increasing series_key _ _ Hv') as (l' & Hl' & Hs' & _).
  rewrite Hl, Hl'. f_equal.
  apply sorted_same_members_eq; [exact Hs | exact Hs'|].
  intros x.
  rewrite (erange_members _ _ _ _ x Hl), (erange_members _ _ _ _ x Hl').
  split; intros (d & i & Hi & -> & Hr); exists d, i;
    (split; [exact Hi|]); (split; [reflexivity|]);
    pose proof (std_value_pos series_key d i Hi) as Hp;
    rewrite <- (yielded_value series_key d i Hi) in Hp;
    apply in_range_of_Q in Hr; try lra;
    apply in_range_of_Q; lra.
Qed.

Lemma decade_count series_key low :
  valid_range series_key (of_Q low) (of_Q (low * 10)) ->
  exists l,
    erange series_key (of_Q low) (of_Q (low * 10)) = Ok l
    /\ ((is_standard series_key (low * 10)
         /\ length l = S (length (series series_key)))
        \/ (~ is_standard series_key (low * 10)
            /\ length l = length (series series_key))).
Proof.
  intros Hv. pose proof (valid_low_pos _ _ Hv) as Hlow.
  destruct (erange_increasing series_key _ _ Hv) as (l & Hl & Hsorted & _).
  exists l. split; [exact Hl|].
  destruct (ceil_position series_key low Hlow) as (d & i & Hi & Hceil & Hleast).
  pose proof (erange_decade_members series_key low l d i Hlow Hv Hl Hi
                Hceil Hleast) as Hmem.
  pose proof (decade_end_standard series_key low d i Hlow Hi Hceil Hleast)
    as Hstd.
  assert (Hlen : length l
                 = length (decade_values series_key d i
                             (Qle_bool (std_value series_key d i) low))).
  { apply same_members_length; [apply sorted_NoDup; exact Hsorted| |exact Hmem].
    apply sorted_NoDup, decade_values_sorted. exact Hi. }
  rewrite decade_values_length in Hlen by exact Hi.
  destruct (Qle_bool (std_value series_key d i) low) eqn:E.
  - left. split; [apply Hstd; reflexivity | lia].
  - right. split; [|lia]. intros H. apply Hstd in H. discriminate.
Qed.

Lemma p10_ge_1 (m : nat) : (1 <= 10 ^ Z.of_nat m)%Q.
Proof. change 1%Q with (10 ^ 0)%Q. apply p10_le. lia. Qed.

Lemma erange_decades_count series_key (m : nat) : forall low hi,
  (hi == low * 10 ^ Z.of_nat m)%Q ->
  valid_range series_key (of_Q low) (of_Q hi) -> (hi <= 10 ^ 306)%Q ->
  exists l,
    erange series_key (of_Q low) (of_Q hi) = Ok l
    /\ ((is_standard series_key low
         /\ length l = (m * length (series series_key) + 1)%nat)
        \/ (~ is_standard series_key low
            /\ length l = (m * length (series series_key))%nat)).
Proof.
  induction m as [|m IH]; intros low hi Ehi Hv Hhi.
  - change (10 ^ Z.of_nat 0)%Q with 1%Q in Ehi.
    assert (E : (hi == low)%Q) by lra.
    assert (Hp : valid_range series_key (of_Q low) (of_Q low)).
    { apply valid_range_of_Q_inv in Hv. apply valid_range_of_Q_intro; lra. }
    rewrite (erange_bounds_compat series_key low hi low low Hv Hhi)
      by (try reflexivity; exact E).
    destruct (erange_point series_key low Hp) as (l & Hl & C).
    exists l. split; [exact Hl|].
    destruct C as [(Hs & y & -> & _)|(Hs & ->)]; [left | right];
      split; auto.
  - pose proof (valid_low_pos _ _ Hv) as Hlow.
    pose proof (p10_ge_1 m) as Hm.
    set (mid := (low * 10 ^ Z.of_nat m)%Q).
    assert (Ehi' : (hi == mid * 10)%Q).
    { rewrite Ehi. unfold mid. rewrite Nat2Z.inj_succ, <- Z.add_1_r, p10_succ.
      ring. }
    assert (Hmid : (low <= mid)%Q) by (unfold mid; nra).
    pose proof (valid_range_of_Q_inv _ _ Hv) as [Hmin _].
    assert (H1 : valid_range series_key (of_Q low) (of_Q mid))
      by (apply valid_range_of_Q_intro; lra).
    assert (H2 : valid_range series_key (of_Q mid) (of_Q hi))
      by (apply valid_range_of_Q_intro; lra).
    assert (H2' : valid_range series_key (of_Q mid) (of_Q (mid * 10)))
      by (apply valid_range_of_Q_intro; lra).
    assert (Hp : valid_range series_key (of_Q mid) (of_Q mid))
      by (apply valid_range_of_Q_intro; lra).
    destruct (IH low mid ltac:(reflexivity) H1 ltac:(lra)) as (l1 & E1 & C1).
    destruct (decade_count series_key mid H2') as (l2 & E2 & C2).
    rewrite <- (erange_bounds_compat series_key mid hi mid (mid * 10) H2 Hhi)
      in E2 by (try reflexivity; exact Ehi').
    destruct (erange_point series_key mid Hp) as (lp & Ep & Cp).
    destruct (erange_parts series_key _ _ _ H1 H2 Hv)
      as (l1' & l2' & l & E1' & E2' & El & Hl).
    rewrite E1 in E1'. injection E1' as <-.
    rewrite E2 in E2'. injection E2' as <-.
    destruct (erange_parts series_key _ _ _ Hp H2 H2)
      as (lp' & l2' & l2'' & Ep' & E2' & E2'' & Hl2).
    rewrite Ep in Ep'. injection Ep' as <-.
    rewrite E2 in E2'. injection E2' as <-.
    rewrite E2 in E2''. injection E2'' as <-.
    exists l. split; [exact El|].
    assert (Hlen : (length l + length lp = length l1 + length l2)%nat).
    { rewrite Hl, length_app. rewrite Hl2 at 2. rewrite length_app. lia. }
    assert (Hstd_mid : is_standard series_key mid <-> is_standard series_key low).
    { clear - m. unfold mid. clear mid. induction m as [|m IHm].
      - change (10 ^ Z.of_nat 0)%Q with 1%Q. split; apply is_standard_compat; ring.
      - rewrite <- IHm. rewrite (is_standard_times_10 series_key (low * 10 ^ Z.of_nat m)).
        split; apply is_standard_compat;
          rewrite Nat2Z.inj_succ, <- Z.add_1_r, p10_succ; ring. }
    assert (Hstd_hi : is_standard series_key (mid * 10)
                      <-> is_standard series_key low).
    { rewrite <- Hstd_mid. symmetry. apply is_standard_times_10. }
    destruct C1 as [[S1 L1]|[S1 L1]]; destruct C2 as [[S2 L2]|[S2 L2]];
      destruct Cp as [(Sp & y & -> & _)|(Sp & ->)]; cbn [length] in Hlen;
      try (exfalso; tauto); [left | right]; (split; [assumption|lia]).
Qed.

(** In exact arithmetic, the decade count extends to any whole number of decades.  For a
    valid [low] and [m >= 0], enumerating [[low, low * 10 ^ m]] yields
    exactly [m] times the numeric identifier of the series, plus one more
    value when [low] (and with it the upper end) is a standard value; for
    [m = 0] this is the membership test of a single point. *)
Lemma erange_decades_exact series_key low (m : nat) :
  valid_range series_key (of_Q low) (of_Q (low * 10 ^ Z.of_nat m)) ->
  (low * 10 ^ Z.of_nat m <= 10 ^ 306)%Q ->
  exists l,
    erange series_key (of_Q low) (of_Q (low * 10 ^ Z.of_nat m)) = Ok l
    /\ ((is_standard series_key low
         /\ Z.of_nat (length l) = Z.of_nat m * ESeries_value series_key + 1)
        \/ (~ is_standard series_key low
            /\ Z.of_nat (length l) = Z.of_nat m * ESeries_value series_key)).
Proof.
  intros Hv Hhi.
  destruct (erange_decades_count series_key m low _ ltac:(reflexivity) Hv Hhi)
    as (l & Hl & C).
  exists l. split; [exact Hl|].
  pose proof (series_length series_key) as HN.
  destruct C as [[Hs Hlen]|[Hs Hlen]]; [left | right];
    (split; [exact Hs|]); rewrite Hlen; nia.
Qed.

(** * The program on arguments it computes exactly *)

(** The statements of this part are about [eseries.py] as it runs in
    binary64.  Each restricts a lemma on the exact functions to arguments
    on which the program forms the same numbers ([exact_range],
    [exact_target], [exact_integer]), or states a property that does not
    depend on the rounding of single values, for arguments away from the
    two ends of the binary64 range ([float_target], [float_range]). *)

(** ** The arguments are valid *)

Lemma exact_range_valid series_key start stop :
  exact_range series_key start stop -> valid_range series_key (of_Q start) (of_Q stop).
Proof.
  intros (Hlo & Hle & Hhi).
  pose proof (series_decade_nonneg series_key) as Hsd.
  pose proof (p10_le (-200) (series_decade series_key) ltac:(lia)).
  pose proof (p10_le 15 306 ltac:(lia)).
  apply valid_range_of_Q_intro; lra.
Qed.

Lemma exact_range_pos series_key start stop :
  exact_range series_key start stop -> (0 < start)%Q.
Proof.
  intros (Hlo & _). pose proof (p10_pos (series_decade series_key)). lra.
Qed.

Lemma exact_target_ge_1 series_key value :
  exact_target series_key value -> (1 <= inject_Z value)%Q.
Proof.
  intros [Hlo _]. change 1%Q with (inject_Z 1). rewrite <- Zle_Qle.
  destruct series_key; cbn in Hlo; lia.
Qed.

Lemma exact_target_le series_key value :
  exact_target series_key value -> (inject_Z value <= 10 ^ 9)%Q.
Proof.
  intros [_ Hhi]. change (10 ^ 9)%Q with (inject_Z (10 ^ 9)).
  rewrite <- Zle_Qle. exact Hhi.
Qed.

Lemma exact_target_valid series_key value :
  exact_target series_key value -> valid_target series_key (inject_Z value).
Proof.
  intros H. pose proof (p10_le 9 305 ltac:(lia)).
  pose proof (exact_target_le _ _ H).
  apply valid_target_between; [apply (exact_target_ge_1 _ _ H) | lra].
Qed.

Lemma float_target_valid series_key value :
  float_target value -> valid_target series_key value.
Proof.
  intros [Hlo Hhi].
  pose proof (p10_pos (-200)) as Hm.
  pose proof (p10_succ (-200)) as Hs. change (-200 + 1) with (-199) in Hs.
  pose proof (scale_gt_1 series_key) as Hs1.
  pose proof (scale_le_3 series_key) as Hs3.
  set (s := GEOMETRIC_SCALE_E series_key) in *.
  set (m := (10 ^ (-200))%Q) in *.
  set (m' := (10 ^ (-199))%Q) in *.
  apply valid_target_intro; [lra| |exact Hhi]. fold s. fold m.
  simpl Qpower.
  assert (H27 : (s * s * s <= 27)%Q).
  { assert ((s * s <= 9)%Q) by nra. nra. }
  assert (Hmm : (0 < m * m)%Q) by nra.
  assert (H1 : (m * m * (s * s * s) <= m * m * 27)%Q)
    by (apply Qmult_le_l; [exact Hmm | exact H27]).
  assert (H2 : (m' * m' <= value * value)%Q) by (apply Qsq_le; lra).
  assert (H3 : (m' * m' == 100 * (m * m))%Q) by (rewrite Hs; ring).
  lra.
Qed.

(** ** Claims *)

(** C7: [find_nearest_few] raises the invalid-count error exactly when the
    count is not 1, 2 or 3, whatever the target; and for every target in
    the representable range, from [1e-199] to [1e305], and every count of
    1, 2 or 3 it returns exactly that many values, sorted ascending. *)
Theorem C7_find_nearest_few_cardinality series_key value n :
  (find_nearest_few series_key value n = Raise (ValueError (NumNot123 n))
   <-> ~ In n [1; 2; 3])
  /\ (float_target value -> In n [1; 2; 3] ->
      exists l, find_nearest_few series_key value n = Ok l
                /\ length l = Z.to_nat n /\ Sorted Qle l).
Proof.
  destruct (find_nearest_few_cardinality_exact series_key value n) as [H1 H2].
  split; [exact H1|]. intros Hv. apply H2, float_target_valid, Hv.
Qed.

Lemma C7_find_nearest_few_cardinality_E12_83 :
  float_target 83 /\ In 2 [1; 2; 3]
  /\ (find_nearest_few E12 83 2 = Raise (ValueError (NumNot123 2))
      <-> ~ In 2 [1; 2; 3])
  /\ exists l, find_nearest_few E12 83 2 = Ok l
               /\ length l = Z.to_nat 2 /\ Sorted Qle l.
Proof.
  assert (Hv : float_target 83)
    by (split; apply Qle_bool_iff; vm_compute; reflexivity).
  assert (Hn : In 2 [1; 2; 3]) by (simpl; auto).
  destruct (C7_find_nearest_few_cardinality E12 83 2) as [Hiff Hcount].
  split; [exact Hv|]. split; [exact Hn|]. split; [exact Hiff|].
  apply (Hcount Hv Hn).
Defined.

(** C2 (failing run): [1.7e307] is a valid [low] and [1.7e307 * 10] is
    finite, so the pair passes every guard of [erange]; yet enumerating the
    decade raises [OverflowError] instead of giving twelve values.  The
    E12 entry 18 scaled into the last decade, [18 * 10 ^ 307], is beyond
    the largest float. *)
Theorem C2_decade_enumeration_overflows :
  guards_pass (of_Q (17 * 10 ^ 306)) (of_Q (10 * (17 * 10 ^ 306)))
  /\ erange E12 (of_Q (17 * 10 ^ 306)) (of_Q (10 * (17 * 10 ^ 306)))
     = Raise OverflowError.
Proof.
  split; [repeat split; vm_compute; reflexivity | vm_compute; reflexivity].
Qed.

(** C6 (failing run): the bounds [1e307] and [1.7e308] are finite, at least
    [1e-200] and in order, so they pass every guard of [erange]; yet
    consuming the generator raises [OverflowError] instead of ending.  No
    guard bounds [stop] from above, and [18 * 10 ^ 307] is beyond the
    largest float. *)
Theorem C6_erange_overflows_between_valid_bounds :
  guards_pass (of_Q (10 ^ 307)) (of_Q (17 * 10 ^ 307))
  /\ erange E12 (of_Q (10 ^ 307)) (of_Q (17 * 10 ^ 307))
     = Raise OverflowError.
Proof.
  split; [repeat split; vm_compute; reflexivity | vm_compute; reflexivity].
Qed.

(** C10 (as stated, refuted): [1.1e-200] lies exactly half-way between the
    neighbouring E12 values [1.0e-200] and [1.2e-200], yet [find_nearest]
    returns neither: the search window starts below the minimum and
    [erange] raises its [ValueError]. *)
Lemma C10_no_result_for_tie_at_minimum :
  (std_value E12 (-200) 0 < 11 * 10 ^ (-201))%Q
  /\ (11 * 10 ^ (-201) < value_at E12 (next_position E12 ((-200)%Z, O)))%Q
  /\ (11 * 10 ^ (-201) - std_value E12 (-200) 0
      == value_at E12 (next_position E12 ((-200)%Z, O)) - 11 * 10 ^ (-201))%Q
  /\ find_nearest E12 (11 * 10 ^ (-201))%Q
     = Raise (ValueError (TooSmall (window_stop E12 (11 * 10 ^ (-201))%Q)
                                   Start _MINIMUM_E_VALUE)).
Proof.
  split; [vm_compute; reflexivity|]. split; [vm_compute; reflexivity|].
  split; vm_compute; reflexivity.
Qed.

(** C10 (amended): for an integer target from [10 ^ (series_decade + 1)] up
    to [10 ^ 9] that is exactly half-way between a standard value and the
    next one, [find_nearest] returns the lower of the two: candidates are
    enumerated in ascending order, the distances of the two neighbours are
    computed exactly and the sort by distance is stable. *)
Theorem C10_find_nearest_tie_goes_down series_key (value : Z) d i :
  exact_target series_key value ->
  (i < length (series series_key))%nat ->
  let lower := std_value series_key d i in
  let upper := value_at series_key (next_position series_key (d, i)) in
  (lower < inject_Z value)%Q -> (inject_Z value < upper)%Q ->
  (inject_Z value - lower == upper - inject_Z value)%Q ->
  exists r, find_nearest series_key (inject_Z value) = Ok r /\ (r == lower)%Q.
Proof.
  intros Hv. apply find_nearest_tie_goes_down_exact, exact_target_valid, Hv.
Qed.

Lemma C10_find_nearest_tie_goes_down_E12_110 :
  exact_target E12 110
  /\ (0 < length (series E12))%nat
  /\ (std_value E12 2 0 < inject_Z 110)%Q
  /\ (inject_Z 110 < value_at E12 (next_position E12 (2%Z, O)))%Q
  /\ (inject_Z 110 - std_value E12 2 0
      == value_at E12 (next_position E12 (2%Z, O)) - inject_Z 110)%Q
  /\ exists r, find_nearest E12 (inject_Z 110) = Ok r
               /\ (r == std_value E12 2 0)%Q.
Proof.
  assert (Hv : exact_target E12 110) by (unfold exact_target; simpl; lia).
  assert (Hi : (0 < length (series E12))%nat) by (simpl; lia).
  assert (H1 : (std_value E12 2 0 < inject_Z 110)%Q) by reflexivity.
  assert (H2 : (inject_Z 110 < value_at E12 (next_position E12 (2%Z, O)))%Q)
    by reflexivity.
  assert (H3 : (inject_Z 110 - std_value E12 2 0
                == value_at E12 (next_position E12 (2%Z, O)) - inject_Z 110)%Q)
    by reflexivity.
  repeat (split; [assumption|]).
  apply (C10_find_nearest_tie_goes_down E12 110 2 O Hv Hi H1 H2 H3).
Defined.

(** ** The range enumerator *)

(** X1: whatever [erange] yields between bounds from the first table entry
    up to [10 ^ 15] is a standard value of the series (a table entry times
    a power of ten) and lies within the bounds. *)
Theorem erange_yields_standard_values series_key start stop l x :
  exact_range series_key start stop ->
  erange series_key (of_Q start) (of_Q stop) = Ok l -> In x l ->
  is_standard series_key x /\ (start <= x)%Q /\ (x <= stop)%Q.
Proof.
  intros Hd He Hx.
  destruct (erange_yields_standard_values_exact _ _ _ _ _ He Hx) as [Hs Hr].
  split; [exact Hs|].
  apply in_range_of_Q; [apply (exact_range_pos _ _ _ Hd)| |exact Hr].
  apply (erange_member_pos _ _ _ _ _ He Hx).
Qed.

Lemma erange_yields_standard_values_E12_21_147 :
  exact_range E12 21 147
  /\ erange E12 (of_Q 21) (of_Q 147)
     = Ok (map inject_Z [22; 27; 33; 39; 47; 56; 68; 82; 100; 120])
  /\ In (inject_Z 100) (map inject_Z [22; 27; 33; 39; 47; 56; 68; 82; 100; 120])
  /\ is_standard E12 (inject_Z 100)
  /\ (21 <= inject_Z 100)%Q /\ (inject_Z 100 <= 147)%Q.
Proof.
  assert (Hd : exact_range E12 21 147)
    by (repeat split; apply Qle_bool_iff; vm_compute; reflexivity).
  assert (He : erange E12 (of_Q 21) (of_Q 147)
               = Ok (map inject_Z [22; 27; 33; 39; 47; 56; 68; 82; 100; 120]))
    by (vm_compute; reflexivity).
  assert (Hx : In (inject_Z 100)
                  (map inject_Z [22; 27; 33; 39; 47; 56; 68; 82; 100; 120]))
    by (simpl; tauto).
  split; [exact Hd|]. split; [exact He|]. split; [exact Hx|].
  apply (erange_yields_standard_values E12 _ _ _ _ Hd He Hx).
Defined.

(** X2: between such bounds no standard value is missed: every table entry
    times a power of ten that lies within the bounds is among the values
    yielded. *)
Theorem erange_yields_every_standard_value series_key start stop x :
  exact_range series_key start stop ->
  is_standard series_key x -> (start <= x)%Q -> (x <= stop)%Q ->
  exists l y, erange series_key (of_Q start) (of_Q stop) = Ok l
              /\ In y l /\ (y == x)%Q.
Proof.
  intros Hd Hs Hlo Hhi.
  apply erange_yields_every_standard_value_exact;
    [apply (exact_range_valid _ _ _ Hd) | exact Hs|].
  pose proof (exact_range_pos _ _ _ Hd) as Hpos.
  apply in_range_of_Q; [exact Hpos | lra | split; assumption].
Qed.

Lemma erange_yields_every_standard_value_E12_21_147 :
  exact_range E12 21 147
  /\ is_standard E12 (inject_Z 120)
  /\ (21 <= inject_Z 120)%Q /\ (inject_Z 120 <= 147)%Q
  /\ exists l y, erange E12 (of_Q 21) (of_Q 147) = Ok l
                 /\ In y l /\ (y == inject_Z 120)%Q.
Proof.
  assert (Hd : exact_range E12 21 147)
    by (repeat split; apply Qle_bool_iff; vm_compute; reflexivity).
  assert (Hs : is_standard E12 (inject_Z 120)).
  { exists 2, 1%nat. split; [simpl; lia | reflexivity]. }
  assert (Hlo : (21 <= inject_Z 120)%Q)
    by (apply Qle_bool_iff; vm_compute; reflexivity).
  assert (Hhi : (inject_Z 120 <= 147)%Q)
    by (apply Qle_bool_iff; vm_compute; reflexivity).
  split; [exact Hd|]. split; [exact Hs|]. split; [exact Hlo|].
  split; [exact Hhi|].
  apply (erange_yields_every_standard_value E12 _ _ _ Hd Hs Hlo Hhi).
Defined.

(** X3: how [erange] ends, whatever the arguments.  It returns, and then
    the arguments pass its five checks; or it raises the [ValueError] of
    one of the five checks, and then the arguments do not pass them; or it
    raises [OverflowError].  It raises nothing else: the assertion
    [stop_index != 0] holds and [_try_integral] accepts the logarithm of
    the first table entry. *)
Theorem erange_internal_checks_hold series_key start stop :
  match erange series_key start stop with
  | Ok _ => guards_pass start stop
  | Raise (ValueError (NotFinite _ _))
  | Raise (ValueError (TooSmall _ _ _))
  | Raise (ValueError (StartAfterStop _ _)) => ~ guards_pass start stop
  | Raise OverflowError => True
  | Raise _ => False
  end.
Proof. apply erange_outcomes. Qed.

(** X4: between such bounds a range whose two ends coincide is a membership
    test: [erange] yields the one value [x] when [x] is a standard value of
    the series and nothing otherwise. *)
Theorem erange_single_point series_key x :
  exact_range series_key x x ->
  exists l, erange series_key (of_Q x) (of_Q x) = Ok l
            /\ ((is_standard series_key x /\ exists y, l = [y] /\ (y == x)%Q)
                \/ (~ is_standard series_key x /\ l = [])).
Proof. intros Hd. apply erange_point, (exact_range_valid _ _ _ Hd). Qed.

Lemma erange_single_point_E24_43 :
  exact_range E24 43 43
  /\ exists l, erange E24 (of_Q 43) (of_Q 43) = Ok l
               /\ ((is_standard E24 43 /\ exists y, l = [y] /\ (y == 43)%Q)
                   \/ (~ is_standard E24 43 /\ l = [])).
Proof.
  assert (Hd : exact_range E24 43 43)
    by (repeat split; apply Qle_bool_iff; vm_compute; reflexivity).
  split; [exact Hd | apply (erange_single_point E24 43 Hd)].
Defined.

(** X5: ranges compose.  For [start <= mid <= stop] between the first table
    entry and [10 ^ 15], enumerating [[start, stop]] gives the values of
    [[start, mid]] followed by those of [[mid, stop]] that lie above [mid]:
    the only value the two parts can share is [mid] itself. *)
Theorem erange_split series_key start mid stop :
  exact_range series_key start mid -> exact_range series_key mid stop ->
  exists l1 l2 l,
    erange series_key (of_Q start) (of_Q mid) = Ok l1
    /\ erange series_key (of_Q mid) (of_Q stop) = Ok l2
    /\ erange series_key (of_Q start) (of_Q stop) = Ok l
    /\ l = l1 ++ filter (fun y => negb (nle (of_Q y) (of_Q mid))) l2.
Proof.
  intros H1 H2.
  apply erange_parts;
    [apply (exact_range_valid _ _ _ H1) | apply (exact_range_valid _ _ _ H2)|].
  destruct H1 as (Hlo & Hle & _), H2 as (_ & Hle' & Hhi).
  apply exact_range_valid. repeat split; lra.
Qed.

Lemma erange_split_E12_21_47_147 :
  exact_range E12 21 47 /\ exact_range E12 47 147
  /\ exists l1 l2 l,
       erange E12 (of_Q 21) (of_Q 47) = Ok l1
       /\ erange E12 (of_Q 47) (of_Q 147) = Ok l2
       /\ erange E12 (of_Q 21) (of_Q 147) = Ok l
       /\ l = l1 ++ filter (fun y => negb (nle (of_Q y) (of_Q 47))) l2.
Proof.
  assert (H1 : exact_range E12 21 47)
    by (repeat split; apply Qle_bool_iff; vm_compute; reflexivity).
  assert (H2 : exact_range E12 47 147)
    by (repeat split; apply Qle_bool_iff; vm_compute; reflexivity).
  split; [exact H1|]. split; [exact H2|].
  apply (erange_split E12 _ _ _ H1 H2).
Defined.

(** X24: the series repeats from decade to decade.  For integer bounds from
    the first table entry upwards, with ten times the upper one at most
    [10 ^ 15], moving both ends up by one decade moves every value yielded
    up by one decade: [erange] over [[10 * start, 10 * stop]] yields ten
    times the values it yields over [[start, stop]], in the same order. *)
Theorem erange_next_decade series_key (start stop : Z) :
  exact_range series_key (inject_Z start) (inject_Z (10 * stop)) ->
  start <= stop ->
  exists l, erange series_key (of_Z start) (of_Z stop) = Ok l
            /\ erange series_key (of_Z (10 * start)) (of_Z (10 * stop))
               = Ok (map next_decade l).
Proof.
  intros (Hlo & _ & Hhi) Hle.
  pose proof (series_decade_nonneg series_key) as Hsd.
  pose proof (p10_le (-200) (series_decade series_key) ltac:(lia)).
  pose proof (p10_le 15 306 ltac:(lia)).
  pose proof (p10_pos (series_decade series_key)).
  rewrite Zle_Qle in Hle.
  change (inject_Z (10 * stop)) with (10 * inject_Z stop)%Q in Hhi.
  assert (Hv : valid_range series_key (of_Q (inject_Z start))
                 (of_Q (inject_Z stop)))
    by (apply valid_range_of_Q_intro; lra).
  apply (erange_next_decade_exact series_key _ _ Hv). lra.
Qed.

Lemma erange_next_decade_E12_21_147 :
  exact_range E12 (inject_Z 21) (inject_Z (10 * 147)) /\ 21 <= 147
  /\ exists l, erange E12 (of_Z 21) (of_Z 147) = Ok l
               /\ erange E12 (of_Z (10 * 21)) (of_Z (10 * 147))
                  = Ok (map next_decade l).
Proof.
  assert (Hd : exact_range E12 (inject_Z 21) (inject_Z (10 * 147)))
    by (repeat split; apply Qle_bool_iff; vm_compute; reflexivity).
  assert (Hle : 21 <= 147) by lia.
  split; [exact Hd|]. split; [exact Hle|].
  apply (erange_next_decade E12 21 147 Hd Hle).
Defined.

(** X27: the number of values in whole decades.  For an integer [low] from
    the first table entry upwards and [m >= 0] with [low * 10 ^ m] at most
    [10 ^ 15], enumerating [[low, low * 10 ^ m]] yields exactly [m] times
    the numeric identifier of the series, plus one more value when [low]
    (and with it the upper end) is a standard value. *)
Theorem erange_decades series_key (low : Z) (m : nat) :
  exact_range series_key (inject_Z low) (inject_Z (low * 10 ^ Z.of_nat m)) ->
  exists l,
    erange series_key (of_Z low) (of_Z (low * 10 ^ Z.of_nat m)) = Ok l
    /\ ((is_standard series_key (inject_Z low)
         /\ Z.of_nat (length l) = Z.of_nat m * ESeries_value series_key + 1)
        \/ (~ is_standard series_key (inject_Z low)
            /\ Z.of_nat (length l) = Z.of_nat m * ESeries_value series_key)).
Proof.
  intros Hd. pose proof (exact_range_valid _ _ _ Hd) as Hv.
  destruct Hd as (Hlo & Hle & Hhi).
  pose proof (series_decade_nonneg series_key) as Hsd.
  pose proof (p10_le (-200) (series_decade series_key) ltac:(lia)).
  pose proof (p10_le 15 306 ltac:(lia)).
  assert (E : (inject_Z (low * 10 ^ Z.of_nat m)
               == inject_Z low * 10 ^ Z.of_nat m)%Q).
  { rewrite inject_Z_mult, p10_inject by lia. reflexivity. }
  unfold of_Z.
  rewrite (erange_bounds_compat series_key _ _ (inject_Z low)
             (inject_Z low * 10 ^ Z.of_nat m)%Q Hv ltac:(lra)
             (Qeq_refl _) E).
  apply erange_decades_exact; [|lra].
  apply valid_range_of_Q_intro; lra.
Qed.

Lemma erange_decades_E12_21 :
  exact_range E12 (inject_Z 21) (inject_Z (21 * 10 ^ Z.of_nat 2))
  /\ exists l,
       erange E12 (of_Z 21) (of_Z (21 * 10 ^ Z.of_nat 2)) = Ok l
       /\ ((is_standard E12 (inject_Z 21)
            /\ Z.of_nat (length l) = Z.of_nat 2 * ESeries_value E12 + 1)
           \/ (~ is_standard E12 (inject_Z 21)
               /\ Z.of_nat (length l) = Z.of_nat 2 * ESeries_value E12)).
Proof.
  assert (Hd : exact_range E12 (inject_Z 21)
                 (inject_Z (21 * 10 ^ Z.of_nat 2)))
    by (repeat split; apply Qle_bool_iff; vm_compute; reflexivity).
  split; [exact Hd | apply (erange_decades E12 21 2 Hd)].
Defined.

(** X28: for every pair of bounds that passes the guards of [erange] and
    stops at [1e306] at the latest, [erange] yields a finite sequence,
    strictly increasing in numeric value (hence without duplicates), whose
    members all lie within the bounds. *)
Theorem erange_increasing_in_range series_key start stop :
  float_range start stop ->
  exists l, erange series_key start stop = Ok l
            /\ StronglySorted Qlt l
            /\ Forall (in_range start stop) l.
Proof.
  intros [Hg Hle]. apply erange_increasing, valid_range_below; assumption.
Qed.

Lemma erange_increasing_in_range_E12_21_147 :
  float_range (of_Z 21) (of_Z 147)
  /\ exists l, erange E12 (of_Z 21) (of_Z 147) = Ok l
               /\ StronglySorted Qlt l
               /\ Forall (in_range (of_Z 21) (of_Z 147)) l.
Proof.
  assert (Hv : float_range (of_Z 21) (of_Z 147))
    by (repeat split; vm_compute; reflexivity).
  split; [exact Hv | apply (erange_increasing_in_range E12 _ _ Hv)].
Defined.

(** ** The searches *)

(** X6: for an integer target from [10 ^ (series_decade + 1)] up to
    [10 ^ 9], [find_nearest] is right about the whole series, not just
    about its search window: it returns a standard value, and no standard
    value of the series, in any decade, is strictly nearer to the target. *)
Theorem find_nearest_is_nearest series_key (value : Z) :
  exact_target series_key value ->
  exists r, find_nearest series_key (inject_Z value) = Ok r
            /\ is_standard series_key r
            /\ forall x, is_standard series_key x ->
                 (distance (inject_Z value) r <= distance (inject_Z value) x)%Q.
Proof.
  intros Hv. apply find_nearest_is_nearest_exact, exact_target_valid, Hv.
Qed.

Lemma find_nearest_is_nearest_E12_830 :
  exact_target E12 830
  /\ exists r, find_nearest E12 (inject_Z 830) = Ok r
               /\ is_standard E12 r
               /\ forall x, is_standard E12 x ->
                    (distance (inject_Z 830) r <= distance (inject_Z 830) x)%Q.
Proof.
  assert (Hv : exact_target E12 830) by (unfold exact_target; simpl; lia).
  split; [exact Hv | apply (find_nearest_is_nearest E12 830 Hv)].
Defined.

(** X7: for such a target the relative error of [find_nearest] is at most
    half the largest step of the series:
    [|r - value| <= (GEOMETRIC_SCALE_E - 1) / 2 * value], with the exact
    ratio of table entries for [GEOMETRIC_SCALE_E]. *)
Theorem find_nearest_relative_error series_key (value : Z) :
  exact_target series_key value ->
  exists r, find_nearest series_key (inject_Z value) = Ok r
            /\ (distance (inject_Z value) r
                <= (GEOMETRIC_SCALE_E series_key - 1) / 2 * inject_Z value)%Q.
Proof.
  intros Hv. apply find_nearest_relative_error_exact, exact_target_valid, Hv.
Qed.

Lemma find_nearest_relative_error_E12_830 :
  exact_target E12 830
  /\ exists r, find_nearest E12 (inject_Z 830) = Ok r
               /\ (distance (inject_Z 830) r
                   <= (GEOMETRIC_SCALE_E E12 - 1) / 2 * inject_Z 830)%Q.
Proof.
  assert (Hv : exact_target E12 830) by (unfold exact_target; simpl; lia).
  split; [exact Hv | apply (find_nearest_relative_error E12 830 Hv)].
Defined.

(** X8: for such a target [find_greater_than_or_equal] returns the least
    standard value of the whole series that is at or above the target. *)
Theorem find_greater_than_or_equal_is_least series_key (value : Z) :
  exact_target series_key value ->
  exists r, find_greater_than_or_equal series_key (inject_Z value) = Ok r
            /\ is_standard series_key r /\ (inject_Z value <= r)%Q
            /\ forall x, is_standard series_key x -> (inject_Z value <= x)%Q ->
                 (r <= x)%Q.
Proof.
  intros Hv. apply greater_or_equal_least, exact_target_valid, Hv.
Qed.

Lemma find_greater_than_or_equal_is_least_E12_830 :
  exact_target E12 830
  /\ exists r, find_greater_than_or_equal E12 (inject_Z 830) = Ok r
               /\ is_standard E12 r /\ (inject_Z 830 <= r)%Q
               /\ forall x, is_standard E12 x -> (inject_Z 830 <= x)%Q ->
                    (r <= x)%Q.
Proof.
  assert (Hv : exact_target E12 830) by (unfold exact_target; simpl; lia).
  split; [exact Hv | apply (find_greater_than_or_equal_is_least E12 830 Hv)].
Defined.

(** X9: for such a target [find_less_than_or_equal] returns the greatest
    standard value of the whole series that is at or below the target. *)
Theorem find_less_than_or_equal_is_greatest series_key (value : Z) :
  exact_target series_key value ->
  exists r, find_less_than_or_equal series_key (inject_Z value) = Ok r
            /\ is_standard series_key r /\ (r <= inject_Z value)%Q
            /\ forall x, is_standard series_key x -> (x <= inject_Z value)%Q ->
                 (x <= r)%Q.
Proof.
  intros Hv. apply less_or_equal_greatest, exact_target_valid, Hv.
Qed.

Lemma find_less_than_or_equal_is_greatest_E12_830 :
  exact_target E12 830
  /\ exists r, find_less_than_or_equal E12 (inject_Z 830) = Ok r
               /\ is_standard E12 r /\ (r <= inject_Z 830)%Q
               /\ forall x, is_standard E12 x -> (x <= inject_Z 830)%Q ->
                    (x <= r)%Q.
Proof.
  assert (Hv : exact_target E12 830) by (unfold exact_target; simpl; lia).
  split; [exact Hv | apply (find_less_than_or_equal_is_greatest E12 830 Hv)].
Defined.

(** X10: for such a target strictly between two neighbouring standard
    values, [find_less_than] returns the lower neighbour and
    [find_greater_than] the upper one. *)
Theorem strict_searches_between_neighbours series_key (value : Z) d i :
  exact_target series_key value ->
  (i < length (series series_key))%nat ->
  (std_value series_key d i < inject_Z value)%Q ->
  (inject_Z value < value_at series_key (next_position series_key (d, i)))%Q ->
  exists lt gt,
    find_less_than series_key (inject_Z value) = Ok lt
    /\ (lt == std_value series_key d i)%Q
    /\ find_greater_than series_key (inject_Z value) = Ok gt
    /\ (gt == value_at series_key (next_position series_key (d, i)))%Q.
Proof.
  intros Hv.
  apply strict_searches_between_neighbours_exact, exact_target_valid, Hv.
Qed.

Lemma strict_searches_between_neighbours_E12_830 :
  exact_target E12 830
  /\ (11 < length (series E12))%nat
  /\ (std_value E12 2 11 < inject_Z 830)%Q
  /\ (inject_Z 830 < value_at E12 (next_position E12 (2%Z, 11%nat)))%Q
  /\ exists lt gt,
       find_less_than E12 (inject_Z 830) = Ok lt
       /\ (lt == std_value E12 2 11)%Q
       /\ find_greater_than E12 (inject_Z 830) = Ok gt
       /\ (gt == value_at E12 (next_position E12 (2%Z, 11%nat)))%Q.
Proof.
  assert (Hv : exact_target E12 830) by (unfold exact_target; simpl; lia).
  assert (Hi : (11 < length (series E12))%nat) by (simpl; lia).
  assert (H1 : (std_value E12 2 11 < inject_Z 830)%Q) by reflexivity.
  assert (H2 : (inject_Z 830
                < value_at E12 (next_position E12 (2%Z, 11%nat)))%Q)
    by reflexivity.
  repeat (split; [assumption|]).
  apply (strict_searches_between_neighbours E12 830 2 11%nat Hv Hi H1 H2).
Defined.

(** X11: for such a target the strict searches never return a wrong value.
    Whenever [find_greater_than] returns, it returns the least standard
    value above the target, and whenever [find_less_than] returns, it
    returns the greatest standard value below it.  (At some standard values
    [find_greater_than] does not return: it fails its assertion.) *)
Theorem strict_searches_never_wrong series_key (value : Z) :
  exact_target series_key value ->
  (forall r, find_greater_than series_key (inject_Z value) = Ok r ->
     is_standard series_key r /\ (inject_Z value < r)%Q
     /\ forall x, is_standard series_key x -> (inject_Z value < x)%Q ->
          (r <= x)%Q)
  /\ (forall r, find_less_than series_key (inject_Z value) = Ok r ->
        is_standard series_key r /\ (r < inject_Z value)%Q
        /\ forall x, is_standard series_key x -> (x < inject_Z value)%Q ->
             (x <= r)%Q).
Proof.
  intros _. split; intros r; [apply greater_than_least | apply less_than_greatest].
Qed.

Lemma strict_searches_never_wrong_E24_120 :
  exact_target E24 120
  /\ find_greater_than E24 (inject_Z 120) = Ok (inject_Z 130)
  /\ find_less_than E24 (inject_Z 120) = Ok (inject_Z 110)
  /\ (is_standard E24 (inject_Z 130) /\ (inject_Z 120 < inject_Z 130)%Q
      /\ forall x, is_standard E24 x -> (inject_Z 120 < x)%Q ->
           (inject_Z 130 <= x)%Q)
  /\ (is_standard E24 (inject_Z 110) /\ (inject_Z 110 < inject_Z 120)%Q
      /\ forall x, is_standard E24 x -> (x < inject_Z 120)%Q ->
           (x <= inject_Z 110)%Q).
Proof.
  assert (Hv : exact_target E24 120) by (unfold exact_target; simpl; lia).
  assert (Hgt : find_greater_than E24 (inject_Z 120) = Ok (inject_Z 130))
    by (vm_compute; reflexivity).
  assert (Hlt : find_less_than E24 (inject_Z 120) = Ok (inject_Z 110))
    by (vm_compute; reflexivity).
  split; [exact Hv|]. split; [exact Hgt|]. split; [exact Hlt|].
  destruct (strict_searches_never_wrong E24 120 Hv) as [Hup Hdown].
  split; [apply (Hup _ Hgt) | apply (Hdown _ Hlt)].
Defined.

(** X12: on integer candidates and an integer target of magnitude at most
    [2 ^ 52], [_nearest_n] keeps [n] candidates, or all of them when there
    are fewer; it returns them in ascending order; each is one of the
    candidates; and no candidate left out is strictly nearer to the target
    than one that is kept. *)
Theorem nearest_n_selects_nearest candidates value n :
  0 <= n -> Forall exact_integer candidates -> exact_integer value ->
  length (_nearest_n candidates value n)
  = Nat.min (Z.to_nat n) (length candidates)
  /\ Sorted Qle (_nearest_n candidates value n)
  /\ (forall r, In r (_nearest_n candidates value n) -> In r candidates)
  /\ (forall e r,
        In e candidates -> ~ In e (_nearest_n candidates value n) ->
        In r (_nearest_n candidates value n) ->
        (distance value r <= distance value e)%Q).
Proof.
  intros _ _ _. split; [apply nearest_n_length|].
  split; [apply nearest_n_sorted|]. split; [apply nearest_n_subset|].
  intros e r He Hne Hr. apply (nearest_n_excluded _ _ _ e He Hne r Hr).
Qed.

Lemma nearest_n_selects_nearest_2_of_4 :
  0 <= 2 /\ Forall exact_integer (map inject_Z [10; 12; 15; 18])
  /\ exact_integer (inject_Z 14)
  /\ length (_nearest_n (map inject_Z [10; 12; 15; 18]) (inject_Z 14) 2)
     = Nat.min (Z.to_nat 2) (length (map inject_Z [10; 12; 15; 18]))
  /\ Sorted Qle (_nearest_n (map inject_Z [10; 12; 15; 18]) (inject_Z 14) 2)
  /\ (forall r,
        In r (_nearest_n (map inject_Z [10; 12; 15; 18]) (inject_Z 14) 2) ->
        In r (map inject_Z [10; 12; 15; 18]))
  /\ (forall e r,
        In e (map inject_Z [10; 12; 15; 18]) ->
        ~ In e (_nearest_n (map inject_Z [10; 12; 15; 18]) (inject_Z 14) 2) ->
        In r (_nearest_n (map inject_Z [10; 12; 15; 18]) (inject_Z 14) 2) ->
        (distance (inject_Z 14) r <= distance (inject_Z 14) e)%Q).
Proof.
  assert (H : 0 <= 2) by lia.
  assert (Hc : Forall exact_integer (map inject_Z [10; 12; 15; 18])).
  { repeat constructor; eexists; (split; [reflexivity | simpl; lia]). }
  assert (Hv : exact_integer (inject_Z 14)).
  { eexists. split; [reflexivity | simpl; lia]. }
  split; [exact H|]. split; [exact Hc|]. split; [exact Hv|].
  apply (nearest_n_selects_nearest _ _ _ H Hc Hv).
Defined.

(** X13: for a target from [1e-199] to [1e305], asking for more neighbours
    only adds to the answer: the value [find_nearest] returns is one of the
    two that [find_nearest_few] returns for [num = 2], and these are among
    the three it returns for [num = 3]. *)
Theorem find_nearest_few_nested series_key value :
  float_target value ->
  exists r l2 l3,
    find_nearest series_key value = Ok r
    /\ find_nearest_few series_key value 2 = Ok l2
    /\ find_nearest_few series_key value 3 = Ok l3
    /\ In r l2 /\ incl l2 l3.
Proof.
  intros Hv. apply find_nearest_few_nested_exact, float_target_valid, Hv.
Qed.

Lemma find_nearest_few_nested_E12_83 :
  float_target 83
  /\ exists r l2 l3,
       find_nearest E12 83 = Ok r
       /\ find_nearest_few E12 83 2 = Ok l2
       /\ find_nearest_few E12 83 3 = Ok l3
       /\ In r l2 /\ incl l2 l3.
Proof.
  assert (Hv : float_target 83)
    by (split; apply Qle_bool_iff; vm_compute; reflexivity).
  split; [exact Hv | apply (find_nearest_few_nested E12 83 Hv)].
Defined.

(** X14: the searches reject every target below the minimum [1e-200] and
    not below [-1e305], zero and negative ones included.  The start-value
    check of [erange] fails on the lower end of the search window, and the
    [ValueError] it raises, whose message shows the upper end of the
    window, comes out of [find_nearest_few], [find_nearest] and the four
    directional searches alike. *)
Theorem searches_reject_small_targets series_key value :
  (- 10 ^ 305 <= value)%Q -> (value < 10 ^ (-200))%Q ->
  (forall n, In n [1; 2; 3] ->
     find_nearest_few series_key value n
     = Raise (window_too_small series_key value))
  /\ find_nearest series_key value
     = Raise (window_too_small series_key value)
  /\ find_greater_than_or_equal series_key value
     = Raise (window_too_small series_key value)
  /\ find_greater_than series_key value
     = Raise (window_too_small series_key value)
  /\ find_less_than_or_equal series_key value
     = Raise (window_too_small series_key value)
  /\ find_less_than series_key value
     = Raise (window_too_small series_key value).
Proof.
  intros Hlo Hlt.
  destruct (small_target_rejected series_key value Hlo Hlt) as [Hfin He].
  assert (Hfew : forall n, In n [1; 2; 3] ->
                   find_nearest_few series_key value n
                   = Raise (window_too_small series_key value)).
  { intros n Hn. rewrite find_nearest_few_unfold by assumption.
    rewrite He. reflexivity. }
  split; [exact Hfew|].
  unfold find_nearest, find_greater_than_or_equal, find_greater_than,
    find_less_than_or_equal, find_less_than.
  rewrite (Hfew 1), (Hfew 3) by (simpl; auto).
  repeat split; reflexivity.
Qed.

Lemma searches_reject_small_targets_E12_0 :
  (- 10 ^ 305 <= 0)%Q /\ (0 < 10 ^ (-200))%Q
  /\ (forall n, In n [1; 2; 3] ->
        find_nearest_few E12 0 n = Raise (window_too_small E12 0))
  /\ find_nearest E12 0 = Raise (window_too_small E12 0).
Proof.
  assert (H0 : (- 10 ^ 305 <= 0)%Q)
    by (apply Qle_bool_iff; vm_compute; reflexivity).
  assert (H : (0 < 10 ^ (-200))%Q) by reflexivity.
  destruct (searches_reject_small_targets E12 0 H0 H) as (H1 & H2 & _).
  split; [exact H0|]. split; [exact H|]. split; [exact H1 | exact H2].
Defined.

(** X29: the searches have an upper limit that no guard states.  The
    window of [1.2e308] is finite, and [find_nearest_few] raises
    [OverflowError] when [erange] scales the E12 entry 18 into the last
    decade; the window of [1.5e308] stops at infinity, and [find_nearest]
    raises the [ValueError] of the stop-value check of [erange]; the
    integer [10 ** 400] is no float at all, and [find_nearest] raises
    [OverflowError] when it divides it by [scale ** 1.5]. *)
Theorem searches_fail_at_top_of_float_range :
  isfinite (window_stop E12 (12 * 10 ^ 307)) = true
  /\ find_nearest_few E12 (12 * 10 ^ 307) 3 = Raise OverflowError
  /\ window_stop E12 (15 * 10 ^ 307) = PInf
  /\ find_nearest E12 (15 * 10 ^ 307)
     = Raise (ValueError (NotFinite Stop PInf))
  /\ find_nearest E12 (10 ^ 400) = Raise OverflowError.
Proof. repeat split; vm_compute; reflexivity. Qed.

(** X25: the searches repeat from decade to decade.  For an integer target
    from [10 ^ (series_decade + 1)] upwards, with ten times the target at
    most [10 ^ 9], each of [find_nearest_few], [find_nearest] and the four
    directional searches does on ten times the target what it does on the
    target, one decade up: it returns ten times the result, or raises the
    same exception. *)
Theorem searches_next_decade series_key (value : Z) :
  exact_target series_key value -> exact_target series_key (10 * value) ->
  (forall n, find_nearest_few series_key (inject_Z (10 * value)) n
             = result_map (map next_decade)
                          (find_nearest_few series_key (inject_Z value) n))
  /\ find_nearest series_key (inject_Z (10 * value))
     = result_map next_decade (find_nearest series_key (inject_Z value))
  /\ find_greater_than_or_equal series_key (inject_Z (10 * value))
     = result_map next_decade
         (find_greater_than_or_equal series_key (inject_Z value))
  /\ find_greater_than series_key (inject_Z (10 * value))
     = result_map next_decade (find_greater_than series_key (inject_Z value))
  /\ find_less_than_or_equal series_key (inject_Z (10 * value))
     = result_map next_decade
         (find_less_than_or_equal series_key (inject_Z value))
  /\ find_less_than series_key (inject_Z (10 * value))
     = result_map next_decade (find_less_than series_key (inject_Z value)).
Proof.
  intros Hv Hv'. pose proof (exact_target_le _ _ Hv') as Hhi.
  pose proof (p10_le 9 305 ltac:(lia)).
  change (inject_Z (10 * value)) with (10 * inject_Z value)%Q in *.
  apply searches_next_decade_exact;
    [apply (exact_target_valid _ _ Hv) | lra].
Qed.

Lemma searches_next_decade_E12_830 :
  exact_target E12 830 /\ exact_target E12 (10 * 830)
  /\ find_nearest E12 (inject_Z (10 * 830))
     = result_map next_decade (find_nearest E12 (inject_Z 830))
  /\ find_greater_than E12 (inject_Z (10 * 830))
     = result_map next_decade (find_greater_than E12 (inject_Z 830)).
Proof.
  assert (H1 : exact_target E12 830) by (unfold exact_target; simpl; lia).
  assert (H2 : exact_target E12 (10 * 830))
    by (unfold exact_target; simpl; lia).
  destruct (searches_next_decade E12 830 H1 H2) as (_ & Hn & _ & Hg & _).
  split; [exact H1|]. split; [exact H2|]. split; [exact Hn | exact Hg].
Defined.

(** X26: a standard value is found again: when an integer target from
    [10 ^ (series_decade + 1)] up to [10 ^ 9] is itself a standard value of
    the series, [find_nearest], [find_less_than_or_equal] and
    [find_greater_than_or_equal] all return it. *)
Theorem standard_target_found series_key (value : Z) :
  exact_target series_key value -> is_standard series_key (inject_Z value) ->
  exists r le ge,
    find_nearest series_key (inject_Z value) = Ok r
    /\ (r == inject_Z value)%Q
    /\ find_less_than_or_equal series_key (inject_Z value) = Ok le
    /\ (le == inject_Z value)%Q
    /\ find_greater_than_or_equal series_key (inject_Z value) = Ok ge
    /\ (ge == inject_Z value)%Q.
Proof.
  intros Hv. apply standard_target_found_exact, exact_target_valid, Hv.
Qed.

Lemma standard_target_found_E24_4300 :
  exact_target E24 4300 /\ is_standard E24 (inject_Z 4300)
  /\ exists r le ge,
       find_nearest E24 (inject_Z 4300) = Ok r /\ (r == inject_Z 4300)%Q
       /\ find_less_than_or_equal E24 (inject_Z 4300) = Ok le
       /\ (le == inject_Z 4300)%Q
       /\ find_greater_than_or_equal E24 (inject_Z 4300) = Ok ge
       /\ (ge == inject_Z 4300)%Q.
Proof.
  assert (Hv : exact_target E24 4300) by (unfold exact_target; simpl; lia).
  assert (Hs : is_standard E24 (inject_Z 4300)).
  { exists 3, 15%nat. split; [simpl; lia | reflexivity]. }
  split; [exact Hv|]. split; [exact Hs|].
  apply (standard_target_found E24 4300 Hv Hs).
Defined.

(** ** The helpers *)

(** X17: [_decade_mantissa] splits a nonnegative logarithm into a whole
    number of decades and a mantissa: the two add up to the value, and the
    mantissa lies in [[0, 1)]. *)
Theorem decade_mantissa_decomposes value :
  nonnegative_log value ->
  leq (ladd (lint (fst (_decade_mantissa value)))
            (snd (_decade_mantissa value))) value = true
  /\ lle (lint 0) (snd (_decade_mantissa value)) = true
  /\ llt (snd (_decade_mantissa value)) (lint 1) = true.
Proof.
  intros H. apply decade_mantissa_decomposes_exact.
  unfold nonnegative_log in H. lra.
Qed.

Lemma decade_mantissa_decomposes_21 :
  nonnegative_log (log10 (of_Z 21))
  /\ leq (ladd (lint (fst (_decade_mantissa (log10 (of_Z 21)))))
               (snd (_decade_mantissa (log10 (of_Z 21)))))
         (log10 (of_Z 21)) = true
  /\ lle (lint 0) (snd (_decade_mantissa (log10 (of_Z 21)))) = true
  /\ llt (snd (_decade_mantissa (log10 (of_Z 21)))) (lint 1) = true.
Proof.
  assert (H : nonnegative_log (log10 (of_Z 21)))
    by (apply Qle_bool_iff; vm_compute; reflexivity).
  split; [exact H | apply (decade_mantissa_decomposes _ H)].
Defined.

(** X18: [_try_integral] returns the exponent [k] of the power of ten
    [10 ^ k] for [k] from 0 to 22, the powers binary64 holds exactly; in
    general it returns [z] only when its argument is the integer [z], and
    it raises its [ValueError] exactly when the argument is no integer at
    all. *)
Theorem try_integral_spec :
  (forall k, 0 <= k <= 22 -> _try_integral (log10 (of_Q (10 ^ k))) = Ok k)
  /\ (forall f, (0 < lanti f)%Q ->
        match _try_integral f with
        | Ok z => leq f (lint z) = true
        | Raise e => e = ValueError NotIntegral
                     /\ forall z, leq f (lint z) = false
        end).
Proof.
  split; [intros k _; apply (proj1 try_integral_spec_exact k)|].
  apply (proj2 try_integral_spec_exact).
Qed.

Lemma try_integral_spec_21 :
  0 <= 2 <= 22 /\ (0 < lanti (log10 (of_Z 21)))%Q
  /\ _try_integral (log10 (of_Q (10 ^ 2))) = Ok 2
  /\ match _try_integral (log10 (of_Z 21)) with
     | Ok z => leq (log10 (of_Z 21)) (lint z) = true
     | Raise e => e = ValueError NotIntegral
                  /\ forall z, leq (log10 (of_Z 21)) (lint z) = false
     end.
Proof.
  assert (Hk : 0 <= 2 <= 22) by lia.
  assert (H : (0 < lanti (log10 (of_Z 21)))%Q) by reflexivity.
  split; [exact Hk|]. split; [exact H|]. split.
  - apply (proj1 try_integral_spec 2 Hk).
  - apply (proj2 try_integral_spec _ H).
Defined.

(** X19: for an integer [x] other than zero, of magnitude at most
    [10 ^ 12] and with [10 ^ e <= |x| < 10 ^ (e + 1)], [_round_sig x figures]
    is a whole multiple of [10 ^ (e + 1 - figures)], the unit of the last
    significant figure, and is within half that unit of [x]. *)
Theorem round_sig_accuracy (x : Z) figures :
  x <> 0 -> Z.abs x <= 10 ^ 12 ->
  exists e n,
    (10 ^ e <= Qabs (inject_Z x))%Q /\ (Qabs (inject_Z x) < 10 ^ (e + 1))%Q
    /\ (_round_sig (inject_Z x) figures
        == inject_Z n * 10 ^ (e + 1 - figures))%Q
    /\ (Qabs (_round_sig (inject_Z x) figures - inject_Z x)
        <= 10 ^ (e + 1 - figures) / 2)%Q.
Proof.
  intros Hx _. apply round_sig_accuracy_exact.
  intros E. apply Hx. unfold Qeq in E. simpl in E. lia.
Qed.

Lemma round_sig_accuracy_1234 :
  1234 <> 0 /\ Z.abs 1234 <= 10 ^ 12
  /\ exists e n,
       (10 ^ e <= Qabs (inject_Z 1234))%Q
       /\ (Qabs (inject_Z 1234) < 10 ^ (e + 1))%Q
       /\ (_round_sig (inject_Z 1234) 3 == inject_Z n * 10 ^ (e + 1 - 3))%Q
       /\ (Qabs (_round_sig (inject_Z 1234) 3 - inject_Z 1234)
           <= 10 ^ (e + 1 - 3) / 2)%Q.
Proof.
  assert (H : 1234 <> 0) by lia.
  assert (Hb : Z.abs 1234 <= 10 ^ 12) by (simpl; lia).
  split; [exact H|]. split; [exact Hb|].
  apply (round_sig_accuracy 1234 3 H Hb).
Defined.

(** X20: a positive integer of at most [10 ^ 12] that has no more than
    [figures] significant digits, [t * 10 ^ e] with [e >= 0] and
    [10 ^ (figures - 1) <= t < 10 ^ figures], comes back from [_round_sig]
    unchanged. *)
Theorem round_sig_keeps_short_numbers figures t e :
  1 <= figures -> 10 ^ (figures - 1) <= t < 10 ^ figures ->
  0 <= e -> t * 10 ^ e <= 10 ^ 12 ->
  (_round_sig (inject_Z t * pow10 e) figures == inject_Z t * 10 ^ e)%Q.
Proof.
  intros Hf Ht _ _. apply round_sig_keeps_short_numbers_exact; assumption.
Qed.

Lemma round_sig_keeps_short_numbers_47000 :
  1 <= 2 /\ 10 ^ (2 - 1) <= 47 < 10 ^ 2 /\ 0 <= 3 /\ 47 * 10 ^ 3 <= 10 ^ 12
  /\ (_round_sig (inject_Z 47 * pow10 3) 2 == inject_Z 47 * 10 ^ 3)%Q.
Proof.
  assert (H1 : 1 <= 2) by lia.
  assert (H2 : 10 ^ (2 - 1) <= 47 < 10 ^ 2) by (simpl; lia).
  assert (H3 : 0 <= 3) by lia.
  assert (H4 : 47 * 10 ^ 3 <= 10 ^ 12) by (simpl; lia).
  split; [exact H1|]. split; [exact H2|]. split; [exact H3|].
  split; [exact H4|].
  apply (round_sig_keeps_short_numbers 2 47 3 H1 H2 H3 H4).
Defined.
